(** * Independent low-rank matrix analysis (src/bss/ilrma.py)

    A shallow embedding of the ILRMA drivers of [src/bss/ilrma.py] and the
    properties its specification states about them.

    Numbers.  The program computes with NumPy [float64] and [complex128]
    arrays.  The embedding reads every arithmetic operation as the exact
    operation on real numbers ([R]) and on complex numbers (pairs of reals):
    rounding is left out, and so are the special values.  Division and the
    logarithm are the total functions of the standard library; where NumPy
    would produce an infinity or a NaN (a zero divisor, the logarithm of
    zero) the value of the embedding means nothing, and the statements below
    say so in their hypotheses.

    Arrays.  An n-dimensional array is its indexing function; its shape is
    kept where the program keeps it (the attributes [n_sources], [n_bins],
    ... of the driver, and the shape of the input).  Reductions ([np.sum],
    [np.mean], [@]) are finite sums over the axes they reduce.

    Library routines.  [np.linalg.det], [np.linalg.cond], [np.linalg.solve]
    and [np.linalg.inv] are given by what they compute (a determinant, the
    2-norm condition number, the solution of a non-singular system, the
    inverse), and raise [LinAlgError] where NumPy documents it.  The global
    random generator is the stream of the samples it will return.
    [projection_back] lives in another module of the repository
    ([algorithm/projection_back.py]) and is a parameter; so are [stft] and
    [istft] ([algorithm/stft.py]). *)

From Stdlib Require Import Reals Lra Lia Psatz List Bool Arith ZArith String.
From Stdlib Require Import ClassicalEpsilon.
Import ListNotations.

Set Implicit Arguments.
Local Open Scope R_scope.

(* ================================================================== *)
(** * Complex numbers *)

Module Cplx.

Definition C : Type := (R * R)%type.

Definition Re (z : C) : R := fst z.
Definition Im (z : C) : R := snd z.

Definition RtoC (x : R) : C := (x, 0).
Definition C0 : C := RtoC 0.
Definition C1 : C := RtoC 1.

Definition Cadd (z w : C) : C := (Re z + Re w, Im z + Im w).
Definition Cmul (z w : C) : C :=
  (Re z * Re w - Im z * Im w, Re z * Im w + Im z * Re w).
Definition Cconj (z : C) : C := (Re z, - Im z).

(** [np.abs] of a complex number. *)
Definition Cabs (z : C) : R := sqrt (Re z * Re z + Im z * Im z).

(** Complex division, [z / w]. *)
Definition Cdiv (z w : C) : C :=
  let d := Re w * Re w + Im w * Im w in
  ((Re z * Re w + Im z * Im w) / d, (Im z * Re w - Re z * Im w) / d).

(** [np.sqrt] of a complex number: the principal square root. *)
Definition Csqrt (z : C) : C :=
  let m := Cabs z in
  (sqrt ((m + Re z) / 2),
   (if Rlt_dec (Im z) 0 then -1 else 1) * sqrt ((m - Re z) / 2)).

(** The ordering NumPy gives complex numbers: real part first. *)
Definition Clt (z w : C) : Prop :=
  Re z < Re w \/ (Re z = Re w /\ Im z < Im w).

Lemma Clt_dec (z w : C) : {Clt z w} + {~ Clt z w}.
Proof.
  unfold Clt.
  destruct (Rlt_dec (Re z) (Re w)) as [H | H]; [left; now left |].
  destruct (Req_dec_T (Re z) (Re w)) as [E | E].
  - destruct (Rlt_dec (Im z) (Im w)) as [H' | H'].
    + left; right; split; assumption.
    + right; intros [K | [_ K]]; contradiction.
  - right; intros [K | [K _]]; contradiction.
Qed.

End Cplx.
Import Cplx.

Declare Scope C_scope.
Delimit Scope C_scope with C.
Bind Scope C_scope with C.
Infix "+" := Cadd : C_scope.
Infix "*" := Cmul : C_scope.
Infix "/" := Cdiv : C_scope.

(* ================================================================== *)
(** * Finite sums: the reductions of NumPy *)

(** [sum_n n f] is [f 0 + ... + f (n-1)]. *)
Fixpoint sum_n (n : nat) (f : nat -> R) : R :=
  match n with
  | O => 0
  | S k => sum_n k f + f k
  end.

Fixpoint Csum (n : nat) (f : nat -> C) : C :=
  match n with
  | O => C0
  | S k => (Csum k f + f k)%C
  end.

(** The idiom [A[A < eps] = eps], on one entry. *)
Definition floor_at (eps a : R) : R := if Rlt_dec a eps then eps else a.

(** The same on a complex array: NumPy compares lexicographically and
    stores [eps + 0j]. *)
Definition Cfloor_at (eps : R) (z : C) : C :=
  if Clt_dec z (RtoC eps) then RtoC eps else z.

(* ================================================================== *)
(** * The routines of [numpy.linalg] the program calls *)

Module Linalg.

Definition vec : Type := nat -> C.
Definition mat : Type := nat -> nat -> C.

(** [M @ v] for an n x n matrix. *)
Definition matvec (n : nat) (M : mat) (v : vec) : vec :=
  fun i => Csum n (fun j => (M i j * v j)%C).

(** The Euclidean norm of a vector of length [n]. *)
Definition vnorm (n : nat) (v : vec) : R :=
  sqrt (sum_n n (fun i => Cabs (v i) ^ 2)).

(** [np.eye]. *)
Definition eye : mat := fun i j => if Nat.eqb i j then C1 else C0.

(** ** [np.linalg.det]: expansion along the first row *)

Definition minor (M : mat) (j : nat) : mat :=
  fun r c => M (S r) (if Nat.ltb c j then c else S c).

Definition alt_sign (j : nat) : C :=
  if Nat.even j then C1 else RtoC (-1).

Fixpoint det (n : nat) (M : mat) : C :=
  match n with
  | O => C1
  | S k => Csum (S k) (fun j => (alt_sign j * (M O j * det k (minor M j)))%C)
  end.

(** ** [np.linalg.cond]: the 2-norm condition number

    The ratio of the largest to the smallest singular value, that is the
    least [c] with [|M x| <= c |M y|] for all unit vectors [x], [y]; it is
    infinite ([None]) for a singular matrix. *)

Definition cond_bound (n : nat) (M : mat) (c : R) : Prop :=
  forall x y : vec, vnorm n x = 1 -> vnorm n y = 1 ->
    vnorm n (matvec n M x) <= c * vnorm n (matvec n M y).

Definition is_cond (n : nat) (M : mat) (c : R) : Prop :=
  (forall y : vec, vnorm n y = 1 -> 0 < vnorm n (matvec n M y)) /\
  cond_bound n M c /\
  (forall c', cond_bound n M c' -> c <= c').

Definition cond (n : nat) (M : mat) : option R :=
  if excluded_middle_informative (exists c, is_cond n M c)
  then Some (epsilon (inhabits 0) (is_cond n M))
  else None.

(** [np.linalg.cond(M) < threshold]. *)
Definition cond_lt (n : nat) (M : mat) (threshold : R) : bool :=
  match cond n M with
  | Some c => if Rlt_dec c threshold then true else false
  | None => false
  end.

(** ** [np.linalg.solve] and [np.linalg.inv] *)

Definition solves (n : nat) (M : mat) (b w : vec) : Prop :=
  forall i, (i < n)%nat -> matvec n M w i = b i.

(** A matrix is non-singular when every system has exactly one solution
    (on the [n] entries of the vector). *)
Definition nonsingular (n : nat) (M : mat) : Prop :=
  forall b : vec, exists w : vec,
    solves n M b w /\
    forall w', solves n M b w' -> forall i, (i < n)%nat -> w' i = w i.

(** The solution of [M w = b] when there is one. *)
Definition solve_vec (n : nat) (M : mat) (b : vec) : vec :=
  epsilon (inhabits (fun _ => C0)) (solves n M b).

(** The inverse, column by column. *)
Definition inv_mat (n : nat) (M : mat) : mat :=
  fun i j => solve_vec n M (fun k => eye k j) i.

End Linalg.
Import Linalg.

(* ================================================================== *)
(** * Exceptions and results *)

Inductive exn : Type :=
| NotImplementedError (msg : string)
| ValueError (msg : string)
| AssertionError (msg : string)
| LinAlgError (msg : string)
| IndexError (msg : string)
| TypeError (msg : string).

Inductive result (A : Type) : Type :=
| Ok (a : A)
| Err (e : exn).
Arguments Ok {A} a.
Arguments Err {A} e.

(** The stacked forms: one matrix per frequency bin; NumPy raises when a
    matrix of the stack is singular. *)
Definition np_linalg_solve (n_bins n : nat) (A : nat -> mat) (b : nat -> vec)
  : result (nat -> vec) :=
  if excluded_middle_informative
       (forall f, (f < n_bins)%nat -> nonsingular n (A f))
  then Ok (fun f => solve_vec n (A f) (b f))
  else Err (LinAlgError "Singular matrix").

Definition np_linalg_inv (n_bins n : nat) (A : nat -> mat)
  : result (nat -> mat) :=
  if excluded_middle_informative
       (forall f, (f < n_bins)%nat -> nonsingular n (A f))
  then Ok (fun f => inv_mat n (A f))
  else Err (LinAlgError "Singular matrix").

(* ================================================================== *)
(** * The driver object *)

(** A complex array of rank 3 with its shape: the mixture, axes
    (channel, bin, frame). *)
Record carray3 : Type := mkCarray3 {
  shape0 : nat;
  shape1 : nat;
  shape2 : nat;
  at3 : nat -> nat -> nat -> C
}.

(** A real array of rank 2 or 3: [base] and [activation] have rank 2 in the
    partitioned model and rank 3 otherwise. *)
Inductive ndarray : Type :=
| Rank2 (a : nat -> nat -> R)
| Rank3 (a : nat -> nat -> nat -> R).

(** The values given to [normalize]: [False], [True] or a string. *)
Inductive pyflag : Type :=
| PyFalse
| PyTrue
| PyStr (s : string).

(** Truth value of [if self.normalize:]. *)
Definition truthy (v : pyflag) : bool :=
  match v with
  | PyFalse => false
  | PyTrue => true
  | PyStr s => negb (String.eqb s "")
  end.

(** [self.normalize == 'power'] and the like. *)
Definition eq_str (v : pyflag) (s : string) : bool :=
  match v with
  | PyStr s' => String.eqb s' s
  | _ => false
  end.

(** The attributes of the driver ([self]), and the global random generator
    of NumPy as the stream of its coming samples.  The attributes that
    [_reset] creates hold a placeholder until the first call. *)
Record ILRMA : Type := mkILRMA {
  eps : R;
  input : option carray3;
  n_bases : nat;
  loss : list R;
  partitioning : bool;
  normalize : pyflag;
  reference_id : Z;
  threshold : R;
  nu : R;
  n_sources : nat;
  n_channels : nat;
  n_bins : nat;
  n_frames : nat;
  demix_filter : nat -> nat -> nat -> C;
  estimation : nat -> nat -> nat -> C;
  latent : nat -> nat -> R;
  base : ndarray;
  activation : ndarray;
  np_random : nat -> R
}.

Definition set_eps (v : R) (s : ILRMA) : ILRMA :=
  mkILRMA v (input s) (n_bases s) (loss s) (partitioning s) (normalize s) (reference_id s) (threshold s) (nu s) (n_sources s) (n_channels s) (n_bins s) (n_frames s) (demix_filter s) (estimation s) (latent s) (base s) (activation s) (np_random s).

Definition set_input (v : option carray3) (s : ILRMA) : ILRMA :=
  mkILRMA (eps s) v (n_bases s) (loss s) (partitioning s) (normalize s) (reference_id s) (threshold s) (nu s) (n_sources s) (n_channels s) (n_bins s) (n_frames s) (demix_filter s) (estimation s) (latent s) (base s) (activation s) (np_random s).

Definition set_n_bases (v : nat) (s : ILRMA) : ILRMA :=
  mkILRMA (eps s) (input s) v (loss s) (partitioning s) (normalize s) (reference_id s) (threshold s) (nu s) (n_sources s) (n_channels s) (n_bins s) (n_frames s) (demix_filter s) (estimation s) (latent s) (base s) (activation s) (np_random s).

Definition set_loss (v : list R) (s : ILRMA) : ILRMA :=
  mkILRMA (eps s) (input s) (n_bases s) v (partitioning s) (normalize s) (reference_id s) (threshold s) (nu s) (n_sources s) (n_channels s) (n_bins s) (n_frames s) (demix_filter s) (estimation s) (latent s) (base s) (activation s) (np_random s).

Definition set_partitioning (v : bool) (s : ILRMA) : ILRMA :=
  mkILRMA (eps s) (input s) (n_bases s) (loss s) v (normalize s) (reference_id s) (threshold s) (nu s) (n_sources s) (n_channels s) (n_bins s) (n_frames s) (demix_filter s) (estimation s) (latent s) (base s) (activation s) (np_random s).

Definition set_normalize (v : pyflag) (s : ILRMA) : ILRMA :=
  mkILRMA (eps s) (input s) (n_bases s) (loss s) (partitioning s) v (reference_id s) (threshold s) (nu s) (n_sources s) (n_channels s) (n_bins s) (n_frames s) (demix_filter s) (estimation s) (latent s) (base s) (activation s) (np_random s).

Definition set_reference_id (v : Z) (s : ILRMA) : ILRMA :=
  mkILRMA (eps s) (input s) (n_bases s) (loss s) (partitioning s) (normalize s) v (threshold s) (nu s) (n_sources s) (n_channels s) (n_bins s) (n_frames s) (demix_filter s) (estimation s) (latent s) (base s) (activation s) (np_random s).

Definition set_threshold (v : R) (s : ILRMA) : ILRMA :=
  mkILRMA (eps s) (input s) (n_bases s) (loss s) (partitioning s) (normalize s) (reference_id s) v (nu s) (n_sources s) (n_channels s) (n_bins s) (n_frames s) (demix_filter s) (estimation s) (latent s) (base s) (activation s) (np_random s).

Definition set_nu (v : R) (s : ILRMA) : ILRMA :=
  mkILRMA (eps s) (input s) (n_bases s) (loss s) (partitioning s) (normalize s) (reference_id s) (threshold s) v (n_sources s) (n_channels s) (n_bins s) (n_frames s) (demix_filter s) (estimation s) (latent s) (base s) (activation s) (np_random s).

Definition set_n_sources (v : nat) (s : ILRMA) : ILRMA :=
  mkILRMA (eps s) (input s) (n_bases s) (loss s) (partitioning s) (normalize s) (reference_id s) (threshold s) (nu s) v (n_channels s) (n_bins s) (n_frames s) (demix_filter s) (estimation s) (latent s) (base s) (activation s) (np_random s).

Definition set_n_channels (v : nat) (s : ILRMA) : ILRMA :=
  mkILRMA (eps s) (input s) (n_bases s) (loss s) (partitioning s) (normalize s) (reference_id s) (threshold s) (nu s) (n_sources s) v (n_bins s) (n_frames s) (demix_filter s) (estimation s) (latent s) (base s) (activation s) (np_random s).

Definition set_n_bins (v : nat) (s : ILRMA) : ILRMA :=
  mkILRMA (eps s) (input s) (n_bases s) (loss s) (partitioning s) (normalize s) (reference_id s) (threshold s) (nu s) (n_sources s) (n_channels s) v (n_frames s) (demix_filter s) (estimation s) (latent s) (base s) (activation s) (np_random s).

Definition set_n_frames (v : nat) (s : ILRMA) : ILRMA :=
  mkILRMA (eps s) (input s) (n_bases s) (loss s) (partitioning s) (normalize s) (reference_id s) (threshold s) (nu s) (n_sources s) (n_channels s) (n_bins s) v (demix_filter s) (estimation s) (latent s) (base s) (activation s) (np_random s).

Definition set_demix_filter (v : nat -> nat -> nat -> C) (s : ILRMA) : ILRMA :=
  mkILRMA (eps s) (input s) (n_bases s) (loss s) (partitioning s) (normalize s) (reference_id s) (threshold s) (nu s) (n_sources s) (n_channels s) (n_bins s) (n_frames s) v (estimation s) (latent s) (base s) (activation s) (np_random s).

Definition set_estimation (v : nat -> nat -> nat -> C) (s : ILRMA) : ILRMA :=
  mkILRMA (eps s) (input s) (n_bases s) (loss s) (partitioning s) (normalize s) (reference_id s) (threshold s) (nu s) (n_sources s) (n_channels s) (n_bins s) (n_frames s) (demix_filter s) v (latent s) (base s) (activation s) (np_random s).

Definition set_latent (v : nat -> nat -> R) (s : ILRMA) : ILRMA :=
  mkILRMA (eps s) (input s) (n_bases s) (loss s) (partitioning s) (normalize s) (reference_id s) (threshold s) (nu s) (n_sources s) (n_channels s) (n_bins s) (n_frames s) (demix_filter s) (estimation s) v (base s) (activation s) (np_random s).

Definition set_base (v : ndarray) (s : ILRMA) : ILRMA :=
  mkILRMA (eps s) (input s) (n_bases s) (loss s) (partitioning s) (normalize s) (reference_id s) (threshold s) (nu s) (n_sources s) (n_channels s) (n_bins s) (n_frames s) (demix_filter s) (estimation s) (latent s) v (activation s) (np_random s).

Definition set_activation (v : ndarray) (s : ILRMA) : ILRMA :=
  mkILRMA (eps s) (input s) (n_bases s) (loss s) (partitioning s) (normalize s) (reference_id s) (threshold s) (nu s) (n_sources s) (n_channels s) (n_bins s) (n_frames s) (demix_filter s) (estimation s) (latent s) (base s) v (np_random s).

Definition set_np_random (v : nat -> R) (s : ILRMA) : ILRMA :=
  mkILRMA (eps s) (input s) (n_bases s) (loss s) (partitioning s) (normalize s) (reference_id s) (threshold s) (nu s) (n_sources s) (n_channels s) (n_bins s) (n_frames s) (demix_filter s) (estimation s) (latent s) (base s) (activation s) v.

(** Real and complex arrays by rank. *)
Definition arr1 : Type := nat -> R.
Definition arr2 : Type := nat -> nat -> R.
Definition arr3 : Type := nat -> nat -> nat -> R.
Definition carr2 : Type := nat -> nat -> C.
Definition carr3 : Type := nat -> nat -> nat -> C.

(* ================================================================== *)
(** * The numerical kernels

    Each definition is one array the program computes; the name is the name
    of the variable in the source, prefixed by the branch it belongs to
    ([unc_]: [partitioning] is false, [par_]: it is true). *)

(** ** [ILRMAbase.separate] (lines 82-94)

    [demix_filter @ input.transpose(1,0,2)], transposed back: entry
    [(s, f, t)] is the product of row [s] of the filter of bin [f] with the
    channel vector of the mixture at [(f, t)]. *)
Definition separate (n_channels : nat) (X : carr3) (W : carr3) : carr3 :=
  fun s f t => Csum n_channels (fun c => (W f s c * X c f t)%C).

(** [P = np.abs(Y)**2]. *)
Definition power (Y : carr3) : arr3 :=
  fun s f t => Cabs (Y s f t) ^ 2.

(** ** The source model, unconstrained (lines 244-264) *)

(** [TV = T @ V; TV[TV < eps] = eps]. *)
Definition unc_TV (eps : R) (n_bases : nat) (T V : arr3) : arr3 :=
  fun s f t => floor_at eps (sum_n n_bases (fun k => T s f k * V s k t)).

(** [division = P / (TV**2)], whose divisor is [unc_TV_squared]. *)
Definition unc_TV_squared (eps : R) (n_bases : nat) (T V : arr3) : arr3 :=
  fun s f t => unc_TV eps n_bases T V s f t ^ 2.

Definition unc_division (eps : R) (n_bases : nat) (P T V : arr3) : arr3 :=
  fun s f t => P s f t / unc_TV_squared eps n_bases T V s f t.

(** [TV_inverse = 1 / TV]. *)
Definition unc_TV_inverse (eps : R) (n_bases : nat) (T V : arr3) : arr3 :=
  fun s f t => 1 / unc_TV eps n_bases T V s f t.

(** [TVV = TV_inverse @ V_transpose; TVV[TVV < eps] = eps]. *)
Definition unc_TVV (eps : R) (n_frames n_bases : nat) (T V : arr3) : arr3 :=
  fun s f k =>
    floor_at eps
      (sum_n n_frames (fun t => unc_TV_inverse eps n_bases T V s f t * V s k t)).

(** [T = T * np.sqrt(division @ V_transpose / TVV)]. *)
Definition unc_base (eps : R) (n_frames n_bases : nat) (P T V : arr3) : arr3 :=
  fun s f k =>
    T s f k *
    sqrt (sum_n n_frames (fun t => unc_division eps n_bases P T V s f t * V s k t)
          / unc_TVV eps n_frames n_bases T V s f k).

(** [TTV = T_transpose @ TV_inverse; TTV[TTV < eps] = eps], with the new
    [T]. *)
Definition unc_TTV (eps : R) (n_bins n_bases : nat) (T V : arr3) : arr3 :=
  fun s k t =>
    floor_at eps
      (sum_n n_bins (fun f => T s f k * unc_TV_inverse eps n_bases T V s f t)).

(** [V = V * np.sqrt(T_transpose @ division / TTV)]. *)
Definition unc_activation (eps : R) (n_bins n_bases : nat) (P T V : arr3)
  : arr3 :=
  fun s k t =>
    V s k t *
    sqrt (sum_n n_bins (fun f => T s f k * unc_division eps n_bases P T V s f t)
          / unc_TTV eps n_bins n_bases T V s k t).

(** ** The source model, partitioned (lines 204-242) *)

(** [ZTV = (Z[:,None,:] * T[None,:,:]) @ V[None,:,:]; ZTV[ZTV < eps] = eps]. *)
Definition par_ZTV (eps : R) (n_bases : nat) (Z T V : arr2) : arr3 :=
  fun s f t =>
    floor_at eps (sum_n n_bases (fun k => (Z s k * T f k) * V k t)).

Definition par_ZTV_squared (eps : R) (n_bases : nat) (Z T V : arr2) : arr3 :=
  fun s f t => par_ZTV eps n_bases Z T V s f t ^ 2.

(** [division = P / (ZTV**2)] and [ZTV_inverse = 1 / ZTV]. *)
Definition par_division (eps : R) (n_bases : nat) (P : arr3) (Z T V : arr2)
  : arr3 :=
  fun s f t => P s f t / par_ZTV_squared eps n_bases Z T V s f t.

Definition par_ZTV_inverse (eps : R) (n_bases : nat) (Z T V : arr2) : arr3 :=
  fun s f t => 1 / par_ZTV eps n_bases Z T V s f t.

(** The latent update: [TV = T[:,:,None] * V[None,:,:]], the sums over bins
    and frames (axes 1 and 3), the floored denominator. *)
Definition par_latent_numerator (eps : R) (n_bins n_frames n_bases : nat)
  (P : arr3) (Z T V : arr2) : arr2 :=
  fun s k =>
    sum_n n_bins (fun f => sum_n n_frames (fun t =>
      par_division eps n_bases P Z T V s f t * (T f k * V k t))).

Definition par_latent_denominator (eps : R) (n_bins n_frames n_bases : nat)
  (Z T V : arr2) : arr2 :=
  fun s k =>
    floor_at eps
      (sum_n n_bins (fun f => sum_n n_frames (fun t =>
         par_ZTV_inverse eps n_bases Z T V s f t * (T f k * V k t)))).

(** [Z = np.sqrt(numerator / denominator)]. *)
Definition par_latent_sqrt (eps : R) (n_bins n_frames n_bases : nat)
  (P : arr3) (Z T V : arr2) : arr2 :=
  fun s k =>
    sqrt (par_latent_numerator eps n_bins n_frames n_bases P Z T V s k
          / par_latent_denominator eps n_bins n_frames n_bases Z T V s k).

(** [Z.sum(axis=0)]: the divisor of the renormalisation. *)
Definition par_latent_sum (eps : R) (n_sources n_bins n_frames n_bases : nat)
  (P : arr3) (Z T V : arr2) : arr1 :=
  fun k =>
    sum_n n_sources
      (fun s => par_latent_sqrt eps n_bins n_frames n_bases P Z T V s k).

(** [Z = Z / Z.sum(axis=0)]. *)
Definition par_latent (eps : R) (n_sources n_bins n_frames n_bases : nat)
  (P : arr3) (Z T V : arr2) : arr2 :=
  fun s k =>
    par_latent_sqrt eps n_bins n_frames n_bases P Z T V s k
    / par_latent_sum eps n_sources n_bins n_frames n_bases P Z T V k.

(** The base update, with the new [Z]: [ZV = Z[:,:,None] * V[None,:,:]],
    sums over sources and frames (axes 0 and 3). *)
Definition par_base_denominator (eps : R) (n_sources n_frames n_bases : nat)
  (Z T V : arr2) : arr2 :=
  fun f k =>
    floor_at eps
      (sum_n n_sources (fun s => sum_n n_frames (fun t =>
         par_ZTV_inverse eps n_bases Z T V s f t * (Z s k * V k t)))).

Definition par_base (eps : R) (n_sources n_frames n_bases : nat)
  (P : arr3) (Z T V : arr2) : arr2 :=
  fun f k =>
    T f k *
    sqrt (sum_n n_sources (fun s => sum_n n_frames (fun t =>
            par_division eps n_bases P Z T V s f t * (Z s k * V k t)))
          / par_base_denominator eps n_sources n_frames n_bases Z T V f k).

(** The activation update, with the new [Z] and [T]: sums over sources and
    bins (axes 0 and 1). *)
Definition par_activation_denominator (eps : R)
  (n_sources n_bins n_bases : nat) (Z T V : arr2) : arr2 :=
  fun k t =>
    floor_at eps
      (sum_n n_sources (fun s => sum_n n_bins (fun f =>
         par_ZTV_inverse eps n_bases Z T V s f t * (Z s k * T f k)))).

Definition par_activation (eps : R) (n_sources n_bins n_bases : nat)
  (P : arr3) (Z T V : arr2) : arr2 :=
  fun k t =>
    V k t *
    sqrt (sum_n n_sources (fun s => sum_n n_bins (fun f =>
            par_division eps n_bases P Z T V s f t * (Z s k * T f k)))
          / par_activation_denominator eps n_sources n_bins n_bases Z T V k t).

(** ** The power spectral density of the model *)

(** [T @ V], or [np.sum(Z[:,None,:,None] * T[:,:,None] * V[None,:,:], axis=2)]
    in the partitioned model. *)
Definition unc_psd (n_bases : nat) (T V : arr3) : arr3 :=
  fun s f t => sum_n n_bases (fun k => T s f k * V s k t).

Definition par_psd (n_bases : nat) (Z T V : arr2) : arr3 :=
  fun s f t => sum_n n_bases (fun k => (Z s k * T f k) * V k t).

(** [R[R < eps] = eps]. *)
Definition floor3 (eps : R) (A : arr3) : arr3 :=
  fun i j k => floor_at eps (A i j k).

(** ** The spatial model of [GaussILRMA] (lines 266-308) *)

(** [XX = X @ X_Hermite], entry [(f, t, c, c')]. *)
Definition outer_XX (X : carr3) : nat -> nat -> nat -> nat -> C :=
  fun f t c c' => (X c f t * Cconj (X c' f t))%C.

(** [U = (XX / R).mean(axis=2)], entry [(s, f, c, c')]; [R] is the floored
    density. *)
Definition weighted_covariance (n_frames : nat) (X : carr3) (R_ : arr3)
  : nat -> nat -> nat -> nat -> C :=
  fun s f c c' =>
    (Csum n_frames (fun t => outer_XX X f t c c' / RtoC (R_ s f t))
     / RtoC (INR n_frames))%C.

(** [WU = W @ U_n], one matrix per bin. *)
Definition filter_WU (n_channels : nat) (W : carr3)
  (U_n : nat -> nat -> nat -> C) : nat -> mat :=
  fun f s c' => Csum n_channels (fun c => (W f s c * U_n f c c')%C).

(** [wUw = w_n[:,None,:].conj() @ U_n @ w_n[:,:,None]]. *)
Definition quad_wUw (n_channels : nat) (U_n : nat -> nat -> nat -> C)
  (w_n : nat -> vec) : nat -> C :=
  fun f =>
    Csum n_channels (fun c' =>
      (Csum n_channels (fun c => Cconj (w_n f c) * U_n f c c') * w_n f c')%C).

(** [denominator = np.sqrt(wUw[...,0])]. *)
Definition ip_denominator (n_channels : nat) (U_n : nat -> nat -> nat -> C)
  (w_n : nat -> vec) : nat -> C :=
  fun f => Csqrt (quad_wUw n_channels U_n w_n f).

(** [np.where(condition, w_n.conj() / denominator, w_n_Hermite)] stored in
    row [source_idx] of [W]. *)
Definition ip_row (n_channels : nat) (threshold : R) (source_idx : nat)
  (W : carr3) (U_n : nat -> nat -> nat -> C) (w_n : nat -> vec) : carr2 :=
  fun f c =>
    if cond_lt n_channels (filter_WU n_channels W U_n f) threshold
    then (Cconj (w_n f c) / ip_denominator n_channels U_n w_n f)%C
    else W f source_idx c.

Definition set_row (source_idx : nat) (W : carr3) (row : carr2) : carr3 :=
  fun f s c => if Nat.eqb s source_idx then row f c else W f s c.

(** ** The spatial model of [tILRMA] (lines 493-534) *)

(** [Xi = (nu * R + 2 * P) / (nu + 2)]. *)
Definition t_Xi (nu : R) (R_ P : arr3) : arr3 :=
  fun s f t => (nu * R_ s f t + 2 * P s f t) / (nu + 2).

(** [denominator = np.sqrt(wUw[...,0]); denominator[denominator < eps] = eps]. *)
Definition t_denominator (eps : R) (n_channels : nat)
  (U_n : nat -> nat -> nat -> C) (w : nat -> vec) : nat -> C :=
  fun f => Cfloor_at eps (Csqrt (quad_wUw n_channels U_n w f)).

(** [W[:, source_idx, :] = w.conj() / denominator]. *)
Definition t_row (eps : R) (n_channels : nat) (U_n : nat -> nat -> nat -> C)
  (w : nat -> vec) : carr2 :=
  fun f c => (Cconj (w f c) / t_denominator eps n_channels U_n w f)%C.

(** ** The losses (lines 310-330 and 536-557) *)

Definition sum3 (n0 n1 n2 : nat) (A : arr3) : R :=
  sum_n n0 (fun i => sum_n n1 (fun j => sum_n n2 (fun k => A i j k))).

(** [np.sum(np.log(np.abs(np.linalg.det(W))))]. *)
Definition log_abs_det (n_bins n_sources : nat) (W : carr3) : R :=
  sum_n n_bins (fun f => ln (Cabs (det n_sources (W f)))).

(** [np.sum(P / R + np.log(R)) - 2 * n_frames * np.sum(np.log(np.abs(det(W))))];
    [R_] is the floored density. *)
Definition gauss_loss (n_sources n_bins n_frames : nat)
  (P R_ : arr3) (W : carr3) : R :=
  sum3 n_sources n_bins n_frames (fun s f t => P s f t / R_ s f t + ln (R_ s f t))
  - 2 * INR n_frames * log_abs_det n_bins n_sources W.

Definition t_loss (nu : R) (n_sources n_bins n_frames : nat)
  (P R_ : arr3) (W : carr3) : R :=
  sum3 n_sources n_bins n_frames
    (fun s f t =>
       (1 + nu / 2) * ln (1 + (2 / nu) * (P s f t / R_ s f t)) + ln (R_ s f t))
  - 2 * INR n_frames * log_abs_det n_bins n_sources W.

(** ** Power normalisation (lines 164-181) *)

(** [aux = np.sqrt(P.mean(axis=(1,2)))]: the root mean square of a source's
    estimate over bins and frames. *)
Definition rms (n_bins n_frames : nat) (Y : carr3) : arr1 :=
  fun s =>
    sqrt (sum_n n_bins (fun f => sum_n n_frames (fun t => power Y s f t))
          / INR (n_bins * n_frames)).

(** [aux[aux < eps] = eps]. *)
Definition norm_aux (eps : R) (n_bins n_frames : nat) (Y : carr3) : arr1 :=
  fun s => floor_at eps (rms n_bins n_frames Y s).

(** [W = W / aux[None,:,None]] and [Y = Y / aux[:,None,None]]. *)
Definition scale_filter (aux : arr1) (W : carr3) : carr3 :=
  fun f s c => (W f s c / RtoC (aux s))%C.

Definition scale_estimate (aux : arr1) (Y : carr3) : carr3 :=
  fun s f t => (Y s f t / RtoC (aux s))%C.

(** [Zaux = Z / (aux[:,None]**2)], [Zauxsum = np.sum(Zaux, axis=0)],
    [T = T * Zauxsum], [Z = Zaux / Zauxsum]. *)
Definition norm_Zaux (aux : arr1) (Z : arr2) : arr2 :=
  fun s k => Z s k / aux s ^ 2.

Definition norm_Zauxsum (n_sources : nat) (aux : arr1) (Z : arr2) : arr1 :=
  fun k => sum_n n_sources (fun s => norm_Zaux aux Z s k).

Definition norm_par_base (n_sources : nat) (aux : arr1) (Z T : arr2) : arr2 :=
  fun f k => T f k * norm_Zauxsum n_sources aux Z k.

Definition norm_par_latent (n_sources : nat) (aux : arr1) (Z : arr2) : arr2 :=
  fun s k => norm_Zaux aux Z s k / norm_Zauxsum n_sources aux Z k.

(** [T = T / (aux[:,None,None]**2)]. *)
Definition norm_unc_base (aux : arr1) (T : arr3) : arr3 :=
  fun s f k => T s f k / aux s ^ 2.

(** ** Projection-back normalisation (lines 185-189) *)

(** [Y = Y * scale[...,None]]. *)
Definition apply_scale (scale : carr2) (Y : carr3) : carr3 :=
  fun s f t => (Y s f t * scale s f)%C.

(** [X @ X_Hermite], one matrix per bin. *)
Definition gram_XX (n_frames : nat) (X : carr3) : nat -> mat :=
  fun f c c' => Csum n_frames (fun t => (X c f t * Cconj (X c' f t))%C).

(** [W = Y.transpose(1,0,2) @ X_Hermite @ inv(X @ X_Hermite)]. *)
Definition refit_filter (n_channels n_frames : nat) (Y X : carr3)
  (XX_inverse : nat -> mat) : carr3 :=
  fun f s c =>
    Csum n_channels (fun c' =>
      (Csum n_frames (fun t => Y s f t * Cconj (X c' f t)) * XX_inverse f c' c)%C).

(** ** Initialisation ([_reset], lines 39-49) *)

(** [np.random.rand(d0, d1)] and [np.random.rand(d0, d1, d2)] read the next
    samples of the generator in row-major order. *)
Definition rand2 (rng : nat -> R) (d1 : nat) : arr2 :=
  fun i j => rng (i * d1 + j)%nat.

Definition rand3 (rng : nat -> R) (d1 d2 : nat) : arr3 :=
  fun i j k => rng (i * d1 * d2 + j * d2 + k)%nat.

Definition advance (rng : nat -> R) (n : nat) : nat -> R :=
  fun i => rng (n + i)%nat.

(** [np.tile(np.eye(n_sources, n_channels), reps=(n_bins, 1, 1))]. *)
Definition tiled_eye : carr3 := fun _ s c => eye s c.

(* ================================================================== *)
(** * Methods: state and exceptions

    A method is a function from the driver to the driver it leaves behind
    and either a value or the exception it raised: an exception keeps the
    attributes that were assigned before it. *)

Definition M (A : Type) : Type := ILRMA -> ILRMA * result A.

Definition ret {A : Type} (a : A) : M A := fun s => (s, Ok a).

Definition bind {A B : Type} (m : M A) (k : A -> M B) : M B :=
  fun s =>
    match m s with
    | (s', Ok a) => k a s'
    | (s', Err e) => (s', Err e)
    end.

Definition raise {A : Type} (e : exn) : M A := fun s => (s, Err e).

Definition get : M ILRMA := fun s => (s, Ok s).

Definition modify (f : ILRMA -> ILRMA) : M unit := fun s => (f s, Ok tt).

Definition lift {A : Type} (r : result A) : M A := fun s => (s, r).

Declare Scope monad_scope.
Delimit Scope monad_scope with monad.
Notation "x <- m ;; k" := (bind m (fun x => k))
  (at level 61, m at next level, right associativity) : monad_scope.
Notation "m ;; k" := (bind m (fun _ => k))
  (at level 61, right associativity) : monad_scope.
Local Open Scope monad_scope.

(** [for idx in range(n): body(idx)]. *)
Fixpoint for_from (i n : nat) (body : nat -> M unit) : M unit :=
  match n with
  | O => ret tt
  | S k => body i ;; for_from (S i) k body
  end.

Definition for_range (n : nat) (body : nat -> M unit) : M unit :=
  for_from O n body.

(** Reading attributes. *)
Definition get_input : M carray3 :=
  s <- get ;;
  match input s with
  | Some X => ret X
  | None => raise (TypeError "'NoneType' object is not subscriptable")
  end.

Definition get_rank3 (a : ndarray) : M arr3 :=
  match a with
  | Rank3 a => ret a
  | Rank2 _ => raise (ValueError "operands could not be broadcast together")
  end.

Definition get_rank2 (a : ndarray) : M arr2 :=
  match a with
  | Rank2 a => ret a
  | Rank3 _ => raise (ValueError "operands could not be broadcast together")
  end.

(** [X[reference_id]]: a negative index counts from the end. *)
Definition py_index (n : nat) (i : Z) : option nat :=
  if (0 <=? i)%Z && (i <? Z.of_nat n)%Z then Some (Z.to_nat i)
  else if (- Z.of_nat n <=? i)%Z && (i <? 0)%Z then Some (Z.to_nat (Z.of_nat n + i))
  else None.

(** The generator after [n] samples were drawn. *)
Definition advance_rng (n : nat) (s : ILRMA) : ILRMA :=
  set_np_random (advance (np_random s) n) s.

(** Keyword arguments of a call: [_reset] stores each one with [setattr]. *)
Inductive kwarg : Type :=
| kw_n_bases (v : nat)
| kw_partitioning (v : bool)
| kw_normalize (v : pyflag)
| kw_eps (v : R)
| kw_threshold (v : R)
| kw_reference_id (v : Z)
| kw_nu (v : R)
| kw_loss (v : list R).

Definition setattr (s : ILRMA) (kw : kwarg) : ILRMA :=
  match kw with
  | kw_n_bases v => set_n_bases v s
  | kw_partitioning v => set_partitioning v s
  | kw_normalize v => set_normalize v s
  | kw_eps v => set_eps v s
  | kw_threshold v => set_threshold v s
  | kw_reference_id v => set_reference_id v s
  | kw_nu v => set_nu v s
  | kw_loss v => set_loss v s
  end.

Definition is_kw_loss (kw : kwarg) : bool :=
  match kw with
  | kw_loss _ => true
  | _ => false
  end.

(** ** [ILRMAbase] *)

Definition EPS : R := 1e-12.
Definition THRESHOLD : R := 1e12.

Definition empty3 : carr3 := fun _ _ _ => C0.

(** [ILRMAbase.__init__] (lines 13-21); [rng] is the state of the random
    generator when the object is made. *)
Definition ILRMAbase___init__ (rng : nat -> R) (n_bases : nat)
  (partitioning : bool) (normalize : pyflag) (eps : R) : ILRMA :=
  {| eps := eps;
     input := None;
     n_bases := n_bases;
     loss := [];
     partitioning := partitioning;
     normalize := normalize;
     reference_id := 0%Z;
     threshold := THRESHOLD;
     nu := 1;
     n_sources := 0;
     n_channels := 0;
     n_bins := 0;
     n_frames := 0;
     demix_filter := empty3;
     estimation := empty3;
     latent := fun _ _ => 0;
     base := Rank3 (fun _ _ _ => 0);
     activation := Rank3 (fun _ _ _ => 0);
     np_random := rng |}.

(** [ILRMAbase._reset] (lines 23-49). *)
Definition _reset (kwargs : list kwarg) : M unit :=
  s <- get ;;
  match input s with
  | None => raise (AssertionError "Specify data!")
  | Some X =>
    modify (fun s => fold_left setattr kwargs s) ;;
    s <- get ;;
    let n_bases := n_bases s in
    let n_channels := shape0 X in
    let n_bins := shape1 X in
    let n_frames := shape2 X in
    let n_sources := n_channels in
    modify (fun s => set_n_sources n_sources (set_n_channels n_channels s)) ;;
    modify (fun s => set_n_bins n_bins (set_n_frames n_frames s)) ;;
    modify (set_demix_filter tiled_eye) ;;
    modify (set_estimation (separate n_channels (at3 X) tiled_eye)) ;;
    if partitioning s then
      modify (set_latent (fun _ _ => 1 / INR n_sources)) ;;
      modify (fun s =>
        advance_rng (n_bins * n_bases)
          (set_base (Rank2 (rand2 (np_random s) n_bases)) s)) ;;
      modify (fun s =>
        advance_rng (n_bases * n_frames)
          (set_activation (Rank2 (rand2 (np_random s) n_frames)) s))
    else
      modify (fun s =>
        advance_rng (n_sources * n_bins * n_bases)
          (set_base (Rank3 (rand3 (np_random s) n_bins n_bases)) s)) ;;
      modify (fun s =>
        advance_rng (n_sources * n_bases * n_frames)
          (set_activation (Rank3 (rand3 (np_random s) n_bases n_frames)) s))
  end.

(** [ILRMAbase.update_once] and [ILRMAbase.compute_negative_loglikelihood]
    (lines 79-80 and 96-97): the subclasses override them. *)
Definition ILRMAbase_update_once : M unit :=
  raise (NotImplementedError "Implement 'update_once' function").

Definition ILRMAbase_compute_negative_loglikelihood : M R :=
  raise (NotImplementedError "Implement 'compute_negative_loglikelihood' function.").

(** [str(self.normalize)], for the message of the [ValueError]. *)
Definition py_str (v : pyflag) : string :=
  match v with
  | PyFalse => "False"
  | PyTrue => "True"
  | PyStr s => s
  end.

Definition append_loss (l : R) (s : ILRMA) : ILRMA :=
  set_loss (loss s ++ [l]) s.

(** The density of the current model, before the floor. *)
Definition model_psd : M arr3 :=
  s <- get ;;
  if partitioning s then
    T <- get_rank2 (base s) ;;
    V <- get_rank2 (activation s) ;;
    ret (par_psd (n_bases s) (latent s) T V)
  else
    T <- get_rank3 (base s) ;;
    V <- get_rank3 (activation s) ;;
    ret (unc_psd (n_bases s) T V).

Definition msg_projection_back_partitioning : string :=
  "Not support 'projection-back' based normalization for partitioninig function. Choose 'power' based normalization.".

Section Driver.

(** [algorithm.projection_back.projection_back(Y, reference)]: from the
    estimate (sources, bins, frames) and one channel of the mixture
    (bins, frames) to a scale per source and bin. *)
Variable projection_back :
  forall (n_sources n_bins n_frames : nat), carr3 -> carr2 -> result carr2.

(** [self.callback]: it is given the driver to look at. *)
Variable callback : option (ILRMA -> result unit).

Definition run_callback : M unit :=
  match callback with
  | Some f => s <- get ;; lift (f s)
  | None => ret tt
  end.

(** [projection_back(Y, reference=X[reference_id])]. *)
Definition call_projection_back (X : carray3) (Y : carr3) : M carr2 :=
  s <- get ;;
  match py_index (shape0 X) (reference_id s) with
  | Some r =>
    lift (projection_back (n_sources s) (n_bins s) (n_frames s) Y
            (fun f t => at3 X r f t))
  | None => raise (IndexError "index out of bounds for axis 0")
  end.

(** ** [GaussILRMA] *)

(** [GaussILRMA.__init__] (lines 104-115). *)
Definition GaussILRMA___init__ (rng : nat -> R) (n_bases : nat)
  (partitioning : bool) (normalize : pyflag) (reference_id : Z)
  (eps threshold : R) : result ILRMA :=
  Ok (set_threshold threshold
        (set_reference_id reference_id
           (ILRMAbase___init__ rng n_bases partitioning normalize eps))).

(** [GaussILRMA.compute_negative_loglikelihood] (lines 310-330). *)
Definition GaussILRMA_compute_negative_loglikelihood : M R :=
  s <- get ;;
  X <- get_input ;;
  let W := demix_filter s in
  let Y := separate (n_channels s) (at3 X) W in
  let P := power Y in
  R_ <- model_psd ;;
  ret (gauss_loss (n_sources s) (n_bins s) (n_frames s)
         P (floor3 (eps s) R_) W).

(** [GaussILRMA.update_source_model] (lines 197-264). *)
Definition GaussILRMA_update_source_model : M unit :=
  s <- get ;;
  X <- get_input ;;
  let Y := separate (n_channels s) (at3 X) (demix_filter s) in
  let P := power Y in
  if partitioning s then
    T <- get_rank2 (base s) ;;
    V <- get_rank2 (activation s) ;;
    let Z := par_latent (eps s) (n_sources s) (n_bins s) (n_frames s)
               (n_bases s) P (latent s) T V in
    let T := par_base (eps s) (n_sources s) (n_frames s) (n_bases s) P Z T V in
    let V := par_activation (eps s) (n_sources s) (n_bins s) (n_bases s)
               P Z T V in
    modify (set_latent Z) ;;
    modify (set_base (Rank2 T)) ;;
    modify (set_activation (Rank2 V))
  else
    T <- get_rank3 (base s) ;;
    V <- get_rank3 (activation s) ;;
    let T := unc_base (eps s) (n_frames s) (n_bases s) P T V in
    let V := unc_activation (eps s) (n_bins s) (n_bases s) P T V in
    modify (set_base (Rank3 T)) ;;
    modify (set_activation (Rank3 V)).

(** One pass of the loop over sources (lines 293-306): [W] is the filter
    as the earlier passes left it, and the row is written in place. *)
Definition GaussILRMA_update_source_row
  (U : nat -> nat -> nat -> nat -> C) (source_idx : nat) : M unit :=
  s <- get ;;
  let W := demix_filter s in
  let U_n := U source_idx in
  let WU := filter_WU (n_channels s) W U_n in
  w_n <- lift (np_linalg_solve (n_bins s) (n_channels s) WU
                 (fun _ c => eye source_idx c)) ;;
  modify (set_demix_filter
            (set_row source_idx W
               (ip_row (n_channels s) (threshold s) source_idx W U_n w_n))).

(** [GaussILRMA.update_space_model] (lines 266-308). *)
Definition GaussILRMA_update_space_model : M unit :=
  s <- get ;;
  X <- get_input ;;
  R_ <- model_psd ;;
  let U := weighted_covariance (n_frames s) (at3 X) (floor3 (eps s) R_) in
  for_range (n_sources s) (GaussILRMA_update_source_row U).

(** The end of [update_once] (lines 193-195). *)
Definition store_normalized (W Y : carr3) (T : ndarray) : M unit :=
  modify (set_demix_filter W) ;;
  modify (set_estimation Y) ;;
  modify (set_base T).

(** The normalisation of [GaussILRMA.update_once] (lines 156-195). *)
Definition GaussILRMA_normalize : M unit :=
  s <- get ;;
  X <- get_input ;;
  let W := demix_filter s in
  let T := base s in
  let Y := separate (n_channels s) (at3 X) W in
  modify (set_estimation Y) ;;
  if truthy (normalize s) then
    if eq_str (normalize s) "power" then
      let aux := norm_aux (eps s) (n_bins s) (n_frames s) Y in
      let W := scale_filter aux W in
      let Y := scale_estimate aux Y in
      if partitioning s then
        let Z := latent s in
        T <- get_rank2 T ;;
        modify (set_latent (norm_par_latent (n_sources s) aux Z)) ;;
        store_normalized W Y (Rank2 (norm_par_base (n_sources s) aux Z T))
      else
        T <- get_rank3 T ;;
        store_normalized W Y (Rank3 (norm_unc_base aux T))
    else if eq_str (normalize s) "projection-back" then
      if partitioning s then
        raise (NotImplementedError msg_projection_back_partitioning)
      else
        scale <- call_projection_back X Y ;;
        let Y := apply_scale scale Y in
        XX_inverse <- lift (np_linalg_inv (n_bins s) (n_channels s)
                              (gram_XX (n_frames s) (at3 X))) ;;
        let W := refit_filter (n_channels s) (n_frames s) Y (at3 X) XX_inverse in
        store_normalized W Y T
    else
      raise (ValueError
               ("Not support normalization based on " ++ py_str (normalize s)
                ++ ". Choose 'power' or 'projection-back'"))
  else ret tt.

(** [GaussILRMA.update_once] (lines 150-195). *)
Definition GaussILRMA_update_once : M unit :=
  GaussILRMA_update_source_model ;;
  GaussILRMA_update_space_model ;;
  GaussILRMA_normalize.

(** One pass of the loop of [__call__] (lines 131-138). *)
Definition GaussILRMA_iteration (idx : nat) : M unit :=
  GaussILRMA_update_once ;;
  l <- GaussILRMA_compute_negative_loglikelihood ;;
  modify (append_loss l) ;;
  run_callback.

(** The end of [__call__] (lines 140-148). *)
Definition finish_call (X : carray3) : M carr3 :=
  s <- get ;;
  let W := demix_filter s in
  let Y := separate (n_channels s) (at3 X) W in
  scale <- call_projection_back X Y ;;
  let output := apply_scale scale Y in
  modify (set_estimation output) ;;
  ret output.

(** [GaussILRMA.__call__] (lines 117-148). *)
Definition GaussILRMA___call__ (X : carray3) (iteration : Z)
  (kwargs : list kwarg) : M carr3 :=
  modify (set_input (Some X)) ;;
  _reset kwargs ;;
  l <- GaussILRMA_compute_negative_loglikelihood ;;
  modify (append_loss l) ;;
  for_range (Z.to_nat iteration) GaussILRMA_iteration ;;
  finish_call X.

End Driver.

Section Variants.

Variable projection_back :
  forall (n_sources n_bins n_frames : nat), carr3 -> carr2 -> result carr2.
Variable callback : option (ILRMA -> result unit).

(** ** [tILRMA] *)

(** [tILRMA.__init__] (lines 337-349). *)
Definition tILRMA___init__ (rng : nat -> R) (n_bases : nat) (nu : R)
  (partitioning : bool) (normalize : pyflag) (reference_id : Z) (eps : R)
  : result ILRMA :=
  Ok (set_reference_id reference_id
        (set_nu nu
           (ILRMAbase___init__ rng n_bases partitioning normalize eps))).

(** [tILRMA.update_source_model] (lines 420-490): it raises after the
    first three statements; the rest of its body is never reached. *)
Definition tILRMA_update_source_model : M unit :=
  s <- get ;;
  X <- get_input ;;
  let Y := separate (n_channels s) (at3 X) (demix_filter s) in
  let P := power Y in
  raise (NotImplementedError "Implement update_source_model.").

(** One pass of the loop over sources (lines 523-532). *)
Definition tILRMA_update_source_row
  (U : nat -> nat -> nat -> nat -> C) (source_idx : nat) : M unit :=
  s <- get ;;
  let W := demix_filter s in
  let U_n := U source_idx in
  let WU := filter_WU (n_channels s) W U_n in
  WU_inverse <- lift (np_linalg_inv (n_bins s) (n_channels s) WU) ;;
  let w := fun f c => WU_inverse f c source_idx in
  modify (set_demix_filter
            (set_row source_idx W (t_row (eps s) (n_channels s) U_n w))).

(** [tILRMA.update_space_model] (lines 493-534). *)
Definition tILRMA_update_space_model : M unit :=
  s <- get ;;
  X <- get_input ;;
  let Y := separate (n_channels s) (at3 X) (demix_filter s) in
  let P := power Y in
  R_ <- model_psd ;;
  let Xi := t_Xi (nu s) (floor3 (eps s) R_) P in
  let U := weighted_covariance (n_frames s) (at3 X) Xi in
  for_range (n_sources s) (tILRMA_update_source_row U).

(** [tILRMA.update_once] (lines 384-418): the call of
    [update_source_model] is commented out. *)
Definition tILRMA_update_once : M unit :=
  tILRMA_update_space_model ;;
  s <- get ;;
  X <- get_input ;;
  let W := demix_filter s in
  let Y := separate (n_channels s) (at3 X) W in
  modify (set_estimation Y) ;;
  if truthy (normalize s) then
    let aux := norm_aux (eps s) (n_bins s) (n_frames s) Y in
    let W := scale_filter aux W in
    let Y := scale_estimate aux Y in
    (if partitioning s then
       let Z := latent s in
       T <- get_rank2 (base s) ;;
       modify (set_latent (norm_par_latent (n_sources s) aux Z)) ;;
       modify (set_base (Rank2 (norm_par_base (n_sources s) aux Z T)))
     else
       T <- get_rank3 (base s) ;;
       modify (set_base (Rank3 (norm_unc_base aux T)))) ;;
    modify (set_demix_filter W) ;;
    modify (set_estimation Y)
  else ret tt.

(** [tILRMA.compute_negative_loglikelihood] (lines 536-557). *)
Definition tILRMA_compute_negative_loglikelihood : M R :=
  s <- get ;;
  let W := demix_filter s in
  let Y := estimation s in
  let P := power Y in
  R_ <- model_psd ;;
  ret (t_loss (nu s) (n_sources s) (n_bins s) (n_frames s)
         P (floor3 (eps s) R_) W).

Definition tILRMA_iteration (idx : nat) : M unit :=
  tILRMA_update_once ;;
  l <- tILRMA_compute_negative_loglikelihood ;;
  modify (append_loss l) ;;
  run_callback callback.

(** [tILRMA.__call__] (lines 351-382). *)
Definition tILRMA___call__ (X : carray3) (iteration : Z)
  (kwargs : list kwarg) : M carr3 :=
  modify (set_input (Some X)) ;;
  _reset kwargs ;;
  l <- tILRMA_compute_negative_loglikelihood ;;
  modify (append_loss l) ;;
  for_range (Z.to_nat iteration) tILRMA_iteration ;;
  finish_call projection_back X.

(** ** [KLILRMA] and [RegularizedILRMA] *)

(** [KLILRMA.__init__] (lines 563-568) and [RegularizedILRMA.__init__]
    (lines 608-617) end in a [raise]: no object is made. *)
Definition KLILRMA___init__ (rng : nat -> R) (n_bases : nat)
  (partitioning : bool) (normalize : pyflag) (reference_id : Z) (eps : R)
  : result ILRMA :=
  let self :=
    set_reference_id reference_id
      (ILRMAbase___init__ rng n_bases partitioning normalize eps) in
  Err (NotImplementedError "Implement KL-ILRMA").

Definition RegularizedILRMA___init__ (rng : nat -> R) (n_bases : nat)
  (partitioning : bool) (normalize : pyflag) (reference_id : Z) (eps : R)
  : result ILRMA :=
  let self :=
    set_reference_id reference_id
      (ILRMAbase___init__ rng n_bases partitioning normalize eps) in
  Err (NotImplementedError "Implement Regularized ILRMA").

End Variants.

(* ================================================================== *)
(** * The other drivers of the file *)

(** ** [ILRMAbase.__call__] (lines 51-77)

    The loop of the base class: its [update_once] and its
    [compute_negative_loglikelihood] are the ones that raise. *)

Section BaseDriver.

Variable callback : option (ILRMA -> result unit).

Definition ILRMAbase_iteration (idx : nat) : M unit :=
  ILRMAbase_update_once ;;
  l <- ILRMAbase_compute_negative_loglikelihood ;;
  modify (append_loss l) ;;
  run_callback callback.

Definition ILRMAbase___call__ (X : carray3) (iteration : Z)
  (kwargs : list kwarg) : M carr3 :=
  modify (set_input (Some X)) ;;
  _reset kwargs ;;
  l <- ILRMAbase_compute_negative_loglikelihood ;;
  modify (append_loss l) ;;
  for_range (Z.to_nat iteration) ILRMAbase_iteration ;;
  s <- get ;;
  ret (separate (n_channels s) (at3 X) (demix_filter s)).

End BaseDriver.

(** ** [ConsistentGaussILRMA] (lines 619-694) *)

(** The object: the attributes of [GaussILRMA] and the two sizes of the
    transform, which no method assigns after the constructor. *)
Record ConsistentGaussILRMA : Type := mkConsistentGaussILRMA {
  gauss : ILRMA;
  fft_size : Z;
  hop_size : Z
}.

(** [ConsistentGaussILRMA.__init__] (lines 624-638): [normalize=False] is
    handed to the constructor of [GaussILRMA]; [fft_size=None] raises after
    it; [hop_size=None] becomes [fft_size // 2]. *)
Definition ConsistentGaussILRMA___init__ (rng : nat -> R) (n_bases : nat)
  (partitioning : bool) (reference_id : Z) (fft_size hop_size : option Z)
  (eps threshold : R) : result ConsistentGaussILRMA :=
  match GaussILRMA___init__ rng n_bases partitioning PyFalse reference_id
          eps threshold with
  | Err e => Err e
  | Ok self =>
    match fft_size with
    | None => Err (ValueError "Specify `fft_size`.")
    | Some fft_size =>
      let hop_size :=
        match hop_size with
        | None => (fft_size / 2)%Z
        | Some hop_size => hop_size
        end in
      Ok (mkConsistentGaussILRMA self fft_size hop_size)
    end
  end.

(** [W = W * transposed_scale[...,None]]: row [s] of the filter of bin [f]
    times [scale[s, f]]. *)
Definition scale_rows (scale : carr2) (W : carr3) : carr3 :=
  fun f s c => (W f s c * scale s f)%C.

(** [T = T * np.abs(scale[...,None])**2]; a [base] of rank 2 is broadcast
    over the sources. *)
Definition scale_base (scale : carr2) (T : ndarray) : arr3 :=
  match T with
  | Rank3 T => fun s f k => T s f k * Cabs (scale s f) ^ 2
  | Rank2 T => fun s f k => T f k * Cabs (scale s f) ^ 2
  end.

Section Consistent.

(** [algorithm.stft.istft] and [algorithm.stft.stft] are in another module
    of the repository: parameters, with the time-domain signals they
    exchange.  [istft] is given the estimate with its shape. *)
Variable signal : Type.
Variable istft :
  forall (n_sources n_bins n_frames : nat) (fft_size hop_size : Z),
    carr3 -> result signal.
Variable stft : forall (fft_size hop_size : Z), signal -> result carr3.

Variable projection_back :
  forall (n_sources n_bins n_frames : nat), carr3 -> carr2 -> result carr2.
Variable callback : option (ILRMA -> result unit).

(** The first two statements of [update_once] (lines 674-675). *)
Definition consistency_projection (fft_size hop_size : Z) : M unit :=
  s <- get ;;
  y <- lift (istft (n_sources s) (n_bins s) (n_frames s) fft_size hop_size
               (estimation s)) ;;
  Y <- lift (stft fft_size hop_size y) ;;
  modify (set_estimation Y).

(** The rest of [update_once] after the two updates (lines 680-694). *)
Definition ConsistentGaussILRMA_rescale : M unit :=
  s <- get ;;
  X <- get_input ;;
  let W := demix_filter s in
  let T := base s in
  let Y := separate (n_channels s) (at3 X) W in
  if partitioning s then
    raise (NotImplementedError msg_projection_back_partitioning)
  else
    scale <- call_projection_back projection_back X Y ;;
    let W := scale_rows scale W in
    let Y := separate (n_channels s) (at3 X) W in
    let T := scale_base scale T in
    modify (set_demix_filter W) ;;
    modify (set_estimation Y) ;;
    modify (set_base (Rank3 T)).

(** [ConsistentGaussILRMA.update_once] (lines 673-694). *)
Definition ConsistentGaussILRMA_update_once (fft_size hop_size : Z) : M unit :=
  consistency_projection fft_size hop_size ;;
  GaussILRMA_update_source_model ;;
  GaussILRMA_update_space_model ;;
  ConsistentGaussILRMA_rescale.

Definition ConsistentGaussILRMA_iteration (fft_size hop_size : Z) (idx : nat)
  : M unit :=
  ConsistentGaussILRMA_update_once fft_size hop_size ;;
  l <- GaussILRMA_compute_negative_loglikelihood ;;
  modify (append_loss l) ;;
  run_callback callback.

(** [ConsistentGaussILRMA.__call__] (lines 640-671). *)
Definition ConsistentGaussILRMA___call__ (fft_size hop_size : Z)
  (X : carray3) (iteration : Z) (kwargs : list kwarg) : M carr3 :=
  modify (set_input (Some X)) ;;
  _reset kwargs ;;
  l <- GaussILRMA_compute_negative_loglikelihood ;;
  modify (append_loss l) ;;
  for_range (Z.to_nat iteration)
    (ConsistentGaussILRMA_iteration fft_size hop_size) ;;
  finish_call projection_back X.

End Consistent.

(* ================================================================== *)
(** * Vocabulary of the statements *)

(** [keeps f m]: the method [m] leaves the attribute [f] as it was, also
    when it raises. *)
Definition keeps {A X : Type} (f : ILRMA -> X) (m : M A) : Prop :=
  forall s s' r, m s = (s', r) -> f s' = f s.

(** [raises_only E m]: every exception [m] raises satisfies [E]. *)
Definition raises_only {A : Type} (E : exn -> Prop) (m : M A) : Prop :=
  forall s s' e, m s = (s', Err e) -> E e.

(** An exception other than [NotImplementedError]. *)
Definition implemented (e : exn) : Prop :=
  forall msg, e <> NotImplementedError msg.

(** An attribute that no assignment to the model, the filter or the
    estimate changes: the configuration, the input, the trajectory. *)
Definition model_independent {X : Type} (f : ILRMA -> X) : Prop :=
  (forall v s, f (set_latent v s) = f s) /\
  (forall v s, f (set_base v s) = f s) /\
  (forall v s, f (set_activation v s) = f s) /\
  (forall v s, f (set_demix_filter v s) = f s) /\
  (forall v s, f (set_estimation v s) = f s).

(** No keyword argument of the call assigns [loss]. *)
Definition no_loss_kwarg (kwargs : list kwarg) : bool :=
  forallb (fun kw => negb (is_kw_loss kw)) kwargs.

(** Calls made one after the other on the same driver. *)
Fixpoint successive_calls
  (projection_back : nat -> nat -> nat -> carr3 -> carr2 -> result carr2)
  (callback : option (ILRMA -> result unit))
  (runs : list (carray3 * Z * list kwarg)) : M (list carr3) :=
  match runs with
  | [] => ret []
  | (X, iteration, kwargs) :: runs' =>
    out <- GaussILRMA___call__ projection_back callback X iteration kwargs ;;
    outs <- successive_calls projection_back callback runs' ;;
    ret (out :: outs)
  end.

(** A run is the mixture, the number of iterations and the keyword
    arguments of one call. *)
Definition run_has_no_loss_kwarg (run : carray3 * Z * list kwarg) : bool :=
  no_loss_kwarg (snd run).

(** The entries one run adds to the trajectory: the baseline and one per
    iteration. *)
Definition entries_of_run (run : carray3 * Z * list kwarg) : nat :=
  (Z.to_nat (snd (fst run)) + 1)%nat.

(** The mean power of a source, [P.mean(axis=(1,2))]. *)
Definition mean_power (n_bins n_frames : nat) (Y : carr3) (src : nat) : R :=
  sum_n n_bins (fun f => sum_n n_frames (fun t => power Y src f t))
  / INR (n_bins * n_frames).

(** The invariant of the partitioned model: the columns of [latent] sum
    to 1 over the sources, and [latent], [base] and [activation] have no
    negative entry. *)
Definition partition_invariant (s : ILRMA) : Prop :=
  (forall k, (k < n_bases s)%nat ->
     sum_n (n_sources s) (fun src => latent s src k) = 1) /\
  (forall src k, (src < n_sources s)%nat -> (k < n_bases s)%nat ->
     0 <= latent s src k) /\
  exists T V,
    base s = Rank2 T /\ activation s = Rank2 V /\
    (forall f k, (f < n_bins s)%nat -> (k < n_bases s)%nat -> 0 <= T f k) /\
    (forall k t, (k < n_bases s)%nat -> (t < n_frames s)%nat -> 0 <= V k t).

(** The solution the pass computes for every bin. *)
Definition ip_solution (s : ILRMA) (U_n : nat -> nat -> nat -> C)
  (source_idx : nat) : nat -> vec :=
  fun f =>
    solve_vec (n_channels s)
      (filter_WU (n_channels s) (demix_filter s) U_n f)
      (fun c => eye source_idx c).

(** The driver as [_reset] leaves it, without keyword arguments and with
    [partitioning] false; [reset_unconstrained_step] below derives it from
    [_reset]. *)
Definition reset_unconstrained (X : carray3) (s : ILRMA) : ILRMA :=
  let s1 := set_input (Some X) s in
  let s2 := set_n_sources (shape0 X) (set_n_channels (shape0 X) s1) in
  let s3 := set_n_bins (shape1 X) (set_n_frames (shape2 X) s2) in
  let s4 := set_demix_filter tiled_eye s3 in
  let s5 := set_estimation (separate (shape0 X) (at3 X) tiled_eye) s4 in
  let s6 :=
    advance_rng (shape0 X * shape1 X * n_bases s)
      (set_base (Rank3 (rand3 (np_random s5) (shape1 X) (n_bases s))) s5) in
  advance_rng (shape0 X * n_bases s * shape2 X)
    (set_activation (Rank3 (rand3 (np_random s6) (n_bases s) (shape2 X))) s6).

(** A Gaussian driver with the default [eps], [threshold], normalisation
    and reference, one basis, the unconstrained model, and a generator
    whose samples are all 1/4. *)
Definition low_power_ready (s : ILRMA) : Prop :=
  eps s = EPS /\ threshold s = THRESHOLD /\ normalize s = PyStr "power" /\
  partitioning s = false /\ n_bases s = 1%nat /\ reference_id s = 0%Z /\
  forall i, np_random s i = 1 / 4.

(** The trajectory does not go up, within the relative tolerance [rtol]:
    every entry is at most the one before it plus [rtol] times its
    magnitude. *)
Fixpoint non_increasing_within (rtol : R) (l : list R) : Prop :=
  match l with
  | a :: ((b :: _) as tl) =>
    b <= a + rtol * Rabs a /\ non_increasing_within rtol tl
  | _ => True
  end.

(** The driver as [_reset] leaves it, without keyword arguments and with
    [partitioning] true; [reset_partitioned_step] below derives it from
    [_reset]. *)
Definition reset_partitioned (X : carray3) (s : ILRMA) : ILRMA :=
  let s1 := set_input (Some X) s in
  let s2 := set_n_sources (shape0 X) (set_n_channels (shape0 X) s1) in
  let s3 := set_n_bins (shape1 X) (set_n_frames (shape2 X) s2) in
  let s4 := set_demix_filter tiled_eye s3 in
  let s5 := set_estimation (separate (shape0 X) (at3 X) tiled_eye) s4 in
  let s6 := set_latent (fun _ _ => 1 / INR (shape0 X)) s5 in
  let s7 :=
    advance_rng (shape1 X * n_bases s)
      (set_base (Rank2 (rand2 (np_random s6) (n_bases s))) s6) in
  advance_rng (n_bases s * shape2 X)
    (set_activation (Rank2 (rand2 (np_random s7) (shape2 X))) s7).

(** The start of [GaussILRMA.__call__], up to its loop (lines 117-129):
    the mixture is stored, [_reset] is run and the baseline is recorded. *)
Definition GaussILRMA_call_start (X : carray3) (kwargs : list kwarg) : M unit :=
  modify (set_input (Some X)) ;;
  _reset kwargs ;;
  l <- GaussILRMA_compute_negative_loglikelihood ;;
  modify (append_loss l).

(** The driver as [_reset] leaves it when the input is [X], after it has
    stored the keyword arguments; [reset_step] below derives it from
    [_reset]. *)
Definition after_reset (X : carray3) (kwargs : list kwarg) (s : ILRMA) : ILRMA :=
  let s0 := fold_left setattr kwargs s in
  if partitioning s0 then reset_partitioned X s0 else reset_unconstrained X s0.

(** [prod_n n f] is [f 0 * ... * f (n-1)]. *)
Fixpoint prod_n (n : nat) (f : nat -> R) : R :=
  match n with
  | O => 1
  | S k => prod_n k f * f k
  end.

(** A method that neither reads nor assigns [estimation]: run on a driver
    whose estimate was replaced, it does what it does on the driver
    itself and leaves the replaced estimate. *)
Definition estimation_blind {A : Type} (m : M A) : Prop :=
  forall (E : carr3) (s : ILRMA),
    m (set_estimation E s) = (set_estimation E (fst (m s)), snd (m s)).

(** [base] and [activation] have the rank the model asks for. *)
Definition model_ready (s : ILRMA) : Prop :=
  if partitioning s
  then exists T V, base s = Rank2 T /\ activation s = Rank2 V
  else exists T V, base s = Rank3 T /\ activation s = Rank3 V.

(** The product of complex numbers [f 0 * ... * f (n-1)]. *)
Fixpoint Cprod (n : nat) (f : nat -> C) : C :=
  match n with
  | O => C1
  | S k => (Cprod k f * f k)%C
  end.

(* ================================================================== *)
(** * Drivers and mixtures of the examples *)

(** A mixture of two channels, one bin and one frame. *)
Definition mixture_2_1_1 : carray3 :=
  mkCarray3 2 1 1 (fun c _ _ => if Nat.eqb c 0 then (3, 4) else (-1, 2)).

(** A generator whose samples are all 1/4, for the examples. *)
Definition rng_quarter : nat -> R := fun _ => 1 / 4.

(** A silent mixture: one channel, one bin, one frame, the value zero. *)
Definition silent_mixture : carray3 := mkCarray3 1 1 1 (fun _ _ _ => C0).

(** The partitioned driver with one basis, as [_reset] leaves it at the
    start of a call on the silent mixture. *)
Definition silent_start : ILRMA :=
  match GaussILRMA___init__ rng_quarter 1 true (PyStr "power") 0 EPS THRESHOLD with
  | Ok self =>
    fst (bind (modify (set_input (Some silent_mixture))) (fun _ => _reset []) self)
  | Err _ => ILRMAbase___init__ rng_quarter 1 true (PyStr "power") EPS
  end.

(** One channel, one bin, one frame; the value 4e-10. *)
Definition low_power_mixture : carray3 :=
  mkCarray3 1 1 1 (fun _ _ _ => RtoC 4e-10).

(** A [projection_back] that returns the scale 1 for every source and bin. *)
Definition unit_projection_back (n_sources n_bins n_frames : nat)
  (Y : carr3) (reference : carr2) : result carr2 :=
  Ok (fun _ _ => C1).

(** The Gaussian driver with one basis and the defaults for the rest, as
    its constructor returns it. *)
Definition low_power_driver : ILRMA :=
  set_threshold THRESHOLD
    (set_reference_id 0
       (ILRMAbase___init__ rng_quarter 1 false (PyStr "power") EPS)).

(** One channel, one bin, one frame; the value 1/2. *)
Definition half_mixture : carray3 := mkCarray3 1 1 1 (fun _ _ _ => RtoC (1 / 2)).

(** The Gaussian driver made with [threshold=1], as [_reset] leaves it at
    the start of a call on [half_mixture]. *)
Definition boundary_start : ILRMA :=
  reset_unconstrained half_mixture
    (set_threshold 1
       (set_reference_id 0
          (ILRMAbase___init__ rng_quarter 1 false (PyStr "power") EPS))).

(** The weighted covariance of that call and the matrix [W @ U] of its
    only bin. *)
Definition boundary_U : nat -> nat -> nat -> nat -> C :=
  weighted_covariance 1 (at3 half_mixture)
    (floor3 EPS (unc_psd 1 (rand3 rng_quarter 1 1)
                   (rand3 (advance rng_quarter (1 * 1 * 1)) 1 1))).

Definition boundary_M : mat := filter_WU 1 tiled_eye (boundary_U O) O.

(** The default Gaussian driver at the start of a call on the silent
    mixture, and the matrix [W @ U] of its only bin. *)
Definition silent_unconstrained_start : ILRMA :=
  reset_unconstrained silent_mixture low_power_driver.

Definition silent_M : mat :=
  filter_WU 1 tiled_eye
    (weighted_covariance 1 (at3 silent_mixture)
       (floor3 EPS (unc_psd 1 (rand3 rng_quarter 1 1)
                      (rand3 (advance rng_quarter (1 * 1 * 1)) 1 1))) O) O.

(** One channel, one bin, one frame; the value 1. *)
Definition unit_mixture : carray3 := mkCarray3 1 1 1 (fun _ _ _ => C1).

(** The default Gaussian driver at the start of a call on [unit_mixture]. *)
Definition unit_start : ILRMA := reset_unconstrained unit_mixture low_power_driver.

(** The partitioned Gaussian driver with one basis and the defaults for
    the rest, as its constructor returns it. *)
Definition partitioned_driver : ILRMA :=
  set_threshold THRESHOLD
    (set_reference_id 0
       (ILRMAbase___init__ rng_quarter 1 true (PyStr "power") EPS)).

(** The same driver at the start of a call on [unit_mixture]. *)
Definition partitioned_start : ILRMA :=
  reset_partitioned unit_mixture partitioned_driver.

(** The driver of Scenario C, with the defaults for the other arguments. *)
Definition scenario_C_driver : ILRMA :=
  set_threshold THRESHOLD
    (set_reference_id 0
       (ILRMAbase___init__ rng_quarter 10 true (PyStr "projection-back") EPS)).

(** The heavy-tailed driver with its default arguments. *)
Definition heavy_tailed_driver : ILRMA :=
  set_reference_id 0
    (set_nu 1 (ILRMAbase___init__ rng_quarter 10 false (PyStr "power") EPS)).

(** One channel, one bin, one frame; the value 4e48. *)
Definition high_power_mixture : carray3 :=
  mkCarray3 1 1 1 (fun _ _ _ => RtoC 4e48).

(** The heavy-tailed driver made with [normalize='projection-back'], at the
    start of a call on [unit_mixture]. *)
Definition heavy_tailed_start : ILRMA :=
  reset_unconstrained unit_mixture
    (set_normalize (PyStr "projection-back") heavy_tailed_driver).

(** The consistent driver with one basis, [fft_size=2048] and the defaults
    for the rest, as its constructor returns it. *)
Definition consistent_driver : ConsistentGaussILRMA :=
  mkConsistentGaussILRMA
    (set_threshold THRESHOLD
       (set_reference_id 0
          (ILRMAbase___init__ rng_quarter 1 false PyFalse EPS)))
    2048 1024.

(* ================================================================== *)
(** * Properties *)

(** ** Arithmetic of the complex numbers *)

Lemma C_eq (z w : C) : Re z = Re w -> Im z = Im w -> z = w.
Proof. destruct z, w; simpl; intros; subst; reflexivity. Qed.

Ltac c_ring :=
  apply C_eq; unfold Cadd, Cmul, Cconj, RtoC, C0, C1, Re, Im; simpl; ring.

Lemma Cadd_0_l (z : C) : (C0 + z)%C = z.
Proof. c_ring. Qed.

Lemma Cadd_0_r (z : C) : (z + C0)%C = z.
Proof. c_ring. Qed.

Lemma Cmul_1_l (z : C) : (C1 * z)%C = z.
Proof. c_ring. Qed.

Lemma Cmul_0_l (z : C) : (C0 * z)%C = C0.
Proof. c_ring. Qed.

Lemma Cmul_0_r (z : C) : (z * C0)%C = C0.
Proof. c_ring. Qed.

Lemma Cmul_1_r (z : C) : (z * C1)%C = z.
Proof. c_ring. Qed.

Lemma Cabs_nonneg (z : C) : 0 <= Cabs z.
Proof. apply sqrt_pos. Qed.

Lemma Cabs_sqr (z : C) : Cabs z ^ 2 = Re z * Re z + Im z * Im z.
Proof.
  unfold Cabs. simpl. rewrite Rmult_1_r. apply sqrt_sqrt. nra.
Qed.

Lemma Cabs_RtoC (x : R) : 0 <= x -> Cabs (RtoC x) = x.
Proof.
  intros Hx. unfold Cabs, RtoC, Re, Im; simpl.
  replace (x * x + 0 * 0) with (Rsqr x) by (unfold Rsqr; ring).
  now apply sqrt_Rsqr.
Qed.

(** Dividing a complex number by a real one divides both parts. *)
Lemma Cdiv_real (z : C) (a : R) :
  a <> 0 -> (z / RtoC a)%C = (Re z / a, Im z / a).
Proof.
  intros Ha. apply C_eq; unfold Cdiv, RtoC, Re, Im; simpl; field; assumption.
Qed.

Lemma power_div_real (z : C) (a : R) :
  a <> 0 -> Cabs (z / RtoC a) ^ 2 = Cabs z ^ 2 / a ^ 2.
Proof.
  intros Ha. rewrite Cdiv_real by assumption. rewrite !Cabs_sqr.
  unfold Re, Im; simpl. field. assumption.
Qed.

(** ** Finite sums *)

Lemma sum_n_ext (n : nat) (f g : nat -> R) :
  (forall i, (i < n)%nat -> f i = g i) -> sum_n n f = sum_n n g.
Proof.
  induction n as [| n IH]; intros H; simpl; [reflexivity |].
  rewrite IH by (intros; apply H; lia). rewrite H by lia. reflexivity.
Qed.

Lemma sum_n_nonneg (n : nat) (f : nat -> R) :
  (forall i, (i < n)%nat -> 0 <= f i) -> 0 <= sum_n n f.
Proof.
  induction n as [| n IH]; intros H; simpl; [lra |].
  assert (0 <= sum_n n f) by (apply IH; intros; apply H; lia).
  assert (0 <= f n) by (apply H; lia). lra.
Qed.

Lemma sum_n_scal_r (n : nat) (f : nat -> R) (c : R) :
  sum_n n (fun i => f i * c) = sum_n n f * c.
Proof. induction n as [| n IH]; simpl; [ring | rewrite IH; ring]. Qed.

Lemma sum_n_div (n : nat) (f : nat -> R) (c : R) :
  sum_n n (fun i => f i / c) = sum_n n f / c.
Proof. unfold Rdiv. apply sum_n_scal_r. Qed.

Lemma sum_n_zero (n : nat) (f : nat -> R) :
  (forall i, (i < n)%nat -> f i = 0) -> sum_n n f = 0.
Proof.
  induction n as [| n IH]; intros H; simpl; [reflexivity |].
  rewrite IH by (intros; apply H; lia). rewrite H by lia. ring.
Qed.

(** A sum of nonnegative terms with a positive one is positive. *)
Lemma sum_n_pos (n : nat) (f : nat -> R) (j : nat) :
  (forall i, (i < n)%nat -> 0 <= f i) -> (j < n)%nat -> 0 < f j ->
  0 < sum_n n f.
Proof.
  induction n as [| n IH]; intros H Hj Hp; [lia |]. simpl.
  assert (0 <= f n) by (apply H; lia).
  assert (0 <= sum_n n f) by (apply sum_n_nonneg; intros; apply H; lia).
  destruct (Nat.eq_dec j n) as [-> | Hne]; [lra |].
  assert (0 < sum_n n f) by (apply IH; [intros; apply H; lia | lia | assumption]).
  lra.
Qed.

(** A nonnegative sum that is not zero has a positive term. *)
Lemma sum_n_nonzero_term (n : nat) (f : nat -> R) :
  (forall i, (i < n)%nat -> 0 <= f i) -> sum_n n f <> 0 ->
  exists j, (j < n)%nat /\ 0 < f j.
Proof.
  induction n as [| n IH]; intros H Hs; simpl in Hs; [lra |].
  assert (Hn : 0 <= f n) by (apply H; lia).
  destruct (Req_dec (f n) 0) as [E | E].
  - destruct IH as [j [Hj Hp]]; [intros; apply H; lia | lra |].
    exists j; split; [lia | assumption].
  - exists n; split; [lia | lra].
Qed.

Lemma Csum_ext (n : nat) (f g : nat -> C) :
  (forall i, (i < n)%nat -> f i = g i) -> Csum n f = Csum n g.
Proof.
  induction n as [| n IH]; intros H; simpl; [reflexivity |].
  rewrite IH by (intros; apply H; lia). rewrite H by lia. reflexivity.
Qed.

(** Row [s] of the identity picks entry [s]. *)
Lemma Csum_eye_row (n s : nat) (g : nat -> C) :
  Csum n (fun c => (eye s c * g c)%C) = if Nat.ltb s n then g s else C0.
Proof.
  induction n as [| n IH]; simpl; [reflexivity |].
  rewrite IH. unfold eye.
  destruct (Nat.eqb_spec s n) as [-> | Hne].
  - rewrite Nat.ltb_irrefl.
    replace (n <? S n)%nat with true by (symmetry; apply Nat.ltb_lt; lia).
    rewrite Cmul_1_l. apply Cadd_0_l.
  - rewrite Cmul_0_l, Cadd_0_r.
    destruct (Nat.ltb_spec s n), (Nat.ltb_spec s (S n)); try reflexivity; lia.
Qed.

(** ** The floor *)

Lemma floor_at_ge (eps a : R) : eps <= floor_at eps a.
Proof. unfold floor_at. destruct (Rlt_dec a eps); lra. Qed.

Lemma floor_at_id (eps a : R) : eps <= a -> floor_at eps a = a.
Proof. unfold floor_at. intros H. destruct (Rlt_dec a eps); lra. Qed.

Lemma floor_at_low (eps a : R) : a < eps -> floor_at eps a = eps.
Proof. unfold floor_at. intros H. destruct (Rlt_dec a eps); lra. Qed.

Lemma floor_at_ge_arg (eps a : R) : a <= floor_at eps a.
Proof. unfold floor_at. destruct (Rlt_dec a eps); lra. Qed.

(* ------------------------------------------------------------------ *)
(** ** C8: the identity filter *)

(** C8.  With the identity matrix as the filter of every bin, [separate]
    returns the mixture: entry [(s, f, t)] of the output is entry
    [(s, f, t)] of the input, for every channel [s] of the mixture. *)
Theorem separate_identity (X : carray3) (s f t : nat) :
  (s < shape0 X)%nat ->
  separate (shape0 X) (at3 X) tiled_eye s f t = at3 X s f t.
Proof.
  intros Hs. unfold separate, tiled_eye.
  rewrite (Csum_eye_row (shape0 X) s (fun c => at3 X c f t)).
  apply Nat.ltb_lt in Hs. rewrite Hs. reflexivity.
Qed.

Lemma separate_identity_witness :
  (1 < shape0 mixture_2_1_1)%nat /\
  separate (shape0 mixture_2_1_1) (at3 mixture_2_1_1) tiled_eye 1%nat 0%nat 0%nat
  = (-1, 2).
Proof.
  split; [simpl; lia |].
  apply (@separate_identity mixture_2_1_1 1%nat 0%nat 0%nat). simpl; lia.
Defined.

(* ------------------------------------------------------------------ *)
(** ** Reasoning about methods *)

Lemma bind_inv {A B : Type} (m : M A) (k : A -> M B) (s s' : ILRMA)
  (r : result B) :
  bind m k s = (s', r) ->
  (exists s1 a, m s = (s1, Ok a) /\ k a s1 = (s', r)) \/
  (exists e, m s = (s', Err e) /\ r = Err e).
Proof.
  unfold bind. destruct (m s) as [s1 [a | e]]; intros H.
  - left. exists s1, a. split; [reflexivity | assumption].
  - right. exists e. inversion H; subst. split; reflexivity.
Qed.

Lemma bind_ok {A B : Type} (m : M A) (k : A -> M B) (s s1 : ILRMA) (a : A) :
  m s = (s1, Ok a) -> bind m k s = k a s1.
Proof. unfold bind. intros ->. reflexivity. Qed.

Lemma bind_err {A B : Type} (m : M A) (k : A -> M B) (s s1 : ILRMA) (e : exn) :
  m s = (s1, Err e) -> bind m k s = (s1, Err e).
Proof. unfold bind. intros ->. reflexivity. Qed.

Section Keeps.

Context {X : Type} (f : ILRMA -> X).

Lemma keeps_ret {A : Type} (a : A) : keeps f (ret a).
Proof. intros s s' r H. inversion H. reflexivity. Qed.

Lemma keeps_raise {A : Type} (e : exn) : keeps f (@raise A e).
Proof. intros s s' r H. inversion H. reflexivity. Qed.

Lemma keeps_lift {A : Type} (x : result A) : keeps f (lift x).
Proof. intros s s' r H. inversion H. reflexivity. Qed.

Lemma keeps_get : keeps f get.
Proof. intros s s' r H. inversion H. reflexivity. Qed.

Lemma keeps_modify (g : ILRMA -> ILRMA) :
  (forall s, f (g s) = f s) -> keeps f (modify g).
Proof. intros Hg s s' r H. inversion H. apply Hg. Qed.

Lemma keeps_bind {A B : Type} (m : M A) (k : A -> M B) :
  keeps f m -> (forall a, keeps f (k a)) -> keeps f (bind m k).
Proof.
  intros Hm Hk s s' r H. apply bind_inv in H.
  destruct H as [[s1 [a [H1 H2]]] | [e [H1 _]]].
  - rewrite (Hk a _ _ _ H2). apply (Hm _ _ _ H1).
  - apply (Hm _ _ _ H1).
Qed.

Lemma keeps_for_from (body : nat -> M unit) (n i : nat) :
  (forall j, keeps f (body j)) -> keeps f (for_from i n body).
Proof.
  intros Hb. revert i. induction n as [| n IH]; intros i; simpl.
  - apply keeps_ret.
  - apply keeps_bind; [apply Hb | intros _; apply IH].
Qed.

Lemma keeps_if {A : Type} (b : bool) (m1 m2 : M A) :
  keeps f m1 -> keeps f m2 -> keeps f (if b then m1 else m2).
Proof. destruct b; intros; assumption. Qed.

Lemma keeps_get_input : keeps f get_input.
Proof.
  unfold get_input. apply keeps_bind; [apply keeps_get |].
  intros s. destruct (input s); [apply keeps_ret | apply keeps_raise].
Qed.

Lemma keeps_get_rank2 (a : ndarray) : keeps f (get_rank2 a).
Proof. destruct a; [apply keeps_ret | apply keeps_raise]. Qed.

Lemma keeps_get_rank3 (a : ndarray) : keeps f (get_rank3 a).
Proof. destruct a; [apply keeps_raise | apply keeps_ret]. Qed.

Lemma keeps_model_psd : keeps f model_psd.
Proof.
  unfold model_psd. apply keeps_bind; [apply keeps_get |]. intros s.
  apply keeps_if;
    (apply keeps_bind; [first [apply keeps_get_rank2 | apply keeps_get_rank3] |];
     intros T;
     apply keeps_bind; [first [apply keeps_get_rank2 | apply keeps_get_rank3] |];
     intros V; apply keeps_ret).
Qed.

End Keeps.

Section RaisesOnly.

Context (E : exn -> Prop).

Lemma raises_only_ret {A : Type} (a : A) : raises_only E (ret a).
Proof. intros s s' e H. inversion H. Qed.

Lemma raises_only_get : raises_only E get.
Proof. intros s s' e H. inversion H. Qed.

Lemma raises_only_modify (g : ILRMA -> ILRMA) : raises_only E (modify g).
Proof. intros s s' e H. inversion H. Qed.

Lemma raises_only_raise {A : Type} (e : exn) : E e -> raises_only E (@raise A e).
Proof. intros He s s' e' H. inversion H; subst. assumption. Qed.

Lemma raises_only_lift {A : Type} (x : result A) :
  (forall e, x = Err e -> E e) -> raises_only E (lift x).
Proof. intros Hx s s' e H. inversion H; subst. apply Hx. reflexivity. Qed.

Lemma raises_only_bind {A B : Type} (m : M A) (k : A -> M B) :
  raises_only E m -> (forall a, raises_only E (k a)) ->
  raises_only E (bind m k).
Proof.
  intros Hm Hk s s' e H. apply bind_inv in H.
  destruct H as [[s1 [a [H1 H2]]] | [e' [H1 H2]]].
  - apply (Hk a _ _ _ H2).
  - inversion H2; subst. apply (Hm _ _ _ H1).
Qed.

Lemma raises_only_for_from (body : nat -> M unit) (n i : nat) :
  (forall j, raises_only E (body j)) -> raises_only E (for_from i n body).
Proof.
  intros Hb. revert i. induction n as [| n IH]; intros i; simpl.
  - apply raises_only_ret.
  - apply raises_only_bind; [apply Hb | intros _; apply IH].
Qed.

Lemma raises_only_if {A : Type} (b : bool) (m1 m2 : M A) :
  raises_only E m1 -> raises_only E m2 -> raises_only E (if b then m1 else m2).
Proof. destruct b; intros; assumption. Qed.

End RaisesOnly.

Lemma raises_only_get_input (E : exn -> Prop) :
  (forall msg, E (TypeError msg)) -> raises_only E get_input.
Proof.
  intros HE. unfold get_input. apply raises_only_bind; [apply raises_only_get |].
  intros s. destruct (input s); [apply raises_only_ret | apply raises_only_raise, HE].
Qed.

Lemma raises_only_get_rank2 (E : exn -> Prop) (a : ndarray) :
  (forall msg, E (ValueError msg)) -> raises_only E (get_rank2 a).
Proof.
  intros HE. destruct a; [apply raises_only_ret | apply raises_only_raise, HE].
Qed.

Lemma raises_only_get_rank3 (E : exn -> Prop) (a : ndarray) :
  (forall msg, E (ValueError msg)) -> raises_only E (get_rank3 a).
Proof.
  intros HE. destruct a; [apply raises_only_raise, HE | apply raises_only_ret].
Qed.

Lemma raises_only_model_psd (E : exn -> Prop) :
  (forall msg, E (ValueError msg)) -> raises_only E model_psd.
Proof.
  intros HE. unfold model_psd.
  apply raises_only_bind; [apply raises_only_get |]. intros s.
  apply raises_only_if;
    (apply raises_only_bind;
       [first [now apply raises_only_get_rank2 | now apply raises_only_get_rank3] |];
     intros T;
     apply raises_only_bind;
       [first [now apply raises_only_get_rank2 | now apply raises_only_get_rank3] |];
     intros V; apply raises_only_ret).
Qed.

Lemma np_linalg_inv_raises (n_bins n : nat) (A : nat -> mat) (e : exn) :
  np_linalg_inv n_bins n A = Err e -> e = LinAlgError "Singular matrix".
Proof.
  unfold np_linalg_inv.
  destruct (excluded_middle_informative _); intros H; inversion H; reflexivity.
Qed.

Lemma np_linalg_solve_raises (n_bins n : nat) (A : nat -> mat) (b : nat -> vec)
  (e : exn) :
  np_linalg_solve n_bins n A b = Err e -> e = LinAlgError "Singular matrix".
Proof.
  unfold np_linalg_solve.
  destruct (excluded_middle_informative _); intros H; inversion H; reflexivity.
Qed.

Lemma tILRMA_update_space_model_implemented :
  raises_only implemented tILRMA_update_space_model.
Proof.
  assert (HT : forall msg, implemented (TypeError msg)) by (intros m m'; discriminate).
  assert (HV : forall msg, implemented (ValueError msg)) by (intros m m'; discriminate).
  unfold tILRMA_update_space_model.
  apply raises_only_bind; [apply raises_only_get | intros s].
  apply raises_only_bind; [now apply raises_only_get_input | intros X].
  apply raises_only_bind; [now apply raises_only_model_psd | intros R_].
  apply raises_only_for_from. intros j. unfold tILRMA_update_source_row.
  apply raises_only_bind; [apply raises_only_get | intros s1].
  apply raises_only_bind; [| intros; apply raises_only_modify].
  apply raises_only_lift. intros e He.
  apply np_linalg_inv_raises in He. subst. intros m; discriminate.
Qed.

Lemma tILRMA_update_once_implemented :
  raises_only implemented tILRMA_update_once.
Proof.
  assert (HT : forall msg, implemented (TypeError msg)) by (intros m m'; discriminate).
  assert (HV : forall msg, implemented (ValueError msg)) by (intros m m'; discriminate).
  unfold tILRMA_update_once.
  apply raises_only_bind; [apply tILRMA_update_space_model_implemented | intros _].
  apply raises_only_bind; [apply raises_only_get | intros s].
  apply raises_only_bind; [now apply raises_only_get_input | intros X].
  apply raises_only_bind; [apply raises_only_modify | intros _].
  apply raises_only_if; [| apply raises_only_ret].
  apply raises_only_bind.
  - apply raises_only_if.
    + apply raises_only_bind; [now apply raises_only_get_rank2 | intros T].
      apply raises_only_bind; intros; apply raises_only_modify.
    + apply raises_only_bind; [now apply raises_only_get_rank3 | intros T].
      apply raises_only_modify.
  - intros _. apply raises_only_bind; intros; apply raises_only_modify.
Qed.

(* ------------------------------------------------------------------ *)
(** ** C4: the variants that are not implemented *)

(** C4, as the program has it.  The constructors of [KLILRMA] and of
    [RegularizedILRMA] raise [NotImplementedError] for every argument.  The
    constructor of [tILRMA] returns an object for every argument;
    [tILRMA.update_source_model] raises [NotImplementedError] once the
    input is set, and leaves the driver as it was; [tILRMA.update_once]
    does not call it, and no exception it raises is a
    [NotImplementedError]. *)
Theorem unimplemented_variants :
  (forall rng n_bases partitioning normalize reference_id eps,
     KLILRMA___init__ rng n_bases partitioning normalize reference_id eps
     = Err (NotImplementedError "Implement KL-ILRMA")) /\
  (forall rng n_bases partitioning normalize reference_id eps,
     RegularizedILRMA___init__ rng n_bases partitioning normalize reference_id eps
     = Err (NotImplementedError "Implement Regularized ILRMA")) /\
  (forall rng n_bases nu partitioning normalize reference_id eps,
     exists self,
       tILRMA___init__ rng n_bases nu partitioning normalize reference_id eps
       = Ok self) /\
  (forall s X,
     input s = Some X ->
     tILRMA_update_source_model s
     = (s, Err (NotImplementedError "Implement update_source_model."))) /\
  (forall s s' e,
     tILRMA_update_once s = (s', Err e) ->
     forall msg, e <> NotImplementedError msg).
Proof.
  repeat split.
  - intros. eexists. reflexivity.
  - intros s X HX. unfold tILRMA_update_source_model, bind, get, get_input, bind, get.
    rewrite HX. reflexivity.
  - intros s s' e H. exact (tILRMA_update_once_implemented _ H).
Qed.

(* ------------------------------------------------------------------ *)
(** ** Attributes the updates leave alone *)

Ltac model_independent_tac := repeat split; intros; reflexivity.

Lemma loss_model_independent : model_independent loss.
Proof. model_independent_tac. Qed.

Lemma partitioning_model_independent : model_independent partitioning.
Proof. model_independent_tac. Qed.

Lemma normalize_model_independent : model_independent normalize.
Proof. model_independent_tac. Qed.

Lemma input_model_independent : model_independent input.
Proof. model_independent_tac. Qed.

Lemma eps_model_independent : model_independent eps.
Proof. model_independent_tac. Qed.

Lemma shape_model_independent :
  model_independent (fun s => (n_sources s, n_channels s, n_bins s, n_frames s, n_bases s)).
Proof. model_independent_tac. Qed.

Ltac keeps_step :=
  first
    [ apply keeps_ret | apply keeps_raise | apply keeps_lift | apply keeps_get
    | apply keeps_get_input | apply keeps_get_rank2 | apply keeps_get_rank3
    | apply keeps_model_psd
    | apply keeps_modify; solve [auto]
    | apply keeps_for_from; intros ?
    | apply keeps_if
    | apply keeps_bind; [| intros ?] ].

Section KeepsUpdates.

Context {X : Type} (f : ILRMA -> X) (Hf : model_independent f).

Let Hlatent := proj1 Hf.
Let Hbase := proj1 (proj2 Hf).
Let Hactivation := proj1 (proj2 (proj2 Hf)).
Let Hfilter := proj1 (proj2 (proj2 (proj2 Hf))).
Let Hestimation := proj2 (proj2 (proj2 (proj2 Hf))).

Lemma keeps_GaussILRMA_update_source_model :
  keeps f GaussILRMA_update_source_model.
Proof. unfold GaussILRMA_update_source_model. repeat keeps_step. Qed.

Lemma keeps_GaussILRMA_update_space_model :
  keeps f GaussILRMA_update_space_model.
Proof.
  unfold GaussILRMA_update_space_model, for_range, GaussILRMA_update_source_row.
  repeat keeps_step.
Qed.

Lemma keeps_call_projection_back pb (Xin : carray3) (Y : carr3) :
  keeps f (call_projection_back pb Xin Y).
Proof.
  unfold call_projection_back. keeps_step; [keeps_step |].
  destruct (py_index _ _); keeps_step.
Qed.

Lemma keeps_GaussILRMA_normalize pb : keeps f (GaussILRMA_normalize pb).
Proof.
  unfold GaussILRMA_normalize, store_normalized.
  repeat first [apply keeps_call_projection_back | keeps_step].
Qed.

Lemma keeps_GaussILRMA_update_once pb : keeps f (GaussILRMA_update_once pb).
Proof.
  unfold GaussILRMA_update_once.
  apply keeps_bind; [apply keeps_GaussILRMA_update_source_model | intros _].
  apply keeps_bind; [apply keeps_GaussILRMA_update_space_model | intros _].
  apply keeps_GaussILRMA_normalize.
Qed.

Lemma keeps_GaussILRMA_compute_negative_loglikelihood :
  keeps f GaussILRMA_compute_negative_loglikelihood.
Proof. unfold GaussILRMA_compute_negative_loglikelihood. repeat keeps_step. Qed.

Lemma keeps_finish_call pb (Xin : carray3) : keeps f (finish_call pb Xin).
Proof.
  unfold finish_call.
  repeat first [apply keeps_call_projection_back | keeps_step].
Qed.

End KeepsUpdates.

(* ------------------------------------------------------------------ *)
(** ** C2: partitioning with projection-back normalisation *)

Lemma get_input_inv (s s' : ILRMA) (r : result carray3) :
  get_input s = (s', r) ->
  s' = s /\
  match input s with
  | Some X => r = Ok X
  | None => exists msg, r = Err (TypeError msg)
  end.
Proof.
  unfold get_input, bind, get. destruct (input s); intros H; inversion H; subst.
  - split; reflexivity.
  - split; [reflexivity | eexists; reflexivity].
Qed.

(** With the input set, the normalisation of [update_once] stores the
    estimate and raises when the model is partitioned and the mode is
    ['projection-back']. *)
Lemma GaussILRMA_normalize_rejects pb (s : ILRMA) (X : carray3) :
  input s = Some X ->
  partitioning s = true ->
  normalize s = PyStr "projection-back" ->
  GaussILRMA_normalize pb s
  = (set_estimation (separate (n_channels s) (at3 X) (demix_filter s)) s,
     Err (NotImplementedError msg_projection_back_partitioning)).
Proof.
  intros HX HP HN.
  unfold GaussILRMA_normalize, bind, get, get_input, bind, get, modify, raise.
  rewrite HX. cbn. rewrite HN, HP. reflexivity.
Qed.

Lemma GaussILRMA_normalize_raises pb (s : ILRMA) :
  partitioning s = true ->
  normalize s = PyStr "projection-back" ->
  exists s' e, GaussILRMA_normalize pb s = (s', Err e).
Proof.
  intros HP HN. destruct (input s) as [X |] eqn:HX.
  - eexists; eexists. apply GaussILRMA_normalize_rejects; eassumption.
  - unfold GaussILRMA_normalize, bind, get, get_input, bind, get, raise.
    rewrite HX. eexists; eexists; reflexivity.
Qed.

(** The spatial update returns only when the input is set. *)
Lemma GaussILRMA_update_space_model_input (s s' : ILRMA) :
  GaussILRMA_update_space_model s = (s', Ok tt) ->
  exists X, input s' = Some X.
Proof.
  intros H.
  assert (K : input s' = input s)
    by (apply (keeps_GaussILRMA_update_space_model input_model_independent _ H)).
  unfold GaussILRMA_update_space_model in H.
  apply bind_inv in H. destruct H as [[s1 [a [H1 H2]]] | [e [_ H2]]]; [| discriminate].
  inversion H1; subst s1 a.
  apply bind_inv in H2. destruct H2 as [[s1 [X [H2 _]]] | [e [_ H3]]]; [| discriminate].
  apply get_input_inv in H2. destruct H2 as [_ H2].
  destruct (input s) as [X' |]; [| destruct H2 as [m H2]; discriminate].
  exists X'. assumption.
Qed.

(** C2, as the program has it.  The constructor accepts the partitioned
    model together with ['projection-back'] normalisation: it returns a
    driver that holds both settings and an empty trajectory.  The pair is
    turned down in [update_once]: on a driver with the two settings every
    call of [update_once] raises, and when the source and the spatial
    updates of that call returned, what is raised is the
    [NotImplementedError] of the normalisation. *)
Theorem projection_back_partitioning_rejected_in_update_once :
  (forall rng n_bases reference_id eps threshold,
     exists self,
       GaussILRMA___init__ rng n_bases true (PyStr "projection-back")
         reference_id eps threshold = Ok self /\
       partitioning self = true /\
       normalize self = PyStr "projection-back" /\
       loss self = []) /\
  (forall pb s,
     partitioning s = true ->
     normalize s = PyStr "projection-back" ->
     exists s' e, GaussILRMA_update_once pb s = (s', Err e)) /\
  (forall pb s s1 s2,
     partitioning s = true ->
     normalize s = PyStr "projection-back" ->
     GaussILRMA_update_source_model s = (s1, Ok tt) ->
     GaussILRMA_update_space_model s1 = (s2, Ok tt) ->
     exists s',
       GaussILRMA_update_once pb s
       = (s', Err (NotImplementedError msg_projection_back_partitioning))).
Proof.
  split; [| split].
  - intros. eexists. repeat split.
  - intros pb s HP HN. unfold GaussILRMA_update_once.
    destruct (GaussILRMA_update_source_model s) as [s1 [[] | e1]] eqn:H1.
    + pose proof (keeps_GaussILRMA_update_source_model
                    partitioning_model_independent _ H1) as HP1.
      pose proof (keeps_GaussILRMA_update_source_model
                    normalize_model_independent _ H1) as HN1.
      rewrite (@bind_ok _ _ _ _ _ _ _ H1).
      destruct (GaussILRMA_update_space_model s1) as [s2 [[] | e2]] eqn:H2.
      * pose proof (keeps_GaussILRMA_update_space_model
                      partitioning_model_independent _ H2) as HP2.
        pose proof (keeps_GaussILRMA_update_space_model
                      normalize_model_independent _ H2) as HN2.
        rewrite (@bind_ok _ _ _ _ _ _ _ H2).
        apply GaussILRMA_normalize_raises; congruence.
      * rewrite (@bind_err _ _ _ _ _ _ _ H2). eexists; eexists; reflexivity.
    + rewrite (@bind_err _ _ _ _ _ _ _ H1). eexists; eexists; reflexivity.
  - intros pb s s1 s2 HP HN H1 H2. unfold GaussILRMA_update_once.
    pose proof (keeps_GaussILRMA_update_source_model
                  partitioning_model_independent _ H1) as HP1.
    pose proof (keeps_GaussILRMA_update_source_model
                  normalize_model_independent _ H1) as HN1.
    pose proof (keeps_GaussILRMA_update_space_model
                  partitioning_model_independent _ H2) as HP2.
    pose proof (keeps_GaussILRMA_update_space_model
                  normalize_model_independent _ H2) as HN2.
    destruct (GaussILRMA_update_space_model_input _ H2) as [X HX].
    rewrite (@bind_ok _ _ _ _ _ _ _ H1), (@bind_ok _ _ _ _ _ _ _ H2).
    eexists. apply GaussILRMA_normalize_rejects with (X := X); congruence.
Qed.

(* ------------------------------------------------------------------ *)
(** ** C9 and C10: the loss trajectory *)

Lemma setattr_keeps_loss (kwargs : list kwarg) (s : ILRMA) :
  no_loss_kwarg kwargs = true -> loss (fold_left setattr kwargs s) = loss s.
Proof.
  revert s. induction kwargs as [| kw kwargs IH]; intros s H; simpl; [reflexivity |].
  simpl in H. apply andb_true_iff in H. destruct H as [Hkw H].
  rewrite IH by assumption. destruct kw; simpl in Hkw; try reflexivity; discriminate.
Qed.

(** [_reset] does not touch the trajectory. *)
Lemma keeps_loss_reset (kwargs : list kwarg) :
  no_loss_kwarg kwargs = true -> keeps loss (_reset kwargs).
Proof.
  intros Hkw. unfold _reset.
  apply keeps_bind; [apply keeps_get | intros s0].
  destruct (input s0); [| apply keeps_raise].
  apply keeps_bind;
    [apply keeps_modify; intros; now apply setattr_keeps_loss | intros _].
  repeat first
    [ apply keeps_get
    | apply keeps_modify; intros; reflexivity
    | apply keeps_if
    | apply keeps_bind; [| intros ?] ].
Qed.

Lemma keeps_run_callback {X : Type} (f : ILRMA -> X) cb : keeps f (run_callback cb).
Proof. unfold run_callback. destruct cb; repeat keeps_step. Qed.

Section Trajectory.

Variable projection_back :
  forall (n_sources n_bins n_frames : nat), carr3 -> carr2 -> result carr2.
Variable callback : option (ILRMA -> result unit).

Local Abbreviation iteration_body :=
  (GaussILRMA_iteration projection_back callback).

(** One pass of the loop appends one entry when it completes; when it
    raises it appends none, or the one entry computed before the callback
    raised. *)
Lemma iteration_loss (idx : nat) (s s' : ILRMA) (r : result unit) :
  iteration_body idx s = (s', r) ->
  (exists l, loss s' = loss s ++ [l]) \/
  (loss s' = loss s /\ exists e, r = Err e).
Proof.
  unfold GaussILRMA_iteration. intros H.
  apply bind_inv in H. destruct H as [[s1 [[] [H1 H]]] | [e [H1 ->]]].
  2:{ right. split; [| eexists; reflexivity].
      apply (keeps_GaussILRMA_update_once loss_model_independent _ _ H1). }
  pose proof (keeps_GaussILRMA_update_once loss_model_independent _ _ H1) as K1.
  apply bind_inv in H. destruct H as [[s2 [l [H2 H]]] | [e [H2 ->]]].
  2:{ right. split; [| eexists; reflexivity].
      rewrite (keeps_GaussILRMA_compute_negative_loglikelihood loss _ H2).
      assumption. }
  pose proof (keeps_GaussILRMA_compute_negative_loglikelihood loss _ H2) as K2.
  apply bind_inv in H. destruct H as [[s3 [[] [H3 H]]] | [e [H3 _]]];
    [| discriminate].
  inversion H3; subst s3.
  left. exists l.
  rewrite (keeps_run_callback loss _ _ H). unfold append_loss. simpl. congruence.
Qed.

(** The loop of [__call__]: the entries it appends, one per pass when it
    runs to its end. *)
Lemma loop_loss (n i : nat) (s s' : ILRMA) (r : result unit) :
  for_from i n iteration_body s = (s', r) ->
  exists new,
    loss s' = loss s ++ new /\
    (List.length new <= n)%nat /\
    (r = Ok tt -> List.length new = n).
Proof.
  revert i s. induction n as [| n IH]; intros i s H; simpl in H.
  - inversion H; subst. exists []. rewrite app_nil_r. repeat split; auto.
  - apply bind_inv in H. destruct H as [[s1 [[] [H1 H]]] | [e [H1 ->]]].
    + destruct (iteration_loss _ _ H1) as [[l Hl] | [_ [e He]]]; [| discriminate].
      destruct (IH _ _ H) as [new [Hn [Hle Hok]]].
      exists (l :: new). rewrite Hn, Hl, <- app_assoc. simpl.
      repeat split; [lia | intros Hr; rewrite Hok by assumption; reflexivity].
    + destruct (iteration_loss _ _ H1) as [[l Hl] | [Hl _]].
      * exists [l]. repeat split; [assumption | simpl; lia | discriminate].
      * exists []. rewrite app_nil_r.
        repeat split; [assumption | simpl; lia | discriminate].
Qed.

(** What a call does to the trajectory: the baseline, computed on the
    driver as [_reset] left it, then the entries of the loop. *)
Lemma call_loss (X : carray3) (iteration : Z) (kwargs : list kwarg)
  (s s' : ILRMA) (out : carr3) :
  GaussILRMA___call__ projection_back callback X iteration kwargs s = (s', Ok out) ->
  exists s0 baseline rest,
    bind (modify (set_input (Some X))) (fun _ => _reset kwargs) s = (s0, Ok tt) /\
    GaussILRMA_compute_negative_loglikelihood s0 = (s0, Ok baseline) /\
    loss s' = loss s0 ++ baseline :: rest /\
    List.length rest = Z.to_nat iteration /\
    (no_loss_kwarg kwargs = true -> loss s0 = loss s).
Proof.
  intros H. unfold GaussILRMA___call__ in H.
  apply bind_inv in H. destruct H as [[s1 [[] [H1 H]]] | [e [_ H]]]; [| discriminate].
  inversion H1; subst s1.
  apply bind_inv in H. destruct H as [[s2 [[] [H2 H]]] | [e [_ H]]]; [| discriminate].
  apply bind_inv in H. destruct H as [[s3 [l [H3 H]]] | [e [_ H]]]; [| discriminate].
  pose proof (keeps_GaussILRMA_compute_negative_loglikelihood loss _ H3) as K3.
  assert (E3 : s3 = s2).
  { unfold GaussILRMA_compute_negative_loglikelihood in H3.
    apply bind_inv in H3. destruct H3 as [[t1 [a1 [G1 H3]]] | [e [_ H3]]]; [| discriminate].
    inversion G1; subst t1 a1.
    apply bind_inv in H3. destruct H3 as [[t2 [X' [G2 H3]]] | [e [_ H3]]]; [| discriminate].
    apply get_input_inv in G2. destruct G2 as [-> _].
    apply bind_inv in H3. destruct H3 as [[t3 [R_ [G3 H3]]] | [e [_ H3]]]; [| discriminate].
    inversion H3; subst.
    unfold model_psd, bind, get in G3.
    destruct (partitioning s2).
    - destruct (base s2); simpl in G3; try discriminate.
      destruct (activation s2); simpl in G3; try discriminate.
      inversion G3; reflexivity.
    - destruct (base s2); simpl in G3; try discriminate.
      destruct (activation s2); simpl in G3; try discriminate.
      inversion G3; reflexivity. }
  subst s3.
  apply bind_inv in H. destruct H as [[s4 [[] [H4 H]]] | [e [_ H]]]; [| discriminate].
  inversion H4; subst s4.
  apply bind_inv in H. destruct H as [[s5 [[] [H5 H]]] | [e [_ H]]]; [| discriminate].
  destruct (loop_loss _ _ _ H5) as [new [Hn [_ Hok]]].
  pose proof (keeps_finish_call loss_model_independent _ _ _ H) as K6.
  exists s2, l, new. split; [| split; [| split; [| split]]].
  - unfold bind at 1. simpl. exact H2.
  - assumption.
  - rewrite K6, Hn. unfold append_loss. simpl. rewrite <- app_assoc. reflexivity.
  - apply Hok. reflexivity.
  - intros Hkw. exact (keeps_loss_reset _ Hkw _ H2).
Qed.

End Trajectory.

(** C9.  A call that returns appends to the trajectory, as [_reset] left
    it, the baseline, computed on the driver as [_reset] left it and
    before any update, and then one entry per iteration:
    [iteration + 1] entries in all.  When no keyword argument assigns
    [loss], [_reset] leaves the trajectory as it was before the call, and
    on a fresh driver three iterations leave a trajectory of length four. *)
Theorem call_appends_baseline_and_iterations
  (projection_back : nat -> nat -> nat -> carr3 -> carr2 -> result carr2)
  (callback : option (ILRMA -> result unit))
  (X : carray3) (iteration : Z) (kwargs : list kwarg)
  (s s' : ILRMA) (out : carr3) :
  GaussILRMA___call__ projection_back callback X iteration kwargs s = (s', Ok out) ->
  (exists s0 baseline rest,
     bind (modify (set_input (Some X))) (fun _ => _reset kwargs) s = (s0, Ok tt) /\
     GaussILRMA_compute_negative_loglikelihood s0 = (s0, Ok baseline) /\
     loss s' = loss s0 ++ baseline :: rest /\
     List.length rest = Z.to_nat iteration /\
     List.length (loss s')
     = (List.length (loss s0) + (Z.to_nat iteration + 1))%nat) /\
  (no_loss_kwarg kwargs = true ->
   List.length (loss s')
   = (List.length (loss s) + (Z.to_nat iteration + 1))%nat /\
   (loss s = [] -> iteration = 3%Z -> List.length (loss s') = 4%nat)).
Proof.
  intros H.
  destruct (@call_loss _ _ _ _ _ _ _ _ H)
    as [s0 [baseline [rest [H0 [Hb [Hl [Hn Hk]]]]]]].
  assert (L : List.length (loss s')
              = (List.length (loss s0) + (Z.to_nat iteration + 1))%nat).
  { rewrite Hl, length_app. simpl. lia. }
  split.
  - exists s0, baseline, rest. repeat split; assumption.
  - intros Hkw. rewrite (Hk Hkw) in L. split; [exact L |].
    intros He Hi. rewrite L, He, Hi. reflexivity.
Qed.

(** C10.  The trajectory is empty when the driver is constructed; [_reset]
    leaves it as it is (no keyword argument assigning [loss]); and after
    calls made one after the other on one driver, each of which returned,
    the trajectory is what it was before, followed by the entries of the
    first call, then those of the second, and so on, the call with
    [n] iterations contributing [n + 1] entries: its length has grown by
    the sum of the [n + 1]. *)
Theorem trajectory_accumulates_over_calls :
  (forall rng n_bases partitioning normalize reference_id eps threshold self,
     GaussILRMA___init__ rng n_bases partitioning normalize reference_id
       eps threshold = Ok self ->
     loss self = []) /\
  (forall kwargs s s' r,
     no_loss_kwarg kwargs = true ->
     _reset kwargs s = (s', r) -> loss s' = loss s) /\
  (forall projection_back callback runs s s' outs,
     forallb run_has_no_loss_kwarg runs = true ->
     successive_calls projection_back callback runs s = (s', Ok outs) ->
     exists segments,
       loss s' = loss s ++ List.concat segments /\
       map (@List.length R) segments = map entries_of_run runs /\
       List.length (loss s')
       = (List.length (loss s) + list_sum (map entries_of_run runs))%nat).
Proof.
  split; [| split].
  - intros rng n_bases partitioning normalize reference_id eps threshold self H.
    inversion H; subst. reflexivity.
  - intros kwargs s s' r Hkw H. exact (keeps_loss_reset _ Hkw _ H).
  - intros pb cb runs. induction runs as [| [[X iteration] kwargs] runs IH];
      intros s s' outs Hkw H; simpl in H.
    + inversion H; subst. exists []. simpl. rewrite app_nil_r.
      repeat split. lia.
    + simpl in Hkw. apply andb_true_iff in Hkw. destruct Hkw as [Hkw Hrest].
      apply bind_inv in H. destruct H as [[s1 [out [H1 H]]] | [e [_ H]]];
        [| discriminate].
      apply bind_inv in H. destruct H as [[s2 [outs' [H2 H]]] | [e [_ H]]];
        [| discriminate].
      inversion H; subst s2 outs.
      destruct (@call_loss _ _ _ _ _ _ _ _ H1)
        as [s0 [baseline [rest [_ [_ [Hl [Hn Hk]]]]]]].
      rewrite (Hk Hkw) in Hl.
      destruct (IH _ _ _ Hrest H2) as [segments [Hs [Hm Hlen]]].
      exists ((baseline :: rest) :: segments). simpl.
      repeat split.
      * rewrite Hs, Hl, <- app_assoc. reflexivity.
      * rewrite Hm. unfold entries_of_run at 2. simpl. rewrite Hn.
        f_equal. lia.
      * rewrite Hlen, Hl, length_app. unfold entries_of_run at 2. simpl. lia.
Qed.

(* ------------------------------------------------------------------ *)
(** ** C7: power normalisation *)

(** What the power normalisation stores, when it returns. *)
Lemma GaussILRMA_normalize_power pb (s s' : ILRMA) (X : carray3) :
  input s = Some X ->
  normalize s = PyStr "power" ->
  GaussILRMA_normalize pb s = (s', Ok tt) ->
  let Y := separate (n_channels s) (at3 X) (demix_filter s) in
  let aux := norm_aux (eps s) (n_bins s) (n_frames s) Y in
  estimation s' = scale_estimate aux Y /\
  demix_filter s' = scale_filter aux (demix_filter s) /\
  activation s' = activation s /\
  (if partitioning s then
     exists T, base s = Rank2 T /\
       base s' = Rank2 (norm_par_base (n_sources s) aux (latent s) T) /\
       latent s' = norm_par_latent (n_sources s) aux (latent s)
   else
     exists T, base s = Rank3 T /\
       base s' = Rank3 (norm_unc_base aux T) /\
       latent s' = latent s).
Proof.
  intros HX HN H.
  unfold GaussILRMA_normalize, bind, get, get_input, bind, get, modify in H.
  rewrite HX in H. cbn in H. rewrite HN in H. cbn in H.
  destruct (partitioning s) eqn:HP.
  - destruct (base s) as [T | T] eqn:HB; cbn in H; [| discriminate].
    inversion H; subst s'. cbn.
    repeat split. exists T. repeat split.
  - destruct (base s) as [T | T] eqn:HB; cbn in H; [discriminate |].
    inversion H; subst s'. cbn.
    repeat split. exists T. repeat split.
Qed.

Lemma rms_mean_power (n_bins n_frames : nat) (Y : carr3) (src : nat) :
  rms n_bins n_frames Y src = sqrt (mean_power n_bins n_frames Y src).
Proof. reflexivity. Qed.

(** Dividing the estimate of a source by a non-zero real divides its mean
    power by the square. *)
Lemma mean_power_scale (n_bins n_frames : nat) (aux : arr1) (Y : carr3)
  (src : nat) :
  aux src <> 0 ->
  mean_power n_bins n_frames (scale_estimate aux Y) src
  = mean_power n_bins n_frames Y src / aux src ^ 2.
Proof.
  intros Ha. unfold mean_power.
  set (N := INR (n_bins * n_frames)).
  replace (sum_n n_bins (fun f => sum_n n_frames
             (fun t => power (scale_estimate aux Y) src f t)))
    with (sum_n n_bins (fun f => sum_n n_frames (fun t => power Y src f t))
          / aux src ^ 2).
  - unfold Rdiv. ring.
  - rewrite <- sum_n_div. apply sum_n_ext. intros f _.
    rewrite <- sum_n_div. apply sum_n_ext. intros t _.
    unfold power, scale_estimate. symmetry. now apply power_div_real.
Qed.

Lemma rms_scale_by_rms (eps : R) (n_bins n_frames : nat) (Y : carr3) (src : nat) :
  0 < eps ->
  eps <= rms n_bins n_frames Y src ->
  rms n_bins n_frames
    (scale_estimate (norm_aux eps n_bins n_frames Y) Y) src = 1.
Proof.
  intros Heps Hrms.
  assert (Haux : norm_aux eps n_bins n_frames Y src = rms n_bins n_frames Y src)
    by (unfold norm_aux; now apply floor_at_id).
  rewrite rms_mean_power in *.
  set (m := mean_power n_bins n_frames Y src) in *.
  assert (Hm : 0 < m).
  { destruct (Rlt_dec 0 m) as [Hlt | Hge]; [assumption |].
    rewrite sqrt_neg_0 in Hrms by lra. lra. }
  rewrite mean_power_scale by (rewrite Haux; lra).
  rewrite Haux. fold m.
  replace (sqrt m ^ 2) with m
    by (simpl; rewrite Rmult_1_r, sqrt_sqrt; lra).
  replace (m / m) with 1 by (field; lra).
  apply sqrt_1.
Qed.

(** C7.  When the normalisation of [update_once] runs in ['power'] mode
    with a positive [eps] and returns, every source whose estimate had a
    root mean square power of at least [eps] before the step has an
    estimate of root mean square power 1 after it (so within [eps] of 1). *)
Theorem power_normalization_unit_rms
  (projection_back : nat -> nat -> nat -> carr3 -> carr2 -> result carr2)
  (s s' : ILRMA) (X : carray3) (src : nat) :
  input s = Some X ->
  normalize s = PyStr "power" ->
  0 < eps s ->
  GaussILRMA_normalize projection_back s = (s', Ok tt) ->
  eps s <= rms (n_bins s) (n_frames s)
             (separate (n_channels s) (at3 X) (demix_filter s)) src ->
  rms (n_bins s) (n_frames s) (estimation s') src = 1 /\
  Rabs (rms (n_bins s) (n_frames s) (estimation s') src - 1) <= eps s.
Proof.
  intros HX HN Heps H Hrms.
  destruct (GaussILRMA_normalize_power _ _ HX HN H) as [HY _].
  rewrite HY.
  assert (E : rms (n_bins s) (n_frames s)
                (scale_estimate
                   (norm_aux (eps s) (n_bins s) (n_frames s)
                      (separate (n_channels s) (at3 X) (demix_filter s)))
                   (separate (n_channels s) (at3 X) (demix_filter s))) src = 1)
    by (now apply rms_scale_by_rms).
  split; [exact E |].
  rewrite E. replace (1 - 1) with 0 by ring. rewrite Rabs_R0. lra.
Qed.

(* ------------------------------------------------------------------ *)
(** ** C6: the partitioned model *)

(** What the source update stores in the partitioned model. *)
Lemma GaussILRMA_update_source_model_partitioned (s : ILRMA) (X : carray3)
  (T V : arr2) :
  input s = Some X ->
  partitioning s = true ->
  base s = Rank2 T ->
  activation s = Rank2 V ->
  let P := power (separate (n_channels s) (at3 X) (demix_filter s)) in
  let Z' := par_latent (eps s) (n_sources s) (n_bins s) (n_frames s)
              (n_bases s) P (latent s) T V in
  let T' := par_base (eps s) (n_sources s) (n_frames s) (n_bases s) P Z' T V in
  let V' := par_activation (eps s) (n_sources s) (n_bins s) (n_bases s)
              P Z' T' V in
  GaussILRMA_update_source_model s
  = (set_activation (Rank2 V') (set_base (Rank2 T') (set_latent Z' s)), Ok tt).
Proof.
  intros HX HP HB HA.
  unfold GaussILRMA_update_source_model, bind, get, get_input, bind, get, modify.
  rewrite HX. cbn. rewrite HP, HB, HA. reflexivity.
Qed.

(** The spatial update changes nothing but the filter. *)
Lemma keeps_GaussILRMA_update_space_model_filter {X : Type} (f : ILRMA -> X) :
  (forall v s, f (set_demix_filter v s) = f s) ->
  keeps f GaussILRMA_update_space_model.
Proof.
  intros Hf.
  unfold GaussILRMA_update_space_model, for_range, GaussILRMA_update_source_row.
  repeat keeps_step.
Qed.

Lemma div_sqrt_nonneg (a b : R) : 0 < b -> 0 <= sqrt a / b.
Proof.
  intros Hb. apply Rmult_le_pos; [apply sqrt_pos |].
  left. now apply Rinv_0_lt_compat.
Qed.

(** After the latent update, when the divisor [Z.sum(axis=0)] is not zero. *)
Lemma par_latent_column_sum (eps : R) (n_sources n_bins n_frames n_bases : nat)
  (P : arr3) (Z T V : arr2) (k : nat) :
  par_latent_sum eps n_sources n_bins n_frames n_bases P Z T V k <> 0 ->
  sum_n n_sources
    (fun src => par_latent eps n_sources n_bins n_frames n_bases P Z T V src k)
  = 1.
Proof.
  intros H. unfold par_latent. rewrite sum_n_div.
  fold (par_latent_sum eps n_sources n_bins n_frames n_bases P Z T V k).
  field. assumption.
Qed.

Lemma par_latent_sum_nonneg (eps : R) (n_sources n_bins n_frames n_bases : nat)
  (P : arr3) (Z T V : arr2) (k : nat) :
  0 <= par_latent_sum eps n_sources n_bins n_frames n_bases P Z T V k.
Proof.
  unfold par_latent_sum. apply sum_n_nonneg. intros. apply sqrt_pos.
Qed.

Lemma par_latent_nonneg (eps : R) (n_sources n_bins n_frames n_bases : nat)
  (P : arr3) (Z T V : arr2) (src k : nat) :
  par_latent_sum eps n_sources n_bins n_frames n_bases P Z T V k <> 0 ->
  0 <= par_latent eps n_sources n_bins n_frames n_bases P Z T V src k.
Proof.
  intros H. unfold par_latent, par_latent_sqrt. apply div_sqrt_nonneg.
  pose proof (par_latent_sum_nonneg eps n_sources n_bins n_frames n_bases
                P Z T V k). lra.
Qed.

Lemma source_update_partition_invariant (s : ILRMA) (X : carray3) (T V : arr2) :
  input s = Some X ->
  partitioning s = true ->
  base s = Rank2 T ->
  activation s = Rank2 V ->
  (forall f k, (f < n_bins s)%nat -> (k < n_bases s)%nat -> 0 <= T f k) ->
  (forall k t, (k < n_bases s)%nat -> (t < n_frames s)%nat -> 0 <= V k t) ->
  (forall k, (k < n_bases s)%nat ->
     par_latent_sum (eps s) (n_sources s) (n_bins s) (n_frames s) (n_bases s)
       (power (separate (n_channels s) (at3 X) (demix_filter s)))
       (latent s) T V k <> 0) ->
  exists s1,
    GaussILRMA_update_source_model s = (s1, Ok tt) /\ partition_invariant s1.
Proof.
  intros HX HP HB HA HT HV Hsum.
  eexists. split.
  - apply GaussILRMA_update_source_model_partitioned; eassumption.
  - unfold partition_invariant. cbn. repeat split.
    + intros k Hk. apply par_latent_column_sum. now apply Hsum.
    + intros src k _ Hk. apply par_latent_nonneg. now apply Hsum.
    + eexists; eexists. repeat split.
      * intros f k Hf Hk. unfold par_base.
        apply Rmult_le_pos; [now apply HT | apply sqrt_pos].
      * intros k t Hk Ht. unfold par_activation.
        apply Rmult_le_pos; [now apply HV | apply sqrt_pos].
Qed.

(** The power normalisation keeps the invariant. *)
Lemma normalize_partition_invariant pb (s s' : ILRMA) (X : carray3) :
  input s = Some X ->
  partitioning s = true ->
  normalize s = PyStr "power" ->
  0 < eps s ->
  partition_invariant s ->
  GaussILRMA_normalize pb s = (s', Ok tt) ->
  partition_invariant s'.
Proof.
  intros HX HP HN Heps [Hcol [Hz [T [V [HB [HA [HT HV]]]]]]] H.
  pose proof (keeps_GaussILRMA_normalize shape_model_independent pb _ H) as Hshape.
  cbn in Hshape. inversion Hshape as [[E1 E2 E3 E4 E5]]. clear Hshape.
  destruct (GaussILRMA_normalize_power _ _ HX HN H) as [_ [_ [HA' HB']]].
  rewrite HP in HB'. destruct HB' as [T0 [HB0 [HB' HZ']]].
  rewrite HB in HB0. inversion HB0; subst T0. clear HB0.
  set (Y := separate (n_channels s) (at3 X) (demix_filter s)) in *.
  set (aux := norm_aux (eps s) (n_bins s) (n_frames s) Y) in *.
  assert (Haux : forall src, 0 < aux src ^ 2).
  { intros src. apply pow_lt. unfold aux, norm_aux.
    pose proof (floor_at_ge (eps s) (rms (n_bins s) (n_frames s) Y src)). lra. }
  assert (Hzaux : forall src k, (src < n_sources s)%nat -> (k < n_bases s)%nat ->
                    0 <= norm_Zaux aux (latent s) src k).
  { intros src k Hs Hk. unfold norm_Zaux.
    apply Rmult_le_pos; [now apply Hz |].
    left. apply Rinv_0_lt_compat, Haux. }
  assert (Hsum : forall k, (k < n_bases s)%nat ->
                   0 < norm_Zauxsum (n_sources s) aux (latent s) k).
  { intros k Hk.
    destruct (@sum_n_nonzero_term (n_sources s) (fun src => latent s src k))
      as [j [Hj Hpos]].
    - intros i Hi. now apply Hz.
    - rewrite Hcol by assumption. lra.
    - unfold norm_Zauxsum. apply sum_n_pos with (j := j).
      + intros i Hi. now apply Hzaux.
      + assumption.
      + unfold norm_Zaux. apply Rmult_lt_0_compat; [assumption |].
        apply Rinv_0_lt_compat, Haux. }
  unfold partition_invariant. rewrite E1, E5, E3, E4, HZ', HB', HA', HA.
  repeat split.
  - intros k Hk. unfold norm_par_latent. rewrite sum_n_div.
    fold (norm_Zauxsum (n_sources s) aux (latent s) k).
    field. apply Rgt_not_eq. now apply Hsum.
  - intros src k Hs Hk. unfold norm_par_latent.
    apply Rmult_le_pos; [now apply Hzaux |].
    left. apply Rinv_0_lt_compat. now apply Hsum.
  - exists (norm_par_base (n_sources s) aux (latent s) T), V. repeat split.
    + intros f k Hf Hk. unfold norm_par_base.
      apply Rmult_le_pos; [now apply HT | left; now apply Hsum].
    + assumption.
Qed.

(** C6, as the program has it.  In one pass of [update_once] on the
    partitioned model with ['power'] normalisation and a positive [eps],
    starting from a [base] and an [activation] without negative entries:
    when no column of the latent update has the divisor [Z.sum(axis=0)]
    equal to zero, then after the source update, and again after the power
    normalisation, every column of [latent] sums to 1 over the sources and
    no entry of [latent], [base] or [activation] is negative. *)
Theorem partition_invariant_after_updates
  (projection_back : nat -> nat -> nat -> carr3 -> carr2 -> result carr2)
  (s s1 s2 s3 : ILRMA) (X : carray3) (T V : arr2) :
  input s = Some X ->
  partitioning s = true ->
  normalize s = PyStr "power" ->
  0 < eps s ->
  base s = Rank2 T ->
  activation s = Rank2 V ->
  (forall f k, (f < n_bins s)%nat -> (k < n_bases s)%nat -> 0 <= T f k) ->
  (forall k t, (k < n_bases s)%nat -> (t < n_frames s)%nat -> 0 <= V k t) ->
  (forall k, (k < n_bases s)%nat ->
     par_latent_sum (eps s) (n_sources s) (n_bins s) (n_frames s) (n_bases s)
       (power (separate (n_channels s) (at3 X) (demix_filter s)))
       (latent s) T V k <> 0) ->
  GaussILRMA_update_source_model s = (s1, Ok tt) ->
  GaussILRMA_update_space_model s1 = (s2, Ok tt) ->
  GaussILRMA_normalize projection_back s2 = (s3, Ok tt) ->
  partition_invariant s1 /\ partition_invariant s3.
Proof.
  intros HX HP HN Heps HB HA HT HV Hsum H1 H2 H3.
  destruct (source_update_partition_invariant _ HX HP HB HA HT HV Hsum)
    as [s1' [H1' Hinv1]].
  rewrite H1 in H1'. inversion H1'; subst s1'. clear H1'.
  split; [assumption |].
  pose proof (keeps_GaussILRMA_update_source_model input_model_independent _ H1) as I1.
  pose proof (keeps_GaussILRMA_update_source_model partitioning_model_independent _ H1) as P1.
  pose proof (keeps_GaussILRMA_update_source_model normalize_model_independent _ H1) as N1.
  pose proof (keeps_GaussILRMA_update_source_model eps_model_independent _ H1) as E1.
  pose proof (keeps_GaussILRMA_update_space_model input_model_independent _ H2) as I2.
  pose proof (keeps_GaussILRMA_update_space_model partitioning_model_independent _ H2) as P2.
  pose proof (keeps_GaussILRMA_update_space_model normalize_model_independent _ H2) as N2.
  pose proof (keeps_GaussILRMA_update_space_model eps_model_independent _ H2) as E2.
  assert (K : (latent s2, base s2, activation s2,
               n_sources s2, n_bins s2, n_frames s2, n_bases s2)
            = (latent s1, base s1, activation s1,
               n_sources s1, n_bins s1, n_frames s1, n_bases s1)).
  { exact (@keeps_GaussILRMA_update_space_model_filter _
             (fun s => (latent s, base s, activation s,
                        n_sources s, n_bins s, n_frames s, n_bases s))
             (fun _ _ => eq_refl) _ _ _ H2). }
  inversion K as [[K1 K2 K3 K4 K5 K6 K7]]. clear K.
  assert (Hinv2 : partition_invariant s2).
  { unfold partition_invariant in *.
    rewrite K1, K2, K3, K4, K5, K6, K7. assumption. }
  apply (@normalize_partition_invariant projection_back s2 s3 X);
    try assumption; congruence.
Qed.

(** When a source has no power, its entry of the latent update is zero. *)
Lemma par_latent_sqrt_silent (eps : R) (n_bins n_frames n_bases : nat)
  (P : arr3) (Z T V : arr2) (src k : nat) :
  (forall f t, (f < n_bins)%nat -> (t < n_frames)%nat -> P src f t = 0) ->
  par_latent_sqrt eps n_bins n_frames n_bases P Z T V src k = 0.
Proof.
  intros HP. unfold par_latent_sqrt, par_latent_numerator.
  rewrite sum_n_zero.
  - unfold Rdiv. rewrite Rmult_0_l. apply sqrt_0.
  - intros f Hf. apply sum_n_zero. intros t Ht.
    unfold par_division. rewrite HP by assumption. unfold Rdiv. ring.
Qed.

(** On the silent mixture the latent update divides by zero: the divisor
    [Z.sum(axis=0)] of the only column is 0 (NumPy stores a NaN), and the
    column does not sum to 1. *)
Lemma silent_mixture_breaks_partition :
  exists s1,
    GaussILRMA_update_source_model silent_start = (s1, Ok tt) /\
    par_latent_sum (eps silent_start) (n_sources silent_start)
      (n_bins silent_start) (n_frames silent_start) (n_bases silent_start)
      (power (separate (n_channels silent_start) (at3 silent_mixture)
                (demix_filter silent_start)))
      (latent silent_start) (rand2 rng_quarter 1)
      (rand2 (advance rng_quarter 1) 1) O = 0 /\
    ~ (Rabs (sum_n (n_sources s1) (fun src => latent s1 src O) - 1)
       <= 1 / 10 ^ 9).
Proof.
  assert (HP : forall f t : nat,
             power (separate 1 (at3 silent_mixture) tiled_eye) O f t = 0).
  { intros f t. unfold power, separate. simpl.
    rewrite Cmul_0_r, Cadd_0_l. unfold Cabs, C0, RtoC, Re, Im. simpl.
    replace (0 * 0 + 0 * 0) with 0 by ring. rewrite sqrt_0. ring. }
  assert (HS : par_latent_sum EPS 1 1 1 1
                 (power (separate 1 (at3 silent_mixture) tiled_eye))
                 (fun _ _ => 1 / INR 1) (rand2 rng_quarter 1)
                 (rand2 (advance rng_quarter 1) 1) O = 0).
  { unfold par_latent_sum. apply sum_n_zero. intros src Hsrc.
    assert (src = O) by lia. subst src.
    apply par_latent_sqrt_silent. intros f t _ _. apply HP. }
  eexists. split; [| split].
  - apply (@GaussILRMA_update_source_model_partitioned silent_start
             silent_mixture (rand2 rng_quarter 1)
             (rand2 (advance rng_quarter 1) 1)); reflexivity.
  - exact HS.
  - change (~ Rabs (sum_n 1 (fun src =>
                par_latent EPS 1 1 1 1
                  (power (separate 1 (at3 silent_mixture) tiled_eye))
                  (fun _ _ => 1 / INR 1) (rand2 rng_quarter 1)
                  (rand2 (advance rng_quarter 1) 1) src O) - 1)
              <= 1 / 10 ^ 9).
    unfold sum_n, par_latent.
    rewrite HS. unfold Rdiv at 1. rewrite Rinv_0, Rmult_0_r.
    replace (0 + 0 - 1) with (- (1)) by ring.
    rewrite Rabs_Ropp, Rabs_R1.
    intros H.
    assert (1 / 10 ^ 9 < 1).
    { apply Rmult_lt_reg_r with (10 ^ 9); [apply pow_lt; lra |].
      unfold Rdiv. rewrite Rmult_assoc, Rinv_l by (apply pow_nonzero; lra).
      simpl. lra. }
    lra.
Qed.

(* ------------------------------------------------------------------ *)
(** ** What the floor gives *)

Lemma Cfloor_at_not_below (eps : R) (z : C) : ~ Clt (Cfloor_at eps z) (RtoC eps).
Proof.
  unfold Cfloor_at. destruct (Clt_dec z (RtoC eps)) as [H | H]; [| assumption].
  unfold Clt, RtoC, Re, Im; simpl. intros [K | [_ K]]; lra.
Qed.

Lemma sqr_floor_ge (eps a : R) : 0 <= eps -> eps ^ 2 <= floor_at eps a ^ 2.
Proof.
  intros H. pose proof (floor_at_ge eps a). simpl. nra.
Qed.

Lemma t_Xi_lower (nu eps : R) (R_ P : arr3) (s f t : nat) :
  0 < nu -> 0 <= P s f t -> eps <= R_ s f t ->
  nu * eps / (nu + 2) <= t_Xi nu R_ P s f t.
Proof.
  intros Hnu HP HR. unfold t_Xi, Rdiv.
  apply Rmult_le_compat_r; [left; apply Rinv_0_lt_compat; lra |].
  assert (nu * eps <= nu * R_ s f t) by (apply Rmult_le_compat_l; lra).
  lra.
Qed.

(* ------------------------------------------------------------------ *)
(** ** Complex division, modulus and square root *)

Lemma C_nonzero (z : C) : z <> C0 -> Re z * Re z + Im z * Im z <> 0.
Proof.
  intros Hz H. apply Hz. destruct z as [a b]. unfold Re, Im in H; simpl in H.
  assert (a = 0) by nra. assert (b = 0) by nra. subst. reflexivity.
Qed.

Lemma Cmul_div_cancel (z b : C) : z <> C0 -> (z * (b / z))%C = b.
Proof.
  intros Hz. pose proof (C_nonzero Hz) as Hn.
  apply C_eq; unfold Cmul, Cdiv, Re, Im in *; simpl in *; field; assumption.
Qed.

Lemma Cmul_eq_div (z w b : C) : z <> C0 -> (z * w)%C = b -> w = (b / z)%C.
Proof.
  intros Hz H. pose proof (C_nonzero Hz) as Hn. subst b.
  apply C_eq; unfold Cmul, Cdiv, Re, Im in *; simpl in *; field; assumption.
Qed.

Lemma Cabs_mul (z w : C) : Cabs (z * w) = Cabs z * Cabs w.
Proof.
  unfold Cabs, Cmul, Re, Im; simpl.
  rewrite <- sqrt_mult by nra. f_equal. ring.
Qed.

Lemma Cabs_pos (z : C) : z <> C0 -> 0 < Cabs z.
Proof.
  intros Hz. pose proof (C_nonzero Hz) as Hn. unfold Cabs.
  apply sqrt_lt_R0. assert (0 <= Re z * Re z + Im z * Im z) by nra. lra.
Qed.

Lemma Cabs_C1 : Cabs C1 = 1.
Proof. unfold C1. apply Cabs_RtoC. lra. Qed.

(** The square root of a nonnegative real, taken in the complex numbers. *)
Lemma Csqrt_RtoC (a : R) : 0 <= a -> Csqrt (RtoC a) = RtoC (sqrt a).
Proof.
  intros Ha. unfold Csqrt. rewrite Cabs_RtoC by assumption.
  unfold RtoC, Re, Im; simpl.
  destruct (Rlt_dec 0 0) as [H | _]; [lra |].
  replace ((a + a) / 2) with a by lra.
  replace ((a - a) / 2) with 0 by lra. rewrite sqrt_0.
  apply C_eq; simpl; ring.
Qed.

Lemma RtoC_mul (a b : R) : (RtoC a * RtoC b)%C = RtoC (a * b).
Proof. c_ring. Qed.

Lemma RtoC_div (a b : R) : b <> 0 -> (RtoC a / RtoC b)%C = RtoC (a / b).
Proof.
  intros Hb. rewrite Cdiv_real by assumption.
  apply C_eq; unfold RtoC, Re, Im; simpl; field; assumption.
Qed.

Lemma RtoC_conj (a : R) : Cconj (RtoC a) = RtoC a.
Proof. apply C_eq; unfold Cconj, RtoC, Re, Im; simpl; ring. Qed.

Lemma RtoC_inj (a b : R) : RtoC a = RtoC b -> a = b.
Proof. intros H. inversion H. reflexivity. Qed.

Lemma RtoC_nonzero (a : R) : a <> 0 -> RtoC a <> C0.
Proof. intros Ha H. apply Ha. now apply RtoC_inj. Qed.

(* ------------------------------------------------------------------ *)
(** ** Systems with one unknown *)

Lemma vnorm_1 (v : vec) : vnorm 1 v = Cabs (v O).
Proof.
  unfold vnorm. simpl. rewrite Rplus_0_l, Rmult_1_r.
  apply sqrt_square. apply Cabs_nonneg.
Qed.

Lemma matvec_1 (M : mat) (v : vec) (i : nat) :
  matvec 1 M v i = (M i O * v O)%C.
Proof. unfold matvec. simpl. apply Cadd_0_l. Qed.

Lemma nonsingular_1 (M : mat) : M O O <> C0 -> nonsingular 1 M.
Proof.
  intros HM b. exists (fun _ => (b O / M O O)%C). split.
  - intros i Hi. assert (i = O) by lia. subst i.
    rewrite matvec_1. now apply Cmul_div_cancel.
  - intros w' Hw' i Hi. assert (i = O) by lia. subst i.
    specialize (Hw' O Hi). rewrite matvec_1 in Hw'.
    now apply Cmul_eq_div.
Qed.

Lemma singular_1 (M : mat) : M O O = C0 -> ~ nonsingular 1 M.
Proof.
  intros HM H. destruct (H (fun _ => C1)) as [w [Hw _]].
  specialize (Hw O (Nat.lt_0_1)). rewrite matvec_1, HM, Cmul_0_l in Hw.
  apply RtoC_inj in Hw. lra.
Qed.

(** Where the matrix is non-singular, [solve_vec] is its solution. *)
Lemma solve_vec_spec (n : nat) (M : mat) (b : vec) :
  nonsingular n M -> solves n M b (solve_vec n M b).
Proof.
  intros H. unfold solve_vec. apply epsilon_spec.
  destruct (H b) as [w [Hw _]]. exists w. assumption.
Qed.

Lemma solve_vec_1 (M : mat) (b : vec) :
  M O O <> C0 -> solve_vec 1 M b O = (b O / M O O)%C.
Proof.
  intros HM. pose proof (@solve_vec_spec 1 M b (@nonsingular_1 M HM)) as H.
  specialize (H O (Nat.lt_0_1)). rewrite matvec_1 in H.
  now apply Cmul_eq_div.
Qed.

Lemma np_linalg_solve_ok (n_bins n : nat) (A : nat -> mat) (b : nat -> vec) :
  (forall f, (f < n_bins)%nat -> nonsingular n (A f)) ->
  np_linalg_solve n_bins n A b = Ok (fun f => solve_vec n (A f) (b f)).
Proof.
  intros H. unfold np_linalg_solve.
  destruct (excluded_middle_informative _) as [_ | K]; [reflexivity | contradiction].
Qed.

Lemma np_linalg_solve_inv (n_bins n : nat) (A : nat -> mat) (b : nat -> vec)
  (w : nat -> vec) :
  np_linalg_solve n_bins n A b = Ok w ->
  (forall f, (f < n_bins)%nat -> nonsingular n (A f)) /\
  w = fun f => solve_vec n (A f) (b f).
Proof.
  unfold np_linalg_solve.
  destruct (excluded_middle_informative _) as [K | K]; intros H; inversion H.
  split; [assumption | reflexivity].
Qed.

Lemma np_linalg_solve_singular (n_bins n : nat) (A : nat -> mat) (b : nat -> vec)
  (f : nat) :
  (f < n_bins)%nat -> ~ nonsingular n (A f) ->
  np_linalg_solve n_bins n A b = Err (LinAlgError "Singular matrix").
Proof.
  intros Hf H. unfold np_linalg_solve.
  destruct (excluded_middle_informative _) as [K | _]; [| reflexivity].
  exfalso. apply H, K, Hf.
Qed.

(** ** The condition number of a 1 x 1 matrix *)

Lemma is_cond_unique (n : nat) (M : mat) (c c' : R) :
  is_cond n M c -> is_cond n M c' -> c = c'.
Proof.
  intros [_ [Hb Hl]] [_ [Hb' Hl']].
  apply Rle_antisym; [apply Hl, Hb' | apply Hl', Hb].
Qed.

Lemma cond_is (n : nat) (M : mat) (c : R) : is_cond n M c -> cond n M = Some c.
Proof.
  intros H. unfold cond.
  destruct (excluded_middle_informative _) as [K | K].
  - f_equal. apply (@is_cond_unique n M); [| assumption].
    apply epsilon_spec. assumption.
  - exfalso. apply K. exists c. assumption.
Qed.

Lemma cond_singular (n : nat) (M : mat) (y : vec) :
  vnorm n y = 1 -> vnorm n (matvec n M y) = 0 -> cond n M = None.
Proof.
  intros Hy H0. unfold cond.
  destruct (excluded_middle_informative _) as [[c [Hp _]] | _]; [| reflexivity].
  specialize (Hp y Hy). lra.
Qed.

Lemma is_cond_1 (M : mat) : M O O <> C0 -> is_cond 1 M 1.
Proof.
  intros HM. pose proof (Cabs_pos HM) as Hpos.
  assert (E : forall y, vnorm 1 y = 1 -> vnorm 1 (matvec 1 M y) = Cabs (M O O)).
  { intros y Hy. rewrite vnorm_1 in *. rewrite matvec_1, Cabs_mul, Hy. ring. }
  repeat split.
  - intros y Hy. rewrite (E y Hy). assumption.
  - intros x y Hx Hy. rewrite (E x Hx), (E y Hy). lra.
  - intros c' Hc'.
    assert (Hu : vnorm 1 (fun _ => C1) = 1) by (rewrite vnorm_1; apply Cabs_C1).
    specialize (Hc' _ _ Hu Hu). rewrite (E _ Hu) in Hc'. nra.
Qed.

Lemma cond_1 (M : mat) : M O O <> C0 -> cond 1 M = Some 1.
Proof. intros HM. apply cond_is. now apply is_cond_1. Qed.

Lemma cond_1_singular (M : mat) : M O O = C0 -> cond 1 M = None.
Proof.
  intros HM. apply cond_singular with (y := fun _ => C1).
  - rewrite vnorm_1. apply Cabs_C1.
  - rewrite vnorm_1, matvec_1, HM, Cmul_0_l. unfold C0. apply Cabs_RtoC. lra.
Qed.

(* ------------------------------------------------------------------ *)
(** ** C5: one pass of the Gaussian spatial update *)

Lemma GaussILRMA_update_source_row_ok
  (U : nat -> nat -> nat -> nat -> C) (source_idx : nat) (s : ILRMA) :
  (forall f, (f < n_bins s)%nat ->
     nonsingular (n_channels s)
       (filter_WU (n_channels s) (demix_filter s) (U source_idx) f)) ->
  GaussILRMA_update_source_row U source_idx s
  = (set_demix_filter
       (set_row source_idx (demix_filter s)
          (ip_row (n_channels s) (threshold s) source_idx (demix_filter s)
             (U source_idx) (ip_solution s (U source_idx) source_idx))) s,
     Ok tt).
Proof.
  intros H. unfold GaussILRMA_update_source_row, bind, get, lift, modify.
  rewrite np_linalg_solve_ok by assumption. reflexivity.
Qed.

Lemma GaussILRMA_update_source_row_inv
  (U : nat -> nat -> nat -> nat -> C) (source_idx : nat) (s s' : ILRMA) :
  GaussILRMA_update_source_row U source_idx s = (s', Ok tt) ->
  (forall f, (f < n_bins s)%nat ->
     nonsingular (n_channels s)
       (filter_WU (n_channels s) (demix_filter s) (U source_idx) f)) /\
  s' = set_demix_filter
         (set_row source_idx (demix_filter s)
            (ip_row (n_channels s) (threshold s) source_idx (demix_filter s)
               (U source_idx) (ip_solution s (U source_idx) source_idx))) s.
Proof.
  intros H. unfold GaussILRMA_update_source_row, bind, get, lift, modify in H.
  destruct (np_linalg_solve _ _ _ _) as [w | e] eqn:E; [| discriminate].
  apply np_linalg_solve_inv in E. destruct E as [Hns ->].
  inversion H. split; [assumption | reflexivity].
Qed.

(** C5, as the program has it.  When the pass for source [source_idx]
    returns, there is for every bin [f] a solution [w f] of
    [M w = e] with [M = demix_filter[f] @ U[source_idx][f]] and [e] the
    unit vector of the source, such that: where the condition number of
    [M] is finite and below the threshold, the new row of the filter is
    [conj(w) / sqrt(w^H U w)]; where it is infinite, or equal to the
    threshold or above it, the row is the one the filter had; and the rows
    of the other sources are not written. *)
Theorem spatial_row_update
  (U : nat -> nat -> nat -> nat -> C) (source_idx : nat) (s s' : ILRMA) :
  GaussILRMA_update_source_row U source_idx s = (s', Ok tt) ->
  exists w : nat -> vec,
    (forall f, (f < n_bins s)%nat ->
       solves (n_channels s)
         (filter_WU (n_channels s) (demix_filter s) (U source_idx) f)
         (fun c => eye source_idx c) (w f)) /\
    (forall f c kappa,
       cond (n_channels s)
         (filter_WU (n_channels s) (demix_filter s) (U source_idx) f)
       = Some kappa ->
       kappa < threshold s ->
       demix_filter s' f source_idx c
       = (Cconj (w f c)
          / Csqrt (quad_wUw (n_channels s) (U source_idx) w f))%C) /\
    (forall f c,
       (cond (n_channels s)
          (filter_WU (n_channels s) (demix_filter s) (U source_idx) f) = None \/
        exists kappa,
          cond (n_channels s)
            (filter_WU (n_channels s) (demix_filter s) (U source_idx) f)
          = Some kappa /\ threshold s <= kappa) ->
       demix_filter s' f source_idx c = demix_filter s f source_idx c) /\
    (forall f r c,
       r <> source_idx -> demix_filter s' f r c = demix_filter s f r c).
Proof.
  intros H. apply GaussILRMA_update_source_row_inv in H.
  destruct H as [Hns ->].
  exists (ip_solution s (U source_idx) source_idx). repeat split.
  - intros f Hf. unfold ip_solution. apply solve_vec_spec. now apply Hns.
  - intros f c kappa Hc Hlt. cbn. unfold set_row. rewrite Nat.eqb_refl.
    unfold ip_row, cond_lt. rewrite Hc.
    destruct (Rlt_dec kappa (threshold s)); [reflexivity | contradiction].
  - intros f c Hc. cbn. unfold set_row. rewrite Nat.eqb_refl.
    unfold ip_row, cond_lt.
    destruct Hc as [Hc | [kappa [Hc Hge]]]; rewrite Hc; [reflexivity |].
    destruct (Rlt_dec kappa (threshold s)); [lra | reflexivity].
  - intros f r c Hr. cbn. unfold set_row.
    apply Nat.eqb_neq in Hr. rewrite Hr. reflexivity.
Qed.

(* ------------------------------------------------------------------ *)
(** ** What the methods store, unconstrained model *)

(** Stepping through a method without normalising the driver. *)
Lemma bind_modify {B : Type} (g : ILRMA -> ILRMA) (k : unit -> M B) (s : ILRMA) :
  bind (modify g) k s = k tt (g s).
Proof. reflexivity. Qed.

Lemma bind_get {B : Type} (k : ILRMA -> M B) (s : ILRMA) :
  bind get k s = k s s.
Proof. reflexivity. Qed.

Lemma bind_ret {A B : Type} (a : A) (k : A -> M B) (s : ILRMA) :
  bind (ret a) k s = k a s.
Proof. reflexivity. Qed.

Lemma bind_assoc {A B D : Type} (m : M A) (k : A -> M B) (h : B -> M D)
  (s : ILRMA) :
  bind (bind m k) h s = bind m (fun a => bind (k a) h) s.
Proof. unfold bind. destruct (m s) as [s1 [a | e]]; reflexivity. Qed.

Lemma reset_unconstrained_eq (X : carray3) (s : ILRMA) :
  partitioning s = false ->
  bind (modify (set_input (Some X))) (fun _ => _reset []) s
  = (reset_unconstrained X s, Ok tt).
Proof.
  intros HP. rewrite bind_modify. unfold _reset. rewrite bind_get.
  change (input (set_input (Some X) s)) with (Some X). cbv iota.
  rewrite bind_modify, bind_get. cbv zeta.
  rewrite !bind_modify.
  match goal with
  | |- context [if partitioning ?x then _ else _] =>
    replace (partitioning x) with false by (symmetry; exact HP)
  end.
  rewrite bind_modify. reflexivity.
Qed.

Lemma bind_get_input {B : Type} (k : carray3 -> M B) (s : ILRMA) (X : carray3) :
  input s = Some X -> bind get_input k s = k X s.
Proof.
  intros HX. unfold get_input. rewrite bind_assoc, bind_get, HX. reflexivity.
Qed.

Lemma model_psd_unconstrained (s : ILRMA) (T V : arr3) :
  partitioning s = false -> base s = Rank3 T -> activation s = Rank3 V ->
  model_psd s = (s, Ok (unc_psd (n_bases s) T V)).
Proof.
  intros HP HB HA. unfold model_psd. rewrite bind_get, HP, HB, HA. reflexivity.
Qed.

Lemma GaussILRMA_loss_unconstrained (s : ILRMA) (X : carray3) (T V : arr3) :
  input s = Some X ->
  partitioning s = false -> base s = Rank3 T -> activation s = Rank3 V ->
  GaussILRMA_compute_negative_loglikelihood s
  = (s, Ok (gauss_loss (n_sources s) (n_bins s) (n_frames s)
              (power (separate (n_channels s) (at3 X) (demix_filter s)))
              (floor3 (eps s) (unc_psd (n_bases s) T V))
              (demix_filter s))).
Proof.
  intros HX HP HB HA. unfold GaussILRMA_compute_negative_loglikelihood.
  rewrite bind_get, (@bind_get_input _ _ _ _ HX).
  rewrite (@bind_ok _ _ _ _ _ _ _ (@model_psd_unconstrained s T V HP HB HA)).
  reflexivity.
Qed.

Lemma GaussILRMA_update_source_model_unconstrained (s : ILRMA) (X : carray3)
  (T V : arr3) :
  input s = Some X ->
  partitioning s = false -> base s = Rank3 T -> activation s = Rank3 V ->
  let P := power (separate (n_channels s) (at3 X) (demix_filter s)) in
  let T' := unc_base (eps s) (n_frames s) (n_bases s) P T V in
  let V' := unc_activation (eps s) (n_bins s) (n_bases s) P T' V in
  GaussILRMA_update_source_model s
  = (set_activation (Rank3 V') (set_base (Rank3 T') s), Ok tt).
Proof.
  intros HX HP HB HA. unfold GaussILRMA_update_source_model.
  rewrite bind_get, (@bind_get_input _ _ _ _ HX). cbv zeta.
  rewrite HP, HB, HA. reflexivity.
Qed.

(** The spatial update with one source is one pass. *)
Lemma GaussILRMA_update_space_model_single (s : ILRMA) (X : carray3)
  (T V : arr3) :
  input s = Some X ->
  partitioning s = false -> base s = Rank3 T -> activation s = Rank3 V ->
  n_sources s = 1%nat ->
  let U := weighted_covariance (n_frames s) (at3 X)
             (floor3 (eps s) (unc_psd (n_bases s) T V)) in
  (forall f, (f < n_bins s)%nat ->
     nonsingular (n_channels s)
       (filter_WU (n_channels s) (demix_filter s) (U O) f)) ->
  GaussILRMA_update_space_model s
  = (set_demix_filter
       (set_row O (demix_filter s)
          (ip_row (n_channels s) (threshold s) O (demix_filter s)
             (U O) (ip_solution s (U O) O))) s,
     Ok tt).
Proof.
  intros HX HP HB HA HS U Hns. unfold GaussILRMA_update_space_model.
  rewrite bind_get, (@bind_get_input _ _ _ _ HX).
  rewrite (@bind_ok _ _ _ _ _ _ _ (@model_psd_unconstrained s T V HP HB HA)).
  cbv zeta. rewrite HS. unfold for_range, for_from. fold U.
  rewrite (@bind_ok _ _ _ _ _ _ _ (@GaussILRMA_update_source_row_ok U O s Hns)).
  reflexivity.
Qed.

Lemma GaussILRMA_normalize_power_unconstrained pb (s : ILRMA) (X : carray3)
  (T : arr3) :
  input s = Some X ->
  normalize s = PyStr "power" ->
  partitioning s = false -> base s = Rank3 T ->
  let Y := separate (n_channels s) (at3 X) (demix_filter s) in
  let aux := norm_aux (eps s) (n_bins s) (n_frames s) Y in
  GaussILRMA_normalize pb s
  = (set_base (Rank3 (norm_unc_base aux T))
       (set_estimation (scale_estimate aux Y)
          (set_demix_filter (scale_filter aux (demix_filter s))
             (set_estimation Y s))),
     Ok tt).
Proof.
  intros HX HN HP HB. unfold GaussILRMA_normalize.
  rewrite bind_get, (@bind_get_input _ _ _ _ HX). cbv zeta.
  rewrite bind_modify, HN, HP, HB. reflexivity.
Qed.

Lemma finish_call_ok pb (X : carray3) (s : ILRMA) (r : nat) (scale : carr2) :
  py_index (shape0 X) (reference_id s) = Some r ->
  pb (n_sources s) (n_bins s) (n_frames s)
     (separate (n_channels s) (at3 X) (demix_filter s))
     (fun f t => at3 X r f t) = Ok scale ->
  finish_call pb X s
  = (set_estimation
       (apply_scale scale (separate (n_channels s) (at3 X) (demix_filter s))) s,
     Ok (apply_scale scale (separate (n_channels s) (at3 X) (demix_filter s)))).
Proof.
  intros Hr Hpb.
  unfold finish_call, call_projection_back, bind, get, lift, modify.
  rewrite Hr, Hpb. reflexivity.
Qed.

(* ------------------------------------------------------------------ *)
(** ** A mixture of low power: one channel, one bin, one frame *)

Lemma separate_1 (X W : carr3) (s f t : nat) :
  separate 1 X W s f t = (W f s O * X O f t)%C.
Proof. unfold separate. simpl. apply Cadd_0_l. Qed.

Lemma power_RtoC (a : R) : Cabs (RtoC a) ^ 2 = a * a.
Proof. rewrite Cabs_sqr. unfold RtoC, Re, Im; simpl. ring. Qed.

Lemma det_1 (M : mat) : det 1 M = M O O.
Proof.
  unfold det, Csum, alt_sign. simpl.
  rewrite Cadd_0_l, Cmul_1_l, Cmul_1_r. reflexivity.
Qed.

Lemma gauss_loss_1 (P R_ : arr3) (W : carr3) :
  gauss_loss 1 1 1 P R_ W
  = P O O O / R_ O O O + ln (R_ O O O) - 2 * ln (Cabs (W O O O)).
Proof.
  unfold gauss_loss, sum3, log_abs_det. cbn [sum_n INR]. rewrite det_1. ring.
Qed.

Ltac floor_eval :=
  repeat match goal with
  | |- context [floor_at ?e ?a] =>
    first [ rewrite (@floor_at_id e a) by (unfold EPS; lra)
          | rewrite (@floor_at_low e a) by (unfold EPS; lra) ]
  end.

Ltac sqrt_eval c :=
  match goal with
  | |- context [sqrt ?a] =>
    replace (sqrt a) with c by (symmetry; apply sqrt_lem_1; lra)
  end.

(** The source update: from [P = 1.6e-19] and [T = V = 1/4]. *)
Lemma low_power_base (P T V : arr3) :
  P O O O = 1.6e-19 -> T O O O = 1 / 4 -> V O O O = 1 / 4 ->
  unc_base EPS 1 1 P T V O O O = 4e-10.
Proof.
  intros HP HT HV.
  unfold unc_base, unc_TVV, unc_division, unc_TV_inverse, unc_TV_squared, unc_TV.
  simpl sum_n. rewrite HP, HT, HV.
  floor_eval. sqrt_eval 1.6e-9. lra.
Qed.

Lemma low_power_activation (P T V : arr3) :
  P O O O = 1.6e-19 -> T O O O = 4e-10 -> V O O O = 1 / 4 ->
  unc_activation EPS 1 1 P T V O O O = 1e-5.
Proof.
  intros HP HT HV.
  unfold unc_activation, unc_TTV, unc_division, unc_TV_inverse,
    unc_TV_squared, unc_TV.
  simpl sum_n. rewrite HP, HT, HV.
  floor_eval. sqrt_eval 4e-5. lra.
Qed.

(** The density of the updated model is below [eps]: it is floored. *)
Lemma low_power_density (T V : arr3) :
  T O O O = 4e-10 -> V O O O = 1e-5 ->
  unc_psd 1 T V O O O = 4e-15 /\ floor3 EPS (unc_psd 1 T V) O O O = EPS.
Proof.
  intros HT HV. unfold floor3, unc_psd. simpl sum_n. rewrite HT, HV.
  split; [lra | apply floor_at_low; unfold EPS; lra].
Qed.

Lemma low_power_covariance (X : carr3) (R_ : arr3) :
  X O O O = RtoC 4e-10 -> R_ O O O = EPS ->
  weighted_covariance 1 X R_ O O O O = RtoC 1.6e-7.
Proof.
  intros HX HR. unfold weighted_covariance, outer_XX. simpl Csum.
  rewrite HX, HR, Cadd_0_l, RtoC_conj, RtoC_mul.
  rewrite !RtoC_div by (unfold EPS; simpl; lra).
  f_equal. unfold EPS. simpl. lra.
Qed.

Lemma filter_WU_1 (W : carr3) (U_n : nat -> nat -> nat -> C) (f s c : nat) :
  filter_WU 1 W U_n f s c = (W f s O * U_n f O c)%C.
Proof. unfold filter_WU. simpl. apply Cadd_0_l. Qed.

Lemma quad_wUw_1 (U_n : nat -> nat -> nat -> C) (w : nat -> vec) (f : nat) :
  quad_wUw 1 U_n w f = ((Cconj (w f O) * U_n f O O) * w f O)%C.
Proof. unfold quad_wUw. simpl. rewrite !Cadd_0_l. reflexivity. Qed.

(** The new row of the filter: from [W = 1] and [U = 1.6e-7]. *)
Lemma low_power_row (thr : R) (W : carr3) (U_n : nat -> nat -> nat -> C) :
  1 < thr ->
  W O O O = C1 -> U_n O O O = RtoC 1.6e-7 ->
  ip_row 1 thr O W U_n
    (fun f => solve_vec 1 (filter_WU 1 W U_n f) (fun c => eye O c)) O O
  = RtoC 2500.
Proof.
  intros Hthr HW HU.
  assert (HM : filter_WU 1 W U_n O O O = RtoC 1.6e-7)
    by (rewrite filter_WU_1, HW, HU; apply Cmul_1_l).
  assert (HM0 : filter_WU 1 W U_n O O O <> C0)
    by (rewrite HM; apply RtoC_nonzero; lra).
  assert (Hw : solve_vec 1 (filter_WU 1 W U_n O) (fun c => eye O c) O
               = RtoC 6.25e6).
  { rewrite solve_vec_1 by assumption. rewrite HM.
    change (eye O O) with (RtoC 1). rewrite RtoC_div by lra. f_equal. lra. }
  unfold ip_row, cond_lt. rewrite (@cond_1 _ HM0).
  destruct (Rlt_dec 1 thr) as [_ | K]; [| contradiction].
  unfold ip_denominator. rewrite quad_wUw_1, Hw, HU.
  rewrite RtoC_conj, !RtoC_mul, Csqrt_RtoC by lra.
  replace (sqrt (6.25e6 * 1.6e-7 * 6.25e6)) with 2500
    by (symmetry; apply sqrt_lem_1; lra).
  rewrite RtoC_div by lra. f_equal. lra.
Qed.

(** The scale of the power normalisation: from [Y = 1e-6]. *)
Lemma low_power_aux (Y : carr3) :
  Y O O O = RtoC 1e-6 -> norm_aux EPS 1 1 Y O = 1e-6.
Proof.
  intros HY. unfold norm_aux, rms, power. cbn [sum_n].
  rewrite HY, power_RtoC.
  change (INR (1 * 1)) with 1.
  replace (sqrt ((0 + (0 + 1e-6 * 1e-6)) / 1)) with 1e-6
    by (symmetry; apply sqrt_lem_1; lra).
  apply floor_at_id. unfold EPS. lra.
Qed.

(** ** Bounds on the logarithms *)

Lemma ln_2_lt_1 : ln 2 < 1.
Proof.
  rewrite <- (ln_exp 1). apply ln_increasing; [lra |].
  pose proof (exp_ineq1 1). lra.
Qed.

Lemma ln_pow_2 (n : nat) : ln (2 ^ n) = INR n * ln 2.
Proof.
  induction n as [| n IH].
  - simpl. rewrite ln_1. ring.
  - rewrite S_INR. change (2 ^ S n) with (2 * 2 ^ n).
    rewrite ln_mult by (try apply pow_lt; lra). rewrite IH. ring.
Qed.

Lemma ln_below_pow_2 (x : R) (n : nat) :
  0 < x -> x < 2 ^ n -> ln x < INR n.
Proof.
  intros Hx Hlt. apply Rlt_le_trans with (ln (2 ^ n)).
  - now apply ln_increasing.
  - rewrite ln_pow_2. pose proof ln_2_lt_1. pose proof (pos_INR n). nra.
Qed.

(** ** A call on the mixture of low power *)

Lemma reset_unconstrained_step (X : carray3) (s : ILRMA) :
  partitioning s = false ->
  _reset [] (set_input (Some X) s) = (reset_unconstrained X s, Ok tt).
Proof.
  intros HP. rewrite <- (@reset_unconstrained_eq X s HP), bind_modify. reflexivity.
Qed.

(** The call with one iteration returns; it appends a baseline between -4
    and 0 and then an entry above 178. *)
Lemma low_power_call (s : ILRMA) :
  low_power_ready s ->
  exists s' out L0 L1,
    GaussILRMA___call__ unit_projection_back None low_power_mixture 1 [] s
    = (s', Ok out) /\
    loss s' = loss s ++ [L0; L1] /\
    -4 < L0 /\ L0 < 0 /\ 178 < L1 /\
    low_power_ready s'.
Proof.
  destruct s as [eps0 input0 n_bases0 loss0 partitioning0 normalize0
                 reference_id0 threshold0 nu0 n_sources0 n_channels0 n_bins0
                 n_frames0 W_ Y_ Z_ B_ A_ rng0].
  unfold low_power_ready. cbn [eps threshold normalize partitioning n_bases
                               reference_id np_random].
  intros (-> & -> & -> & -> & -> & -> & Hrng).
  set (s := mkILRMA EPS input0 1 loss0 false (PyStr "power") 0 THRESHOLD nu0
              n_sources0 n_channels0 n_bins0 n_frames0 W_ Y_ Z_ B_ A_ rng0).
  set (X := low_power_mixture).
  (* the driver after [_reset], and the baseline *)
  set (s0 := reset_unconstrained X s).
  assert (E1 : _reset [] (set_input (Some X) s) = (s0, Ok tt))
    by (apply reset_unconstrained_step; reflexivity).
  set (T0 := rand3 rng0 1 1).
  set (V0 := rand3 (advance rng0 (1 * 1 * 1)) 1 1).
  set (P0 := power (separate 1 (at3 X) tiled_eye)).
  set (L0 := gauss_loss 1 1 1 P0 (floor3 EPS (unc_psd 1 T0 V0)) tiled_eye).
  assert (E2 : GaussILRMA_compute_negative_loglikelihood s0 = (s0, Ok L0))
    by (exact (@GaussILRMA_loss_unconstrained s0 X T0 V0
                 eq_refl eq_refl eq_refl eq_refl)).
  set (s0' := append_loss L0 s0).
  (* the source update *)
  set (T1 := unc_base EPS 1 1 P0 T0 V0).
  set (V1 := unc_activation EPS 1 1 P0 T1 V0).
  set (s1 := set_activation (Rank3 V1) (set_base (Rank3 T1) s0')).
  assert (E3 : GaussILRMA_update_source_model s0' = (s1, Ok tt))
    by (exact (@GaussILRMA_update_source_model_unconstrained s0' X T0 V0
                 eq_refl eq_refl eq_refl eq_refl)).
  (* the values so far *)
  assert (HX : at3 X O O O = RtoC 4e-10) by reflexivity.
  assert (HP0 : P0 O O O = 1.6e-19).
  { unfold P0, power. rewrite separate_1, HX.
    change (tiled_eye O O O) with C1. rewrite Cmul_1_l, power_RtoC. lra. }
  assert (HT0 : T0 O O O = 1 / 4) by (exact (Hrng O)).
  assert (HV0 : V0 O O O = 1 / 4) by (exact (Hrng 1%nat)).
  assert (HT1 : T1 O O O = 4e-10) by (now apply low_power_base).
  assert (HV1 : V1 O O O = 1e-5) by (now apply low_power_activation).
  destruct (low_power_density T1 V1 HT1 HV1) as [_ HR1].
  (* the spatial update *)
  set (U := weighted_covariance 1 (at3 X) (floor3 EPS (unc_psd 1 T1 V1))).
  assert (HU : U O O O O = RtoC 1.6e-7) by (now apply low_power_covariance).
  set (W1 := set_row O tiled_eye
               (ip_row 1 THRESHOLD O tiled_eye (U O) (ip_solution s1 (U O) O))).
  set (s2 := set_demix_filter W1 s1).
  assert (E4 : GaussILRMA_update_space_model s1 = (s2, Ok tt)).
  { refine (@GaussILRMA_update_space_model_single s1 X T1 V1
              eq_refl eq_refl eq_refl eq_refl eq_refl _).
    intros f Hf. change (n_bins s1) with 1%nat in Hf.
    assert (f = O) by lia. subst f.
    apply nonsingular_1.
    change (filter_WU 1 tiled_eye (U O) O O O <> C0).
    rewrite filter_WU_1, HU. change (tiled_eye O O O) with C1.
    rewrite Cmul_1_l. apply RtoC_nonzero. lra. }
  assert (HW1 : W1 O O O = RtoC 2500).
  { change (W1 O O O)
      with (ip_row 1 THRESHOLD O tiled_eye (U O)
              (fun f => solve_vec 1 (filter_WU 1 tiled_eye (U O) f)
                          (fun c => eye O c)) O O).
    apply low_power_row; [unfold THRESHOLD; lra | reflexivity | exact HU]. }
  (* the normalisation *)
  set (Y1 := separate 1 (at3 X) W1).
  set (aux := norm_aux EPS 1 1 Y1).
  set (W2 := scale_filter aux W1).
  set (T2 := norm_unc_base aux T1).
  set (s3 := set_base (Rank3 T2)
               (set_estimation (scale_estimate aux Y1)
                  (set_demix_filter W2 (set_estimation Y1 s2)))).
  assert (E5 : GaussILRMA_normalize unit_projection_back s2 = (s3, Ok tt))
    by (exact (@GaussILRMA_normalize_power_unconstrained unit_projection_back
                 s2 X T1 eq_refl eq_refl eq_refl eq_refl)).
  assert (HY1 : Y1 O O O = RtoC 1e-6).
  { unfold Y1. rewrite separate_1, HW1, HX, RtoC_mul. f_equal. lra. }
  assert (Haux : aux O = 1e-6) by (now apply low_power_aux).
  assert (HW2 : W2 O O O = RtoC 2.5e9).
  { unfold W2, scale_filter. rewrite HW1, Haux, RtoC_div by lra. f_equal. lra. }
  assert (HT2 : T2 O O O = 400).
  { unfold T2, norm_unc_base. rewrite HT1, Haux. lra. }
  (* the second entry *)
  set (L1 := gauss_loss 1 1 1 (power (separate 1 (at3 X) W2))
               (floor3 EPS (unc_psd 1 T2 V1)) W2).
  assert (E6 : GaussILRMA_compute_negative_loglikelihood s3 = (s3, Ok L1))
    by (exact (@GaussILRMA_loss_unconstrained s3 X T2 V1
                 eq_refl eq_refl eq_refl eq_refl)).
  set (s3' := append_loss L1 s3).
  set (out := apply_scale (fun _ _ => C1) (separate 1 (at3 X) W2)).
  set (s4 := set_estimation out s3').
  assert (E7 : finish_call unit_projection_back X s3' = (s4, Ok out))
    by (exact (@finish_call_ok unit_projection_back X s3' O (fun _ _ => C1)
                 eq_refl eq_refl)).
  exists s4, out, L0, L1. split; [| split; [| split; [| split; [| split]]]].
  - unfold GaussILRMA___call__. rewrite bind_modify.
    rewrite (@bind_ok _ _ _ _ _ _ _ E1). cbv beta.
    rewrite (@bind_ok _ _ _ _ _ _ _ E2). cbv beta.
    rewrite bind_modify. fold s0'.
    change (Z.to_nat 1) with 1%nat. unfold for_range, for_from.
    rewrite ?bind_assoc.
    unfold GaussILRMA_iteration, GaussILRMA_update_once.
    rewrite ?bind_assoc.
    rewrite (@bind_ok _ _ _ _ _ _ _ E3). cbv beta. rewrite ?bind_assoc.
    rewrite (@bind_ok _ _ _ _ _ _ _ E4). cbv beta. rewrite ?bind_assoc.
    rewrite (@bind_ok _ _ _ _ _ _ _ E5). cbv beta. rewrite ?bind_assoc.
    rewrite (@bind_ok _ _ _ _ _ _ _ E6). cbv beta.
    rewrite ?bind_assoc, bind_modify. fold s3'.
    unfold run_callback. rewrite !bind_ret. exact E7.
  - change (loss s4) with ((loss0 ++ [L0]) ++ [L1]).
    rewrite <- app_assoc. reflexivity.
  - (* -4 < L0 *)
    unfold L0. rewrite gauss_loss_1.
    change (tiled_eye O O O) with C1. rewrite Cabs_C1, ln_1.
    unfold floor3, unc_psd. cbn [sum_n]. rewrite HP0, HT0, HV0.
    rewrite floor_at_id by (unfold EPS; lra).
    replace (0 + 1 / 4 * (1 / 4)) with (/ 2 ^ 4) by (simpl; lra).
    rewrite ln_Rinv by (apply pow_lt; lra). rewrite ln_pow_2.
    pose proof ln_2_lt_1. simpl INR. simpl pow. lra.
  - (* L0 < 0 *)
    unfold L0. rewrite gauss_loss_1.
    change (tiled_eye O O O) with C1. rewrite Cabs_C1, ln_1.
    unfold floor3, unc_psd. cbn [sum_n]. rewrite HP0, HT0, HV0.
    rewrite floor_at_id by (unfold EPS; lra).
    replace (0 + 1 / 4 * (1 / 4)) with (/ 2 ^ 4) by (simpl; lra).
    rewrite ln_Rinv by (apply pow_lt; lra). rewrite ln_pow_2.
    pose proof ln_lt_2. simpl INR. simpl pow. lra.
  - (* 178 < L1 *)
    unfold L1. rewrite gauss_loss_1.
    unfold power. rewrite separate_1, HW2, HX, RtoC_mul, power_RtoC.
    rewrite Cabs_RtoC by lra.
    unfold floor3, unc_psd. cbn [sum_n]. rewrite HT2, HV1.
    rewrite floor_at_id by (unfold EPS; lra).
    replace (0 + 400 * 1e-5) with (/ 250) by lra.
    rewrite ln_Rinv by lra.
    assert (ln 250 < INR 8) by (apply ln_below_pow_2; simpl; lra).
    assert (ln 2.5e9 < INR 32) by (apply ln_below_pow_2; simpl; lra).
    simpl INR in *. lra.
  - unfold low_power_ready. repeat split. intros i. apply Hrng.
Qed.

(* ------------------------------------------------------------------ *)
(** ** C1: the loss of a mixture of low power *)

Lemma low_power_driver_ready : low_power_ready low_power_driver.
Proof. unfold low_power_ready. repeat split. Qed.

(** C1 on the program: a mixture of one channel, one bin and one frame of
    amplitude 4e-10, one basis, [base] and [activation] drawn as 1/4, the
    defaults for the rest, one iteration.  The call returns; the baseline
    is negative and the entry after the iteration is above 178, so the
    trajectory goes up, by far more than the tolerance. *)
Theorem low_power_loss_increases :
  GaussILRMA___init__ rng_quarter 1 false (PyStr "power") 0 EPS THRESHOLD
  = Ok low_power_driver /\
  exists s' out L0 L1,
    GaussILRMA___call__ unit_projection_back None low_power_mixture 1 []
      low_power_driver = (s', Ok out) /\
    loss s' = [L0; L1] /\
    L0 < 0 /\ 178 < L1 /\
    ~ non_increasing_within 1e-6 (loss s').
Proof.
  split; [reflexivity |].
  destruct (low_power_call low_power_driver_ready)
    as (s' & out & L0 & L1 & Hcall & Hloss & Hlow & Hneg & Hbig & _).
  exists s', out, L0, L1.
  change (loss low_power_driver) with (@nil R) in Hloss. simpl in Hloss.
  repeat split; try assumption.
  rewrite Hloss. simpl. intros [H _].
  assert (Rabs L0 < 4) by (apply Rabs_def1; lra).
  lra.
Qed.

(* ------------------------------------------------------------------ *)
(** ** Runs that return: C9 and C10 at the mixture of low power *)

Lemma call_appends_baseline_and_iterations_witness :
  exists s' out,
    GaussILRMA___call__ unit_projection_back None low_power_mixture 1 []
      low_power_driver = (s', Ok out) /\
    List.length (loss s')
    = (List.length (loss low_power_driver) + (Z.to_nat 1 + 1))%nat.
Proof.
  destruct (low_power_call low_power_driver_ready)
    as (s' & out & L0 & L1 & Hcall & _).
  exists s', out. split; [exact Hcall |].
  exact (proj1 (proj2
           (@call_appends_baseline_and_iterations unit_projection_back None
              low_power_mixture 1 [] low_power_driver s' out Hcall) eq_refl)).
Defined.

Lemma trajectory_accumulates_over_calls_witness :
  exists s' outs segments,
    successive_calls unit_projection_back None
      [(low_power_mixture, 1%Z, []); (low_power_mixture, 1%Z, [])]
      low_power_driver = (s', Ok outs) /\
    loss s' = loss low_power_driver ++ List.concat segments /\
    map (@List.length R) segments = [2%nat; 2%nat] /\
    List.length (loss s') = (List.length (loss low_power_driver) + 4)%nat.
Proof.
  destruct (low_power_call low_power_driver_ready)
    as (s1 & out1 & L0 & L1 & Hcall1 & _ & _ & _ & _ & Hready).
  destruct (low_power_call Hready)
    as (s2 & out2 & L2 & L3 & Hcall2 & _).
  assert (Hruns : successive_calls unit_projection_back None
                    [(low_power_mixture, 1%Z, []); (low_power_mixture, 1%Z, [])]
                    low_power_driver = (s2, Ok [out1; out2])).
  { simpl successive_calls.
    rewrite (@bind_ok _ _ _ _ _ _ _ Hcall1). cbv beta.
    rewrite ?bind_assoc.
    rewrite (@bind_ok _ _ _ _ _ _ _ Hcall2). reflexivity. }
  destruct (proj2 (proj2 trajectory_accumulates_over_calls)
              unit_projection_back None
              [(low_power_mixture, 1%Z, []); (low_power_mixture, 1%Z, [])]
              low_power_driver s2 [out1; out2] eq_refl Hruns)
    as (segments & Hs & Hm & Hl).
  exists s2, [out1; out2], segments.
  split; [exact Hruns |]. split; [exact Hs |]. split; [exact Hm | exact Hl].
Defined.

(* ------------------------------------------------------------------ *)
(** ** The spatial update at the threshold and on a silent mixture *)

Lemma Cdiv_0_l (w : C) : (C0 / w)%C = C0.
Proof.
  apply C_eq; unfold Cdiv, C0, RtoC, Re, Im; simpl; unfold Rdiv; ring.
Qed.

(** The spatial update with one source, when a bin has a singular matrix. *)
Lemma GaussILRMA_update_space_model_singular (s : ILRMA) (X : carray3)
  (T V : arr3) (f : nat) :
  input s = Some X ->
  partitioning s = false -> base s = Rank3 T -> activation s = Rank3 V ->
  n_sources s = 1%nat ->
  (f < n_bins s)%nat ->
  ~ nonsingular (n_channels s)
      (filter_WU (n_channels s) (demix_filter s)
         (weighted_covariance (n_frames s) (at3 X)
            (floor3 (eps s) (unc_psd (n_bases s) T V)) O) f) ->
  GaussILRMA_update_space_model s = (s, Err (LinAlgError "Singular matrix")).
Proof.
  intros HX HP HB HA HS Hf Hsing. unfold GaussILRMA_update_space_model.
  rewrite bind_get, (@bind_get_input _ _ _ _ HX).
  rewrite (@bind_ok _ _ _ _ _ _ _ (@model_psd_unconstrained s T V HP HB HA)).
  cbv zeta. rewrite HS. unfold for_range, for_from.
  unfold GaussILRMA_update_source_row. rewrite ?bind_assoc, bind_get.
  unfold lift. unfold bind.
  rewrite (@np_linalg_solve_singular _ _ _ _ f Hf Hsing). reflexivity.
Qed.

Lemma boundary_U_value : boundary_U O O O O = RtoC 4.
Proof.
  unfold boundary_U, weighted_covariance, outer_XX. cbn [Csum].
  change (at3 half_mixture O O O) with (RtoC (1 / 2)).
  assert (HR : floor3 EPS (unc_psd 1 (rand3 rng_quarter 1 1)
                             (rand3 (advance rng_quarter (1 * 1 * 1)) 1 1))
                 O O O = 1 / 16).
  { unfold floor3, unc_psd. cbn [sum_n].
    change (rand3 rng_quarter 1 1 O O O) with (1 / 4).
    change (rand3 (advance rng_quarter (1 * 1 * 1)) 1 1 O O O) with (1 / 4).
    rewrite floor_at_id by (unfold EPS; lra). lra. }
  rewrite HR, Cadd_0_l, RtoC_conj, RtoC_mul.
  rewrite !RtoC_div by (simpl; lra). f_equal. simpl. lra.
Qed.

Lemma boundary_M_value : boundary_M O O = RtoC 4.
Proof.
  unfold boundary_M. rewrite filter_WU_1, boundary_U_value.
  change (tiled_eye O O O) with C1. apply Cmul_1_l.
Qed.

Lemma silent_M_value : silent_M O O = C0.
Proof.
  unfold silent_M. rewrite filter_WU_1.
  unfold weighted_covariance, outer_XX. cbn [Csum].
  change (at3 silent_mixture O O O) with C0.
  rewrite Cmul_0_l, Cadd_0_l, !Cdiv_0_l. apply Cmul_0_r.
Qed.

(** Two runs of the spatial update against C5.  With [threshold=1] the
    matrix of the only bin has condition number 1, which does not exceed
    the threshold, and the row keeps its value 1 although the solution of
    [M w = e] gives [conj(w) / sqrt(w^H U w) = 1/2].  On the silent mixture
    the matrix is singular, its condition number is infinite, and the
    update raises [LinAlgError]. *)
Lemma spatial_update_at_threshold_and_singular :
  (exists s',
     GaussILRMA_update_space_model boundary_start = (s', Ok tt) /\
     cond 1 boundary_M = Some 1 /\
     threshold boundary_start = 1 /\
     demix_filter s' O O O = C1 /\
     demix_filter s' O O O <> RtoC (1 / 2) /\
     forall w : vec,
       solves 1 boundary_M (fun c => eye O c) w ->
       (Cconj (w O) / Csqrt (quad_wUw 1 (boundary_U O) (fun _ => w) O))%C
       = RtoC (1 / 2)) /\
  (cond 1 silent_M = None /\
   GaussILRMA_update_space_model silent_unconstrained_start
   = (silent_unconstrained_start, Err (LinAlgError "Singular matrix"))).
Proof.
  assert (HM0 : boundary_M O O <> C0)
    by (rewrite boundary_M_value; apply RtoC_nonzero; lra).
  split.
  - eexists. split; [| split; [| split; [| split; [| split]]]].
    + refine (@GaussILRMA_update_space_model_single boundary_start
                half_mixture _ _ eq_refl eq_refl eq_refl eq_refl eq_refl _).
      intros f Hf. change (n_bins boundary_start) with 1%nat in Hf.
      assert (f = O) by lia. subst f.
      apply nonsingular_1. exact HM0.
    + now apply cond_1.
    + reflexivity.
    + change (ip_row 1 1 O tiled_eye (boundary_U O)
                (ip_solution boundary_start (boundary_U O) O) O O = C1).
      unfold ip_row, cond_lt. fold boundary_M. rewrite (@cond_1 _ HM0).
      destruct (Rlt_dec 1 1) as [K | _]; [lra | reflexivity].
    + change (ip_row 1 1 O tiled_eye (boundary_U O)
                (ip_solution boundary_start (boundary_U O) O) O O
              <> RtoC (1 / 2)).
      unfold ip_row, cond_lt. fold boundary_M. rewrite (@cond_1 _ HM0).
      destruct (Rlt_dec 1 1) as [K | _]; [lra |].
      change (tiled_eye O O O) with (RtoC 1). intros H.
      apply RtoC_inj in H. lra.
    + intros w Hw. specialize (Hw O Nat.lt_0_1).
      rewrite matvec_1 in Hw. apply (Cmul_eq_div HM0) in Hw.
      rewrite boundary_M_value in Hw. change (eye O O) with (RtoC 1) in Hw.
      rewrite RtoC_div in Hw by lra.
      rewrite quad_wUw_1, Hw, boundary_U_value.
      rewrite RtoC_conj, !RtoC_mul, Csqrt_RtoC by lra.
      replace (sqrt (1 / 4 * 4 * (1 / 4))) with (1 / 2)
        by (symmetry; apply sqrt_lem_1; lra).
      rewrite RtoC_div by lra. f_equal. lra.
  - split.
    + apply cond_1_singular. exact silent_M_value.
    + refine (@GaussILRMA_update_space_model_singular
                silent_unconstrained_start silent_mixture _ _ O
                eq_refl eq_refl eq_refl eq_refl eq_refl _ _).
      * change (n_bins silent_unconstrained_start) with 1%nat. lia.
      * apply singular_1. exact silent_M_value.
Qed.

Lemma spatial_row_update_witness :
  exists w : nat -> vec,
    (forall f, (f < 1)%nat -> solves 1 (boundary_M) (fun c => eye O c) (w f)) /\
    demix_filter
      (fst (GaussILRMA_update_source_row boundary_U O boundary_start)) O O O
    = demix_filter boundary_start O O O.
Proof.
  assert (HM0 : boundary_M O O <> C0)
    by (rewrite boundary_M_value; apply RtoC_nonzero; lra).
  assert (Hns : forall f, (f < n_bins boundary_start)%nat ->
            nonsingular (n_channels boundary_start)
              (filter_WU (n_channels boundary_start)
                 (demix_filter boundary_start) (boundary_U O) f)).
  { intros f Hf. change (n_bins boundary_start) with 1%nat in Hf.
    assert (f = O) by lia. subst f. apply nonsingular_1. exact HM0. }
  pose proof (@GaussILRMA_update_source_row_ok boundary_U O boundary_start Hns)
    as Hrow.
  destruct (@spatial_row_update boundary_U O boundary_start _ Hrow)
    as (w & Hsol & _ & Hkeep & _).
  exists w. split.
  - intros f Hf. assert (f = O) by lia. subst f. exact (Hsol O Nat.lt_0_1).
  - rewrite Hrow. apply Hkeep. right. exists 1. split.
    + now apply cond_1.
    + change (threshold boundary_start) with 1. lra.
Defined.

(* ------------------------------------------------------------------ *)
(** ** A mixture of unit power: the normalisation and the partition *)

Lemma unit_power (W : carr3) :
  W O O O = C1 -> power (separate 1 (at3 unit_mixture) W) O O O = 1.
Proof.
  intros HW. unfold power. rewrite separate_1, HW.
  change (at3 unit_mixture O O O) with C1. rewrite Cmul_1_l.
  unfold C1. rewrite power_RtoC. ring.
Qed.

Lemma unit_rms (W : carr3) :
  W O O O = C1 -> rms 1 1 (separate 1 (at3 unit_mixture) W) O = 1.
Proof.
  intros HW. unfold rms. cbn [sum_n]. rewrite (@unit_power W HW).
  change (INR (1 * 1)) with 1.
  replace ((0 + (0 + 1)) / 1) with 1 by lra. apply sqrt_1.
Qed.

Lemma EPS_pos : 0 < EPS.
Proof. unfold EPS. lra. Qed.

Lemma power_normalization_unit_rms_witness :
  rms (n_bins unit_start) (n_frames unit_start)
    (estimation (fst (GaussILRMA_normalize unit_projection_back unit_start))) O
  = 1 /\
  Rabs (rms (n_bins unit_start) (n_frames unit_start)
          (estimation (fst (GaussILRMA_normalize unit_projection_back unit_start)))
          O - 1)
  <= eps unit_start.
Proof.
  apply (@power_normalization_unit_rms unit_projection_back unit_start
           (fst (GaussILRMA_normalize unit_projection_back unit_start))
           unit_mixture O).
  - reflexivity.
  - reflexivity.
  - exact EPS_pos.
  - rewrite (@GaussILRMA_normalize_power_unconstrained unit_projection_back
               unit_start unit_mixture _ eq_refl eq_refl eq_refl eq_refl).
    reflexivity.
  - change (EPS <= rms 1 1 (separate 1 (at3 unit_mixture) tiled_eye) O).
    rewrite unit_rms by reflexivity. unfold EPS. lra.
Defined.

Lemma reset_partitioned_eq (X : carray3) (s : ILRMA) :
  partitioning s = true ->
  bind (modify (set_input (Some X))) (fun _ => _reset []) s
  = (reset_partitioned X s, Ok tt).
Proof.
  intros HP. rewrite bind_modify. unfold _reset. rewrite bind_get.
  change (input (set_input (Some X) s)) with (Some X). cbv iota.
  rewrite bind_modify, bind_get. cbv zeta.
  rewrite !bind_modify.
  match goal with
  | |- context [if partitioning ?x then _ else _] =>
    replace (partitioning x) with true by (symmetry; exact HP)
  end.
  rewrite !bind_modify. reflexivity.
Qed.

Lemma model_psd_partitioned (s : ILRMA) (T V : arr2) :
  partitioning s = true -> base s = Rank2 T -> activation s = Rank2 V ->
  model_psd s = (s, Ok (par_psd (n_bases s) (latent s) T V)).
Proof.
  intros HP HB HA. unfold model_psd. rewrite bind_get, HP, HB, HA. reflexivity.
Qed.

(** The spatial update with one source, for the density [R_] of the
    model. *)
Lemma GaussILRMA_update_space_model_one_source (s : ILRMA) (X : carray3)
  (R_ : arr3) :
  input s = Some X ->
  model_psd s = (s, Ok R_) ->
  n_sources s = 1%nat ->
  let U := weighted_covariance (n_frames s) (at3 X) (floor3 (eps s) R_) in
  (forall f, (f < n_bins s)%nat ->
     nonsingular (n_channels s)
       (filter_WU (n_channels s) (demix_filter s) (U O) f)) ->
  GaussILRMA_update_space_model s
  = (set_demix_filter
       (set_row O (demix_filter s)
          (ip_row (n_channels s) (threshold s) O (demix_filter s)
             (U O) (ip_solution s (U O) O))) s,
     Ok tt).
Proof.
  intros HX HR HS U Hns. unfold GaussILRMA_update_space_model.
  rewrite bind_get, (@bind_get_input _ _ _ _ HX).
  rewrite (@bind_ok _ _ _ _ _ _ _ HR).
  cbv zeta. rewrite HS. unfold for_range, for_from. fold U.
  rewrite (@bind_ok _ _ _ _ _ _ _ (@GaussILRMA_update_source_row_ok U O s Hns)).
  reflexivity.
Qed.

Lemma GaussILRMA_normalize_power_partitioned pb (s : ILRMA) (X : carray3)
  (T : arr2) :
  input s = Some X ->
  normalize s = PyStr "power" ->
  partitioning s = true -> base s = Rank2 T ->
  let Y := separate (n_channels s) (at3 X) (demix_filter s) in
  let aux := norm_aux (eps s) (n_bins s) (n_frames s) Y in
  GaussILRMA_normalize pb s
  = (set_base (Rank2 (norm_par_base (n_sources s) aux (latent s) T))
       (set_estimation (scale_estimate aux Y)
          (set_demix_filter (scale_filter aux (demix_filter s))
             (set_latent (norm_par_latent (n_sources s) aux (latent s))
                (set_estimation Y s)))),
     Ok tt).
Proof.
  intros HX HN HP HB. unfold GaussILRMA_normalize.
  rewrite bind_get, (@bind_get_input _ _ _ _ HX). cbv zeta.
  rewrite bind_modify, HN, HP, HB. reflexivity.
Qed.

Lemma partitioned_driver_constructed :
  GaussILRMA___init__ rng_quarter 1 true (PyStr "power") 0 EPS THRESHOLD
  = Ok partitioned_driver.
Proof. reflexivity. Qed.

Lemma silent_start_reset :
  silent_start = reset_partitioned silent_mixture partitioned_driver.
Proof. reflexivity. Qed.

Lemma partitioned_start_latent_sum :
  par_latent_sum EPS 1 1 1 1
    (power (separate 1 (at3 unit_mixture) tiled_eye))
    (fun _ _ => 1 / INR 1) (rand2 rng_quarter 1)
    (rand2 (advance rng_quarter (1 * 1)) 1) O = 4.
Proof.
  unfold par_latent_sum, par_latent_sqrt, par_latent_numerator,
    par_latent_denominator, par_division, par_ZTV_inverse, par_ZTV_squared,
    par_ZTV.
  cbn [sum_n]. rewrite unit_power by reflexivity.
  change (rand2 rng_quarter 1 O O) with (1 / 4).
  change (rand2 (advance rng_quarter (1 * 1)) 1 O O) with (1 / 4).
  change (INR 1) with 1.
  floor_eval. sqrt_eval 4. lra.
Qed.

Lemma partition_invariant_after_updates_witness :
  exists s1 s2 s3,
    GaussILRMA_update_source_model partitioned_start = (s1, Ok tt) /\
    GaussILRMA_update_space_model s1 = (s2, Ok tt) /\
    GaussILRMA_normalize unit_projection_back s2 = (s3, Ok tt) /\
    partition_invariant s1 /\ partition_invariant s3.
Proof.
  set (X := unit_mixture).
  set (T0 := rand2 rng_quarter 1).
  set (V0 := rand2 (advance rng_quarter (1 * 1)) 1).
  pose proof (@GaussILRMA_update_source_model_partitioned partitioned_start
                X T0 V0 eq_refl eq_refl eq_refl eq_refl) as E1.
  cbv zeta in E1.
  match type of E1 with _ = (?st, _) => set (s1 := st) in * end.
  assert (E2 : exists s2, GaussILRMA_update_space_model s1 = (s2, Ok tt)).
  { eexists.
    refine (@GaussILRMA_update_space_model_one_source s1 X _ eq_refl
              (@model_psd_partitioned s1 _ _ eq_refl eq_refl eq_refl)
              eq_refl _).
    intros f Hf. change (n_bins s1) with 1%nat in Hf.
    assert (f = O) by lia. subst f.
    apply nonsingular_1.
    change (n_channels s1) with 1%nat. change (n_frames s1) with 1%nat.
    change (demix_filter s1) with tiled_eye.
    rewrite filter_WU_1. change (tiled_eye O O O) with C1. rewrite Cmul_1_l.
    unfold weighted_covariance, outer_XX. cbn [Csum].
    change (at3 X O O O) with (RtoC 1). change (INR 1) with 1.
    match goal with
    | |- context [floor3 ?e ?A O O O] => set (r := floor3 e A O O O)
    end.
    assert (Hr : 0 < r).
    { unfold r, floor3.
      match goal with
      | |- 0 < floor_at ?e ?a =>
        apply Rlt_le_trans with e;
          [change (0 < EPS); exact EPS_pos | apply floor_at_ge]
      end. }
    rewrite Cadd_0_l, RtoC_conj, RtoC_mul, !RtoC_div by lra.
    apply RtoC_nonzero.
    assert (0 < / r) by (now apply Rinv_0_lt_compat).
    unfold Rdiv. rewrite Rinv_1. lra. }
  destruct E2 as [s2 E2].
  assert (HI2 : input s2 = Some X).
  { rewrite (keeps_GaussILRMA_update_space_model input_model_independent _ E2).
    reflexivity. }
  assert (HN2 : normalize s2 = PyStr "power").
  { rewrite (keeps_GaussILRMA_update_space_model normalize_model_independent _ E2).
    reflexivity. }
  assert (HP2 : partitioning s2 = true).
  { rewrite (keeps_GaussILRMA_update_space_model partitioning_model_independent _ E2).
    reflexivity. }
  assert (HB2 : base s2 = base s1).
  { exact (@keeps_GaussILRMA_update_space_model_filter _ base
             (fun _ _ => eq_refl) _ _ _ E2). }
  pose proof (@GaussILRMA_normalize_power_partitioned unit_projection_back
                s2 X _ HI2 HN2 HP2 HB2) as E3.
  cbv zeta in E3.
  match type of E3 with _ = (?st, _) => set (s3 := st) in * end.
  exists s1, s2, s3.
  split; [exact E1 |]. split; [exact E2 |]. split; [exact E3 |].
  apply (@partition_invariant_after_updates unit_projection_back
           partitioned_start s1 s2 s3 X T0 V0);
    try reflexivity; try assumption.
  - exact EPS_pos.
  - intros f k _ _. change (0 <= 1 / 4). lra.
  - intros k t _ _. change (0 <= 1 / 4). lra.
  - intros k Hk. change (n_bases partitioned_start) with 1%nat in Hk.
    assert (k = O) by lia. subst k.
    change (par_latent_sum EPS 1 1 1 1
              (power (separate 1 (at3 unit_mixture) tiled_eye))
              (fun _ _ => 1 / INR 1) (rand2 rng_quarter 1)
              (rand2 (advance rng_quarter (1 * 1)) 1) O <> 0).
    rewrite partitioned_start_latent_sum. lra.
Defined.

(* ------------------------------------------------------------------ *)
(** ** The statements above at concrete drivers *)

(** The partitioned driver with ['projection-back'] normalisation at the
    start of a call on [unit_mixture]: [update_once] raises. *)
Lemma projection_back_partitioning_rejected_witness :
  partitioning
    (reset_partitioned unit_mixture
       (set_normalize (PyStr "projection-back") partitioned_driver)) = true /\
  exists s' e,
    GaussILRMA_update_once unit_projection_back
      (reset_partitioned unit_mixture
         (set_normalize (PyStr "projection-back") partitioned_driver))
    = (s', Err e).
Proof.
  split; [reflexivity |].
  exact (proj1 (proj2 projection_back_partitioning_rejected_in_update_once)
           unit_projection_back
           (reset_partitioned unit_mixture
              (set_normalize (PyStr "projection-back") partitioned_driver))
           eq_refl eq_refl).
Defined.

(** Before any input is set, [tILRMA.update_once] raises a [TypeError],
    not a [NotImplementedError]. *)
Lemma unimplemented_variants_witness :
  tILRMA_update_once low_power_driver
  = (low_power_driver, Err (TypeError "'NoneType' object is not subscriptable")) /\
  (forall msg,
     TypeError "'NoneType' object is not subscriptable" <> NotImplementedError msg).
Proof.
  assert (H : tILRMA_update_once low_power_driver
              = (low_power_driver,
                 Err (TypeError "'NoneType' object is not subscriptable")))
    by reflexivity.
  split; [exact H |].
  destruct unimplemented_variants as (_ & _ & _ & _ & K).
  exact (K low_power_driver low_power_driver _ H).
Defined.

(* ------------------------------------------------------------------ *)
(** ** Calls that return where the specification expects a failure *)

Lemma reset_partitioned_step (X : carray3) (s : ILRMA) :
  partitioning s = true ->
  _reset [] (set_input (Some X) s) = (reset_partitioned X s, Ok tt).
Proof.
  intros HP. rewrite <- (@reset_partitioned_eq X s HP), bind_modify. reflexivity.
Qed.

Lemma GaussILRMA_loss_partitioned (s : ILRMA) (X : carray3) (T V : arr2) :
  input s = Some X ->
  partitioning s = true -> base s = Rank2 T -> activation s = Rank2 V ->
  GaussILRMA_compute_negative_loglikelihood s
  = (s, Ok (gauss_loss (n_sources s) (n_bins s) (n_frames s)
              (power (separate (n_channels s) (at3 X) (demix_filter s)))
              (floor3 (eps s) (par_psd (n_bases s) (latent s) T V))
              (demix_filter s))).
Proof.
  intros HX HP HB HA. unfold GaussILRMA_compute_negative_loglikelihood.
  rewrite bind_get, (@bind_get_input _ _ _ _ HX).
  rewrite (@bind_ok _ _ _ _ _ _ _ (@model_psd_partitioned s T V HP HB HA)).
  reflexivity.
Qed.

(** The driver is constructed with the partitioned model and
    ['projection-back'] normalisation (the other arguments at their
    defaults): an object is returned, no exception is raised, and a call
    with [iteration=0] on it returns as for any other driver. *)
Lemma partitioned_projection_back_is_accepted :
  GaussILRMA___init__ rng_quarter 10 true (PyStr "projection-back") 0
    EPS THRESHOLD = Ok scenario_C_driver /\
  ~ (exists e,
       GaussILRMA___init__ rng_quarter 10 true (PyStr "projection-back") 0
         EPS THRESHOLD = Err e) /\
  exists s' out,
    GaussILRMA___call__ unit_projection_back None unit_mixture 0 []
      scenario_C_driver = (s', Ok out) /\
    List.length (loss s') = 1%nat.
Proof.
  split; [reflexivity |]. split; [intros [e H]; discriminate H |].
  set (s0 := reset_partitioned unit_mixture scenario_C_driver).
  assert (E1 : _reset [] (set_input (Some unit_mixture) scenario_C_driver)
               = (s0, Ok tt))
    by (apply reset_partitioned_step; reflexivity).
  pose proof (@GaussILRMA_loss_partitioned s0 unit_mixture _ _
                eq_refl eq_refl eq_refl eq_refl) as E2.
  match type of E2 with _ = (_, Ok ?l) => set (L0 := l) in * end.
  set (s0' := append_loss L0 s0).
  pose proof (@finish_call_ok unit_projection_back unit_mixture s0' O
                (fun _ _ => C1) eq_refl eq_refl) as E3.
  match type of E3 with _ = (?st, Ok ?o) => exists st, o end.
  split; [| reflexivity].
  unfold GaussILRMA___call__. rewrite bind_modify.
  rewrite (@bind_ok _ _ _ _ _ _ _ E1). cbv beta.
  rewrite (@bind_ok _ _ _ _ _ _ _ E2). cbv beta.
  rewrite bind_modify. fold s0'.
  change (Z.to_nat 0) with O. unfold for_range, for_from.
  rewrite bind_ret. exact E3.
Qed.

Lemma np_linalg_inv_ok (n_bins n : nat) (A : nat -> mat) :
  (forall f, (f < n_bins)%nat -> nonsingular n (A f)) ->
  np_linalg_inv n_bins n A = Ok (fun f => inv_mat n (A f)).
Proof.
  intros H. unfold np_linalg_inv.
  destruct (excluded_middle_informative _) as [_ | K]; [reflexivity | contradiction].
Qed.

Lemma tILRMA_loss_unconstrained (s : ILRMA) (T V : arr3) :
  partitioning s = false -> base s = Rank3 T -> activation s = Rank3 V ->
  tILRMA_compute_negative_loglikelihood s
  = (s, Ok (t_loss (nu s) (n_sources s) (n_bins s) (n_frames s)
              (power (estimation s))
              (floor3 (eps s) (unc_psd (n_bases s) T V))
              (demix_filter s))).
Proof.
  intros HP HB HA. unfold tILRMA_compute_negative_loglikelihood.
  rewrite bind_get. cbv zeta.
  rewrite (@bind_ok _ _ _ _ _ _ _ (@model_psd_unconstrained s T V HP HB HA)).
  reflexivity.
Qed.

(** The heavy-tailed spatial update with one source. *)
Lemma tILRMA_update_space_model_single (s : ILRMA) (X : carray3) (T V : arr3) :
  input s = Some X ->
  partitioning s = false -> base s = Rank3 T -> activation s = Rank3 V ->
  n_sources s = 1%nat ->
  let P := power (separate (n_channels s) (at3 X) (demix_filter s)) in
  let Xi := t_Xi (nu s) (floor3 (eps s) (unc_psd (n_bases s) T V)) P in
  let U := weighted_covariance (n_frames s) (at3 X) Xi in
  let WU := filter_WU (n_channels s) (demix_filter s) (U O) in
  (forall f, (f < n_bins s)%nat -> nonsingular (n_channels s) (WU f)) ->
  tILRMA_update_space_model s
  = (set_demix_filter
       (set_row O (demix_filter s)
          (t_row (eps s) (n_channels s) (U O)
             (fun f c => inv_mat (n_channels s) (WU f) c O))) s,
     Ok tt).
Proof.
  intros HX HP HB HA HS P Xi U WU Hns. unfold tILRMA_update_space_model.
  rewrite bind_get, (@bind_get_input _ _ _ _ HX). cbv zeta.
  rewrite (@bind_ok _ _ _ _ _ _ _ (@model_psd_unconstrained s T V HP HB HA)).
  cbv beta. rewrite HS. unfold for_range, for_from.
  unfold tILRMA_update_source_row. rewrite ?bind_assoc, bind_get. cbv zeta.
  fold P. fold Xi. fold U. fold WU.
  unfold lift, bind. rewrite (np_linalg_inv_ok _ Hns). reflexivity.
Qed.

(** [tILRMA.update_once] when the spatial update returned: the power
    normalisation of the unconstrained model. *)
Lemma tILRMA_update_once_unconstrained (s s1 : ILRMA) (X : carray3) (T : arr3) :
  tILRMA_update_space_model s = (s1, Ok tt) ->
  input s1 = Some X ->
  normalize s1 = PyStr "power" ->
  partitioning s1 = false -> base s1 = Rank3 T ->
  let Y := separate (n_channels s1) (at3 X) (demix_filter s1) in
  let aux := norm_aux (eps s1) (n_bins s1) (n_frames s1) Y in
  tILRMA_update_once s
  = (set_estimation (scale_estimate aux Y)
       (set_demix_filter (scale_filter aux (demix_filter s1))
          (set_base (Rank3 (norm_unc_base aux T)) (set_estimation Y s1))),
     Ok tt).
Proof.
  intros E HX HN HP HB. unfold tILRMA_update_once.
  rewrite (@bind_ok _ _ _ _ _ _ _ E). cbv beta.
  rewrite bind_get, (@bind_get_input _ _ _ _ HX). cbv zeta.
  rewrite bind_modify, HN, HP.
  change (truthy (PyStr "power")) with true. cbv iota.
  change (base (set_estimation
                  (separate (n_channels s1) (at3 X) (demix_filter s1)) s1))
    with (base s1).
  rewrite HB. reflexivity.
Qed.

(** The heavy-tailed driver is constructed with its default arguments
    ([n_bases=10, nu=1.0, partitioning=False, normalize='power',
    reference_id=0, eps=EPS]): an object is returned and no exception is
    raised; a call with one iteration on [unit_mixture] returns and
    records two losses. *)
Lemma heavy_tailed_driver_runs :
  tILRMA___init__ rng_quarter 10 1 false (PyStr "power") 0 EPS
  = Ok heavy_tailed_driver /\
  ~ (exists e,
       tILRMA___init__ rng_quarter 10 1 false (PyStr "power") 0 EPS = Err e) /\
  exists s' out,
    tILRMA___call__ unit_projection_back None unit_mixture 1 []
      heavy_tailed_driver = (s', Ok out) /\
    List.length (loss s') = 2%nat.
Proof.
  split; [reflexivity |]. split; [intros [e H]; discriminate H |].
  set (X := unit_mixture).
  set (s0 := reset_unconstrained X heavy_tailed_driver).
  assert (E1 : _reset [] (set_input (Some X) heavy_tailed_driver) = (s0, Ok tt))
    by (apply reset_unconstrained_step; reflexivity).
  set (T0 := rand3 rng_quarter 1 10).
  set (V0 := rand3 (advance rng_quarter (1 * 1 * 10)) 10 1).
  pose proof (@tILRMA_loss_unconstrained s0 T0 V0 eq_refl eq_refl eq_refl) as E2.
  match type of E2 with _ = (_, Ok ?l) => set (L0 := l) in * end.
  set (s0' := append_loss L0 s0).
  (* the spatial update *)
  set (P := power (separate 1 (at3 X) tiled_eye)).
  set (Xi := t_Xi 1 (floor3 EPS (unc_psd 10 T0 V0)) P).
  set (U := weighted_covariance 1 (at3 X) Xi).
  assert (Hns : forall f, (f < n_bins s0')%nat ->
            nonsingular (n_channels s0')
              (filter_WU (n_channels s0') (demix_filter s0') (U O) f)).
  { intros f Hf. change (n_bins s0') with 1%nat in Hf.
    assert (f = O) by lia. subst f.
    apply nonsingular_1.
    change (filter_WU 1 tiled_eye (U O) O O O <> C0).
    rewrite filter_WU_1. change (tiled_eye O O O) with C1. rewrite Cmul_1_l.
    unfold U, weighted_covariance, outer_XX. cbn [Csum].
    change (at3 X O O O) with (RtoC 1). change (INR 1) with 1.
    assert (Hxi : 0 < Xi O O O).
    { unfold Xi, t_Xi, P. rewrite unit_power by reflexivity.
      pose proof (floor_at_ge EPS (unc_psd 10 T0 V0 O O O)) as Hfl.
      fold (floor3 EPS (unc_psd 10 T0 V0) O O O) in Hfl.
      pose proof EPS_pos.
      apply Rmult_lt_0_compat; [lra | apply Rinv_0_lt_compat; lra]. }
    rewrite Cadd_0_l, RtoC_conj, RtoC_mul, !RtoC_div by lra.
    apply RtoC_nonzero.
    assert (0 < / Xi O O O) by (now apply Rinv_0_lt_compat).
    unfold Rdiv. rewrite Rinv_1. lra. }
  pose proof (@tILRMA_update_space_model_single s0' X T0 V0
                eq_refl eq_refl eq_refl eq_refl eq_refl Hns) as E3.
  match type of E3 with _ = (?st, _) => set (s1 := st) in * end.
  pose proof (@tILRMA_update_once_unconstrained s0' s1 X T0 E3
                eq_refl eq_refl eq_refl eq_refl) as E4.
  cbv zeta in E4.
  match type of E4 with _ = (?st, _) => set (s2 := st) in * end.
  pose proof (@tILRMA_loss_unconstrained s2 _ V0 eq_refl eq_refl eq_refl) as E5.
  match type of E5 with _ = (_, Ok ?l) => set (L1 := l) in * end.
  set (s2' := append_loss L1 s2).
  pose proof (@finish_call_ok unit_projection_back X s2' O (fun _ _ => C1)
                eq_refl eq_refl) as E6.
  match type of E6 with _ = (?st, Ok ?o) => exists st, o end.
  split; [| reflexivity].
  unfold tILRMA___call__. rewrite bind_modify.
  rewrite (@bind_ok _ _ _ _ _ _ _ E1). cbv beta.
  rewrite (@bind_ok _ _ _ _ _ _ _ E2). cbv beta.
  rewrite bind_modify. fold s0'.
  change (Z.to_nat 1) with 1%nat. unfold for_range, for_from.
  rewrite ?bind_assoc. unfold tILRMA_iteration. rewrite ?bind_assoc.
  rewrite (@bind_ok _ _ _ _ _ _ _ E4). cbv beta. rewrite ?bind_assoc.
  rewrite (@bind_ok _ _ _ _ _ _ _ E5). cbv beta.
  rewrite ?bind_assoc, bind_modify. fold s2'.
  unfold run_callback. rewrite !bind_ret. exact E6.
Qed.

(* ------------------------------------------------------------------ *)
(** ** C3: the divisions of the updates and of the losses *)

Lemma GaussILRMA_update_space_model_passes (s : ILRMA) (X : carray3)
  (R_ : arr3) :
  input s = Some X -> model_psd s = (s, Ok R_) ->
  GaussILRMA_update_space_model s
  = for_range (n_sources s)
      (GaussILRMA_update_source_row
         (weighted_covariance (n_frames s) (at3 X) (floor3 (eps s) R_))) s.
Proof.
  intros HX HR. unfold GaussILRMA_update_space_model.
  rewrite bind_get, (@bind_get_input _ _ _ _ HX).
  rewrite (@bind_ok _ _ _ _ _ _ _ HR). reflexivity.
Qed.

Lemma GaussILRMA_loss_of_density (s : ILRMA) (X : carray3) (R_ : arr3) :
  input s = Some X -> model_psd s = (s, Ok R_) ->
  GaussILRMA_compute_negative_loglikelihood s
  = (s, Ok (gauss_loss (n_sources s) (n_bins s) (n_frames s)
              (power (separate (n_channels s) (at3 X) (demix_filter s)))
              (floor3 (eps s) R_) (demix_filter s))).
Proof.
  intros HX HR. unfold GaussILRMA_compute_negative_loglikelihood.
  rewrite bind_get, (@bind_get_input _ _ _ _ HX).
  rewrite (@bind_ok _ _ _ _ _ _ _ HR). reflexivity.
Qed.

Lemma tILRMA_update_space_model_passes (s : ILRMA) (X : carray3) (R_ : arr3) :
  input s = Some X -> model_psd s = (s, Ok R_) ->
  tILRMA_update_space_model s
  = for_range (n_sources s)
      (tILRMA_update_source_row
         (weighted_covariance (n_frames s) (at3 X)
            (t_Xi (nu s) (floor3 (eps s) R_)
               (power (separate (n_channels s) (at3 X) (demix_filter s)))))) s.
Proof.
  intros HX HR. unfold tILRMA_update_space_model.
  rewrite bind_get, (@bind_get_input _ _ _ _ HX). cbv zeta.
  rewrite (@bind_ok _ _ _ _ _ _ _ HR). reflexivity.
Qed.

Lemma tILRMA_loss_of_density (s : ILRMA) (R_ : arr3) :
  model_psd s = (s, Ok R_) ->
  tILRMA_compute_negative_loglikelihood s
  = (s, Ok (t_loss (nu s) (n_sources s) (n_bins s) (n_frames s)
              (power (estimation s)) (floor3 (eps s) R_) (demix_filter s))).
Proof.
  intros HR. unfold tILRMA_compute_negative_loglikelihood.
  rewrite bind_get. cbv zeta.
  rewrite (@bind_ok _ _ _ _ _ _ _ HR). reflexivity.
Qed.

Lemma tILRMA_update_source_row_inv
  (U : nat -> nat -> nat -> nat -> C) (source_idx : nat) (s s' : ILRMA) :
  tILRMA_update_source_row U source_idx s = (s', Ok tt) ->
  s' = set_demix_filter
         (set_row source_idx (demix_filter s)
            (t_row (eps s) (n_channels s) (U source_idx)
               (fun f c =>
                  inv_mat (n_channels s)
                    (filter_WU (n_channels s) (demix_filter s) (U source_idx) f)
                    c source_idx))) s.
Proof.
  intros H. unfold tILRMA_update_source_row, bind, get, lift, modify in H.
  unfold np_linalg_inv in H.
  destruct (excluded_middle_informative _) as [K | K]; [| discriminate H].
  inversion H. reflexivity.
Qed.

(** C3, as the program has it, for a driver that holds a mixture: what
    the source update, the spatial update and the loss compute, with
    every division written out with its divisor.

    Floored at [eps] before the division, so at least [eps]: the density
    [TV] or [ZTV] in [1 / TV] and [1 / ZTV]; the sums [TVV], [TTV] and the
    three [denominator]s of the source update; the density [R] in
    [XX / R] of the Gaussian spatial update and in [P / R] of both losses;
    and, in the order NumPy gives complex numbers, the [denominator] of
    the heavy-tailed spatial update.

    Not floored at [eps]: [P / (TV**2)] and [P / (ZTV**2)] divide by the
    square of the floored density, at least [eps**2] when [eps] is not
    negative; [Z / Z.sum(axis=0)] divides by the plain sum; the Gaussian
    spatial update divides [w_n.conj()] by [np.sqrt(wUw)] as it is; the
    heavy-tailed spatial update divides [XX] by [Xi], at least
    [nu * eps / (nu + 2)] when [nu] is positive; the means divide by the
    number of frames, and the heavy-tailed methods by [nu] and
    [nu + 2]. *)
Theorem divisors_and_floor (s : ILRMA) (X : carray3) :
  input s = Some X ->
  let e := eps s in
  let P := power (separate (n_channels s) (at3 X) (demix_filter s)) in
  (* what the floor gives *)
  (forall a, e <= floor_at e a) /\
  (forall a, 0 <= e -> e ^ 2 <= floor_at e a ^ 2) /\
  (* [GaussILRMA.update_source_model], unconstrained (lines 244-264) *)
  (forall T V : arr3,
     partitioning s = false -> base s = Rank3 T -> activation s = Rank3 V ->
     let TV := fun T : arr3 => fun src f t =>
       floor_at e (sum_n (n_bases s) (fun k => T src f k * V src k t)) in
     let division := fun T : arr3 => fun src f t =>
       P src f t / TV T src f t ^ 2 in
     let TV_inverse := fun T : arr3 => fun src f t => 1 / TV T src f t in
     let TVV := fun src f k =>
       floor_at e
         (sum_n (n_frames s) (fun t => TV_inverse T src f t * V src k t)) in
     let T' := fun src f k =>
       T src f k *
       sqrt (sum_n (n_frames s) (fun t => division T src f t * V src k t)
             / TVV src f k) in
     let TTV := fun src k t =>
       floor_at e
         (sum_n (n_bins s) (fun f => T' src f k * TV_inverse T' src f t)) in
     let V' := fun src k t =>
       V src k t *
       sqrt (sum_n (n_bins s) (fun f => T' src f k * division T' src f t)
             / TTV src k t) in
     GaussILRMA_update_source_model s
     = (set_activation (Rank3 V') (set_base (Rank3 T') s), Ok tt)) /\
  (* [GaussILRMA.update_source_model], partitioned (lines 204-242) *)
  (forall T V : arr2,
     partitioning s = true -> base s = Rank2 T -> activation s = Rank2 V ->
     let ZTV := fun Z T : arr2 => fun src f t =>
       floor_at e (sum_n (n_bases s) (fun k => Z src k * T f k * V k t)) in
     let division := fun Z T : arr2 => fun src f t =>
       P src f t / ZTV Z T src f t ^ 2 in
     let ZTV_inverse := fun Z T : arr2 => fun src f t =>
       1 / ZTV Z T src f t in
     let Z := latent s in
     let numerator := fun src k =>
       sum_n (n_bins s) (fun f => sum_n (n_frames s) (fun t =>
         division Z T src f t * (T f k * V k t))) in
     let denominator := fun src k =>
       floor_at e
         (sum_n (n_bins s) (fun f => sum_n (n_frames s) (fun t =>
            ZTV_inverse Z T src f t * (T f k * V k t)))) in
     let Zsqrt := fun src k => sqrt (numerator src k / denominator src k) in
     let Z' := fun src k =>
       Zsqrt src k / sum_n (n_sources s) (fun src' => Zsqrt src' k) in
     let T' := fun f k =>
       T f k *
       sqrt (sum_n (n_sources s) (fun src => sum_n (n_frames s) (fun t =>
               division Z' T src f t * (Z' src k * V k t)))
             / floor_at e
                 (sum_n (n_sources s) (fun src => sum_n (n_frames s) (fun t =>
                    ZTV_inverse Z' T src f t * (Z' src k * V k t))))) in
     let V' := fun k t =>
       V k t *
       sqrt (sum_n (n_sources s) (fun src => sum_n (n_bins s) (fun f =>
               division Z' T' src f t * (Z' src k * T' f k)))
             / floor_at e
                 (sum_n (n_sources s) (fun src => sum_n (n_bins s) (fun f =>
                    ZTV_inverse Z' T' src f t * (Z' src k * T' f k))))) in
     GaussILRMA_update_source_model s
     = (set_activation (Rank2 V') (set_base (Rank2 T') (set_latent Z' s)),
        Ok tt)) /\
  (* the density of the model, before the floor *)
  (forall T V : arr3,
     partitioning s = false -> base s = Rank3 T -> activation s = Rank3 V ->
     model_psd s
     = (s, Ok (fun src f t => sum_n (n_bases s) (fun k => T src f k * V src k t)))) /\
  (forall T V : arr2,
     partitioning s = true -> base s = Rank2 T -> activation s = Rank2 V ->
     model_psd s
     = (s, Ok (fun src f t =>
                 sum_n (n_bases s) (fun k => latent s src k * T f k * V k t)))) /\
  (* [GaussILRMA.update_space_model] (lines 266-308) and
     [GaussILRMA.compute_negative_loglikelihood] (lines 310-330) *)
  (forall R_ : arr3,
     model_psd s = (s, Ok R_) ->
     let R' := fun src f t => floor_at e (R_ src f t) in
     let U := fun src f c c' =>
       (Csum (n_frames s) (fun t =>
          (at3 X c f t * Cconj (at3 X c' f t)) / RtoC (R' src f t))
        / RtoC (INR (n_frames s)))%C in
     GaussILRMA_update_space_model s
     = for_range (n_sources s) (GaussILRMA_update_source_row U) s /\
     GaussILRMA_compute_negative_loglikelihood s
     = (s, Ok (sum3 (n_sources s) (n_bins s) (n_frames s)
                 (fun src f t => P src f t / R' src f t + ln (R' src f t))
               - 2 * INR (n_frames s)
                 * log_abs_det (n_bins s) (n_sources s) (demix_filter s)))) /\
  (* one pass of the loop of [GaussILRMA.update_space_model]
     (lines 293-306) *)
  (forall U source_idx s1 s2,
     GaussILRMA_update_source_row U source_idx s1 = (s2, Ok tt) ->
     let w_n := ip_solution s1 (U source_idx) source_idx in
     let denominator := fun f =>
       Csqrt (quad_wUw (n_channels s1) (U source_idx) w_n f) in
     forall f c,
       cond_lt (n_channels s1)
         (filter_WU (n_channels s1) (demix_filter s1) (U source_idx) f)
         (threshold s1) = true ->
       demix_filter s2 f source_idx c
       = (Cconj (w_n f c) / denominator f)%C) /\
  (* [tILRMA.update_space_model] (lines 493-534) and
     [tILRMA.compute_negative_loglikelihood] (lines 536-557) *)
  (forall R_ : arr3,
     model_psd s = (s, Ok R_) ->
     let nu0 := nu s in
     let R' := fun src f t => floor_at e (R_ src f t) in
     let Xi := fun src f t =>
       (nu0 * R' src f t + 2 * P src f t) / (nu0 + 2) in
     let U := fun src f c c' =>
       (Csum (n_frames s) (fun t =>
          (at3 X c f t * Cconj (at3 X c' f t)) / RtoC (Xi src f t))
        / RtoC (INR (n_frames s)))%C in
     let P_Y := power (estimation s) in
     tILRMA_update_space_model s
     = for_range (n_sources s) (tILRMA_update_source_row U) s /\
     (0 < nu0 -> forall src f t, nu0 * e / (nu0 + 2) <= Xi src f t) /\
     tILRMA_compute_negative_loglikelihood s
     = (s, Ok (sum3 (n_sources s) (n_bins s) (n_frames s)
                 (fun src f t =>
                    (1 + nu0 / 2)
                    * ln (1 + 2 / nu0 * (P_Y src f t / R' src f t))
                    + ln (R' src f t))
               - 2 * INR (n_frames s)
                 * log_abs_det (n_bins s) (n_sources s) (demix_filter s)))) /\
  (* one pass of the loop of [tILRMA.update_space_model] (lines 523-532) *)
  (forall U source_idx s1 s2,
     tILRMA_update_source_row U source_idx s1 = (s2, Ok tt) ->
     let w := fun f c =>
       inv_mat (n_channels s1)
         (filter_WU (n_channels s1) (demix_filter s1) (U source_idx) f)
         c source_idx in
     let denominator := fun f =>
       Cfloor_at (eps s1)
         (Csqrt (quad_wUw (n_channels s1) (U source_idx) w f)) in
     forall f c,
       demix_filter s2 f source_idx c = (Cconj (w f c) / denominator f)%C /\
       ~ Clt (denominator f) (RtoC (eps s1))).
Proof.
  intros HX e P.
  split; [intros a; apply floor_at_ge |].
  split; [intros a Ha; now apply sqr_floor_ge |].
  split.
  { intros T V HP HB HA.
    exact (@GaussILRMA_update_source_model_unconstrained s X T V HX HP HB HA). }
  split.
  { intros T V HP HB HA.
    exact (@GaussILRMA_update_source_model_partitioned s X T V HX HP HB HA). }
  split; [intros T V HP HB HA; exact (@model_psd_unconstrained s T V HP HB HA) |].
  split; [intros T V HP HB HA; exact (@model_psd_partitioned s T V HP HB HA) |].
  split.
  { intros R_ HR. split.
    - exact (@GaussILRMA_update_space_model_passes s X R_ HX HR).
    - exact (@GaussILRMA_loss_of_density s X R_ HX HR). }
  split.
  { intros U idx s1 s2 H w_n den f c Hc.
    apply GaussILRMA_update_source_row_inv in H. destruct H as [_ ->].
    cbn [demix_filter set_demix_filter]. unfold set_row.
    rewrite Nat.eqb_refl. unfold ip_row. rewrite Hc. reflexivity. }
  split.
  { intros R_ HR nu0 R' Xi U P_Y. split; [| split].
    - exact (@tILRMA_update_space_model_passes s X R_ HX HR).
    - intros Hnu src f t.
      apply (@t_Xi_lower nu0 e (fun src f t => floor_at e (R_ src f t)) P src f t).
      + exact Hnu.
      + unfold P, power. apply pow2_ge_0.
      + apply floor_at_ge.
    - exact (@tILRMA_loss_of_density s R_ HR). }
  intros U idx s1 s2 H w den f c.
  apply tILRMA_update_source_row_inv in H. subst s2.
  cbn [demix_filter set_demix_filter]. unfold set_row.
  rewrite Nat.eqb_refl. split; [reflexivity | apply Cfloor_at_not_below].
Qed.

(** At a driver in the middle of a call on [unit_mixture], for both source
    models. *)
Lemma divisors_and_floor_witness :
  input unit_start = Some unit_mixture /\
  (exists s1, GaussILRMA_update_source_model unit_start = (s1, Ok tt)) /\
  (exists L,
     GaussILRMA_compute_negative_loglikelihood unit_start = (unit_start, Ok L)) /\
  input partitioned_start = Some unit_mixture /\
  (exists s1, GaussILRMA_update_source_model partitioned_start = (s1, Ok tt)).
Proof.
  split; [reflexivity |].
  destruct (@divisors_and_floor unit_start unit_mixture eq_refl)
    as (_ & _ & Hsrc & _ & Hpsd & _ & Hloss & _).
  split.
  { eexists. exact (Hsrc _ _ eq_refl eq_refl eq_refl). }
  split.
  { eexists.
    exact (proj2 (Hloss _ (Hpsd _ _ eq_refl eq_refl eq_refl))). }
  split; [reflexivity |].
  destruct (@divisors_and_floor partitioned_start unit_mixture eq_refl)
    as (_ & _ & _ & Hpar & _).
  eexists. exact (Hpar _ _ eq_refl eq_refl eq_refl).
Defined.

(** ** Runs in which a divisor is below [eps] *)

Lemma GaussILRMA_call_start_unconstrained (X : carray3) (s : ILRMA) :
  partitioning s = false ->
  exists L0,
    GaussILRMA_call_start X [] s
    = (append_loss L0 (reset_unconstrained X s), Ok tt).
Proof.
  intros HP. eexists. unfold GaussILRMA_call_start.
  rewrite bind_modify.
  rewrite (@bind_ok _ _ _ _ _ _ _ (@reset_unconstrained_step X s HP)).
  cbv beta.
  rewrite (@bind_ok _ _ _ _ _ _ _
             (@GaussILRMA_loss_unconstrained (reset_unconstrained X s) X _ _
                eq_refl HP eq_refl eq_refl)).
  reflexivity.
Qed.

Lemma GaussILRMA_call_start_partitioned (X : carray3) (s : ILRMA) :
  partitioning s = true ->
  exists L0,
    GaussILRMA_call_start X [] s
    = (append_loss L0 (reset_partitioned X s), Ok tt).
Proof.
  intros HP. eexists. unfold GaussILRMA_call_start.
  rewrite bind_modify.
  rewrite (@bind_ok _ _ _ _ _ _ _ (@reset_partitioned_step X s HP)).
  cbv beta.
  rewrite (@bind_ok _ _ _ _ _ _ _
             (@GaussILRMA_loss_partitioned (reset_partitioned X s) X _ _
                eq_refl HP eq_refl eq_refl)).
  reflexivity.
Qed.

(** The source update: from [P = 1.6e97] and [T = V = 1/4]. *)
Lemma high_power_base (P T V : arr3) :
  P O O O = 1.6e97 -> T O O O = 1 / 4 -> V O O O = 1 / 4 ->
  unc_base EPS 1 1 P T V O O O = 4e48.
Proof.
  intros HP HT HV.
  unfold unc_base, unc_TVV, unc_division, unc_TV_inverse, unc_TV_squared, unc_TV.
  simpl sum_n. rewrite HP, HT, HV.
  floor_eval. sqrt_eval 1.6e49. lra.
Qed.

Lemma high_power_activation (P T V : arr3) :
  P O O O = 1.6e97 -> T O O O = 4e48 -> V O O O = 1 / 4 ->
  unc_activation EPS 1 1 P T V O O O = 1e24.
Proof.
  intros HP HT HV.
  unfold unc_activation, unc_TTV, unc_division, unc_TV_inverse,
    unc_TV_squared, unc_TV.
  simpl sum_n. rewrite HP, HT, HV.
  floor_eval. sqrt_eval 4e24. lra.
Qed.

Lemma high_power_covariance (X : carr3) (R_ : arr3) :
  X O O O = RtoC 4e48 -> R_ O O O = 4e72 ->
  weighted_covariance 1 X R_ O O O O = RtoC 4e24.
Proof.
  intros HX HR. unfold weighted_covariance, outer_XX. simpl Csum.
  rewrite HX, HR, Cadd_0_l, RtoC_conj, RtoC_mul.
  rewrite !RtoC_div by (simpl; lra).
  f_equal. simpl. lra.
Qed.

(** The pass of the spatial update: from [W = 1] and [U = 4e24]. *)
Lemma high_power_row (thr : R) (W : carr3) (U_n : nat -> nat -> nat -> C) :
  1 < thr ->
  W O O O = C1 -> U_n O O O = RtoC 4e24 ->
  let w_n := fun f => solve_vec 1 (filter_WU 1 W U_n f) (fun c => eye O c) in
  cond_lt 1 (filter_WU 1 W U_n O) thr = true /\
  w_n O O = RtoC 2.5e-25 /\
  ip_denominator 1 U_n w_n O = RtoC 5e-13 /\
  ip_row 1 thr O W U_n w_n O O = RtoC 5e-13.
Proof.
  intros Hthr HW HU w_n.
  assert (HM : filter_WU 1 W U_n O O O = RtoC 4e24)
    by (rewrite filter_WU_1, HW, HU; apply Cmul_1_l).
  assert (HM0 : filter_WU 1 W U_n O O O <> C0)
    by (rewrite HM; apply RtoC_nonzero; lra).
  assert (Hw : w_n O O = RtoC 2.5e-25).
  { unfold w_n. rewrite solve_vec_1 by assumption. rewrite HM.
    change (eye O O) with (RtoC 1). rewrite RtoC_div by lra. f_equal. lra. }
  assert (Hc : cond_lt 1 (filter_WU 1 W U_n O) thr = true).
  { unfold cond_lt. rewrite (@cond_1 _ HM0).
    destruct (Rlt_dec 1 thr) as [_ | K]; [reflexivity | contradiction]. }
  assert (Hd : ip_denominator 1 U_n w_n O = RtoC 5e-13).
  { unfold ip_denominator. rewrite quad_wUw_1, Hw, HU.
    rewrite RtoC_conj, !RtoC_mul, Csqrt_RtoC by lra.
    f_equal. apply sqrt_lem_1; lra. }
  repeat split; try assumption.
  unfold ip_row. rewrite Hc. rewrite Hd, Hw, RtoC_conj.
  rewrite RtoC_div by lra. f_equal. lra.
Qed.

(** The claim on the program: three calls of the Gaussian driver with its
    default arguments and one basis, followed from [__call__] into the
    first [update_once].

    On the mixture of low power the base update leaves [TV = 1e-10], and
    the activation update divides [P] by [TV**2 = 1e-20], below [eps].

    On the mixture of amplitude 4e48 the spatial update passes the guard
    on the condition number and divides [w_n.conj() = 2.5e-25] by
    [np.sqrt(wUw) = 5e-13], below [eps] and not zero; the row it stores is
    5e-13, where a divisor floored at [eps] gives 2.5e-13.

    On the silent mixture with the partitioned model the divisor
    [Z.sum(axis=0)] of the latent update is zero. *)
Lemma divisors_below_eps_in_runs :
  (exists s0 s1 V0 T1,
     GaussILRMA___init__ rng_quarter 1 false (PyStr "power") 0 EPS THRESHOLD
     = Ok low_power_driver /\
     GaussILRMA_call_start low_power_mixture [] low_power_driver = (s0, Ok tt) /\
     activation s0 = Rank3 V0 /\
     GaussILRMA_update_source_model s0 = (s1, Ok tt) /\
     base s1 = Rank3 T1 /\
     activation s1
     = Rank3 (unc_activation (eps s0) (n_bins s0) (n_bases s0)
                (power (separate (n_channels s0) (at3 low_power_mixture)
                          (demix_filter s0))) T1 V0) /\
     unc_TV (eps s0) (n_bases s0) T1 V0 O O O = 1e-10 /\
     unc_TV_squared (eps s0) (n_bases s0) T1 V0 O O O = 1e-20 /\
     0 < unc_TV_squared (eps s0) (n_bases s0) T1 V0 O O O < eps s0 /\
     unc_division (eps s0) (n_bases s0)
       (power (separate (n_channels s0) (at3 low_power_mixture)
                 (demix_filter s0))) T1 V0 O O O
     = 1.6e-19 / 1e-20) /\
  (exists s0 s1 s2 R_,
     GaussILRMA_call_start high_power_mixture [] low_power_driver = (s0, Ok tt) /\
     GaussILRMA_update_source_model s0 = (s1, Ok tt) /\
     model_psd s1 = (s1, Ok R_) /\
     GaussILRMA_update_space_model s1 = (s2, Ok tt) /\
     let U := weighted_covariance (n_frames s1) (at3 high_power_mixture)
                (floor3 (eps s1) R_) in
     let w_n := ip_solution s1 (U O) O in
     cond_lt (n_channels s1)
       (filter_WU (n_channels s1) (demix_filter s1) (U O) O) (threshold s1)
     = true /\
     w_n O O = RtoC 2.5e-25 /\
     ip_denominator (n_channels s1) (U O) w_n O = RtoC 5e-13 /\
     0 < 5e-13 < eps s1 /\
     demix_filter s2 O O O = (Cconj (w_n O O) / RtoC 5e-13)%C /\
     demix_filter s2 O O O = RtoC 5e-13 /\
     (Cconj (w_n O O) / RtoC (eps s1))%C = RtoC 2.5e-13) /\
  (exists s0 s1 T V,
     GaussILRMA___init__ rng_quarter 1 true (PyStr "power") 0 EPS THRESHOLD
     = Ok partitioned_driver /\
     GaussILRMA_call_start silent_mixture [] partitioned_driver = (s0, Ok tt) /\
     base s0 = Rank2 T /\ activation s0 = Rank2 V /\
     GaussILRMA_update_source_model s0 = (s1, Ok tt) /\
     latent s1
     = par_latent (eps s0) (n_sources s0) (n_bins s0) (n_frames s0) (n_bases s0)
         (power (separate (n_channels s0) (at3 silent_mixture) (demix_filter s0)))
         (latent s0) T V /\
     par_latent_sum (eps s0) (n_sources s0) (n_bins s0) (n_frames s0)
       (n_bases s0)
       (power (separate (n_channels s0) (at3 silent_mixture) (demix_filter s0)))
       (latent s0) T V O = 0).
Proof.
  split; [| split].
  - (* the mixture of low power *)
    destruct (@GaussILRMA_call_start_unconstrained low_power_mixture
                low_power_driver eq_refl) as [L0 E0].
    set (X := low_power_mixture) in *.
    set (s0 := append_loss L0 (reset_unconstrained X low_power_driver)) in *.
    set (T0 := rand3 rng_quarter 1 1).
    set (V0 := rand3 (advance rng_quarter (1 * 1 * 1)) 1 1).
    set (P0 := power (separate 1 (at3 X) tiled_eye)).
    set (T1 := unc_base EPS 1 1 P0 T0 V0).
    set (V1 := unc_activation EPS 1 1 P0 T1 V0).
    assert (E3 : GaussILRMA_update_source_model s0
                 = (set_activation (Rank3 V1) (set_base (Rank3 T1) s0), Ok tt))
      by (exact (@GaussILRMA_update_source_model_unconstrained s0 X T0 V0
                   eq_refl eq_refl eq_refl eq_refl)).
    assert (HP0 : P0 O O O = 1.6e-19).
    { unfold P0, power. rewrite separate_1.
      change (at3 X O O O) with (RtoC 4e-10).
      change (tiled_eye O O O) with C1. rewrite Cmul_1_l, power_RtoC. lra. }
    assert (HT1 : T1 O O O = 4e-10)
      by (apply low_power_base; [exact HP0 | reflexivity | reflexivity]).
    assert (HTV : unc_TV EPS 1 T1 V0 O O O = 1e-10).
    { unfold unc_TV. simpl sum_n. rewrite HT1.
      change (V0 O O O) with (1 / 4).
      rewrite floor_at_id by (unfold EPS; lra). lra. }
    assert (HTV2 : unc_TV_squared EPS 1 T1 V0 O O O = 1e-20)
      by (unfold unc_TV_squared; rewrite HTV; lra).
    exists s0, (set_activation (Rank3 V1) (set_base (Rank3 T1) s0)), V0, T1.
    split; [reflexivity |]. split; [exact E0 |].
    split; [reflexivity |]. split; [exact E3 |].
    split; [reflexivity |]. split; [reflexivity |].
    change (eps s0) with EPS. change (n_bases s0) with 1%nat.
    change (n_channels s0) with 1%nat. change (demix_filter s0) with tiled_eye.
    fold P0.
    split; [exact HTV |]. split; [exact HTV2 |].
    split; [rewrite HTV2; unfold EPS; lra |].
    unfold unc_division. rewrite HTV2, HP0. reflexivity.
  - (* the mixture of high power *)
    destruct (@GaussILRMA_call_start_unconstrained high_power_mixture
                low_power_driver eq_refl) as [L0 E0].
    set (X := high_power_mixture) in *.
    set (s0 := append_loss L0 (reset_unconstrained X low_power_driver)) in *.
    set (T0 := rand3 rng_quarter 1 1).
    set (V0 := rand3 (advance rng_quarter (1 * 1 * 1)) 1 1).
    set (P0 := power (separate 1 (at3 X) tiled_eye)).
    set (T1 := unc_base EPS 1 1 P0 T0 V0).
    set (V1 := unc_activation EPS 1 1 P0 T1 V0).
    set (s1 := set_activation (Rank3 V1) (set_base (Rank3 T1) s0)).
    assert (E3 : GaussILRMA_update_source_model s0 = (s1, Ok tt))
      by (exact (@GaussILRMA_update_source_model_unconstrained s0 X T0 V0
                   eq_refl eq_refl eq_refl eq_refl)).
    assert (HX : at3 X O O O = RtoC 4e48) by reflexivity.
    assert (HP0 : P0 O O O = 1.6e97).
    { unfold P0, power. rewrite separate_1, HX.
      change (tiled_eye O O O) with C1. rewrite Cmul_1_l, power_RtoC. lra. }
    assert (HT1 : T1 O O O = 4e48)
      by (apply high_power_base; [exact HP0 | reflexivity | reflexivity]).
    assert (HV1 : V1 O O O = 1e24)
      by (apply high_power_activation; [exact HP0 | exact HT1 | reflexivity]).
    assert (HR1 : floor3 EPS (unc_psd 1 T1 V1) O O O = 4e72).
    { unfold floor3, unc_psd. simpl sum_n. rewrite HT1, HV1.
      rewrite floor_at_id by (unfold EPS; lra). lra. }
    assert (E4 : model_psd s1 = (s1, Ok (unc_psd 1 T1 V1)))
      by (exact (@model_psd_unconstrained s1 T1 V1 eq_refl eq_refl eq_refl)).
    set (U := weighted_covariance 1 (at3 X) (floor3 EPS (unc_psd 1 T1 V1))).
    assert (HU : U O O O O = RtoC 4e24) by (now apply high_power_covariance).
    destruct (@high_power_row THRESHOLD tiled_eye (U O)
                ltac:(unfold THRESHOLD; lra) eq_refl HU)
      as (Hc & Hw & Hd & Hrow).
    cbv beta zeta in Hc, Hw, Hd, Hrow.
    set (W1 := set_row O tiled_eye
                 (ip_row 1 THRESHOLD O tiled_eye (U O) (ip_solution s1 (U O) O))).
    assert (E5 : GaussILRMA_update_space_model s1
                 = (set_demix_filter W1 s1, Ok tt)).
    { refine (@GaussILRMA_update_space_model_single s1 X T1 V1
                eq_refl eq_refl eq_refl eq_refl eq_refl _).
      intros f Hf. change (n_bins s1) with 1%nat in Hf.
      assert (f = O) by lia. subst f.
      apply nonsingular_1.
      change (filter_WU 1 tiled_eye (U O) O O O <> C0).
      rewrite filter_WU_1, HU. change (tiled_eye O O O) with C1.
      rewrite Cmul_1_l. apply RtoC_nonzero. lra. }
    exists s0, s1, (set_demix_filter W1 s1), (unc_psd 1 T1 V1).
    split; [exact E0 |]. split; [exact E3 |]. split; [exact E4 |].
    split; [exact E5 |].
    change (n_frames s1) with 1%nat. change (eps s1) with EPS.
    change (n_channels s1) with 1%nat. change (threshold s1) with THRESHOLD.
    change (demix_filter s1) with tiled_eye. fold U.
    cbv zeta.
    change (ip_solution s1 (U O) O)
      with (fun f => solve_vec 1 (filter_WU 1 tiled_eye (U O) f)
                       (fun c => eye O c)).
    cbv beta.
    assert (HW1 : demix_filter (set_demix_filter W1 s1) O O O = RtoC 5e-13)
      by (exact Hrow).
    split; [exact Hc |]. split; [exact Hw |]. split; [exact Hd |].
    split; [unfold EPS; lra |].
    split; [| split; [exact HW1 |]].
    + rewrite HW1, Hw, RtoC_conj, RtoC_div by lra. f_equal. lra.
    + rewrite Hw, RtoC_conj, RtoC_div by (unfold EPS; lra).
      f_equal. unfold EPS. lra.
  - (* the silent mixture, partitioned *)
    destruct (@GaussILRMA_call_start_partitioned silent_mixture
                partitioned_driver eq_refl) as [L0 E0].
    set (X := silent_mixture) in *.
    set (s0 := append_loss L0 (reset_partitioned X partitioned_driver)) in *.
    set (T0 := rand2 rng_quarter 1).
    set (V0 := rand2 (advance rng_quarter (1 * 1)) 1).
    pose proof (@GaussILRMA_update_source_model_partitioned s0 X T0 V0
                  eq_refl eq_refl eq_refl eq_refl) as E3.
    cbv zeta in E3.
    match type of E3 with _ = (?st, _) => exists s0, st, T0, V0 end.
    split; [reflexivity |]. split; [exact E0 |].
    split; [reflexivity |]. split; [reflexivity |].
    split; [exact E3 |]. split; [reflexivity |].
    unfold par_latent_sum. apply sum_n_zero. intros src _.
    apply par_latent_sqrt_silent. intros f t _ _.
    change (power (separate 1 (at3 X) tiled_eye) src f t = 0).
    unfold power. rewrite separate_1.
    change (at3 X O f t) with C0. rewrite Cmul_0_r.
    unfold Cabs, C0, RtoC, Re, Im. simpl.
    replace (0 * 0 + 0 * 0) with 0 by ring. rewrite sqrt_0. ring.
Qed.

(* ================================================================== *)
(** * Further properties of the code *)

(** ** [separate] and the scaling of the filter *)

Lemma Csum_scal_r (n : nat) (f : nat -> C) (c : C) :
  Csum n (fun i => (f i * c)%C) = (Csum n f * c)%C.
Proof.
  induction n as [| n IH]; simpl; [symmetry; apply Cmul_0_l |].
  rewrite IH. c_ring.
Qed.

Lemma Cdiv_add_l (z w c : C) : ((z + w) / c)%C = (z / c + w / c)%C.
Proof.
  apply C_eq; unfold Cdiv, Cadd, Re, Im; simpl; unfold Rdiv; ring.
Qed.

Lemma Csum_div_r (n : nat) (f : nat -> C) (c : C) :
  Csum n (fun i => (f i / c)%C) = (Csum n f / c)%C.
Proof.
  induction n as [| n IH]; simpl; [symmetry; apply Cdiv_0_l |].
  rewrite IH. symmetry. apply Cdiv_add_l.
Qed.

Lemma Cdiv_mul_l (z x c : C) : ((z / c) * x)%C = ((z * x) / c)%C.
Proof.
  apply C_eq; unfold Cdiv, Cmul, Re, Im; simpl; unfold Rdiv; ring.
Qed.

Lemma separate_scale_rows (n_channels : nat) (X W : carr3) (scale : carr2)
  (s f t : nat) :
  separate n_channels X (scale_rows scale W) s f t
  = apply_scale scale (separate n_channels X W) s f t.
Proof.
  unfold separate, scale_rows, apply_scale.
  rewrite <- Csum_scal_r. apply Csum_ext. intros c _. c_ring.
Qed.

Lemma separate_scale_filter (n_channels : nat) (X W : carr3) (aux : arr1)
  (s f t : nat) :
  separate n_channels X (scale_filter aux W) s f t
  = scale_estimate aux (separate n_channels X W) s f t.
Proof.
  unfold separate, scale_filter, scale_estimate.
  rewrite <- Csum_div_r. apply Csum_ext. intros c _. apply Cdiv_mul_l.
Qed.



(** ** What [_reset] leaves behind *)

Lemma fold_setattr_commute (g : ILRMA -> ILRMA) :
  (forall kw s, setattr (g s) kw = g (setattr s kw)) ->
  forall kwargs s,
    fold_left setattr kwargs (g s) = g (fold_left setattr kwargs s).
Proof.
  intros Hg kwargs. induction kwargs as [| kw kwargs IH]; intros s; simpl;
    [reflexivity |].
  rewrite Hg. apply IH.
Qed.

Lemma fold_setattr_keeps {A : Type} (f : ILRMA -> A) :
  (forall kw s, f (setattr s kw) = f s) ->
  forall kwargs s, f (fold_left setattr kwargs s) = f s.
Proof.
  intros Hf kwargs. induction kwargs as [| kw kwargs IH]; intros s; simpl;
    [reflexivity |].
  rewrite IH. apply Hf.
Qed.

Lemma setattr_keeps_input (kwargs : list kwarg) (s : ILRMA) :
  input (fold_left setattr kwargs s) = input s.
Proof. apply fold_setattr_keeps. intros kw s0. destruct kw; reflexivity. Qed.

Lemma setattr_keeps_np_random (kwargs : list kwarg) (s : ILRMA) :
  np_random (fold_left setattr kwargs s) = np_random s.
Proof. apply fold_setattr_keeps. intros kw s0. destruct kw; reflexivity. Qed.

(** With the input set, [_reset] stores the keyword arguments and goes on
    as without them. *)
Lemma reset_kwargs_nil (kwargs : list kwarg) (s : ILRMA) (X : carray3) :
  input s = Some X ->
  _reset kwargs s = _reset [] (fold_left setattr kwargs s).
Proof.
  intros HX.
  assert (HX0 : input (fold_left setattr kwargs s) = Some X)
    by (rewrite setattr_keeps_input; exact HX).
  unfold _reset. rewrite !bind_get, HX, HX0. cbv iota.
  rewrite !bind_modify. reflexivity.
Qed.

Lemma reset_step (X : carray3) (kwargs : list kwarg) (s : ILRMA) :
  _reset kwargs (set_input (Some X) s) = (after_reset X kwargs s, Ok tt).
Proof.
  rewrite (@reset_kwargs_nil kwargs (set_input (Some X) s) X eq_refl).
  rewrite (fold_setattr_commute (set_input (Some X)))
    by (intros kw s0; destruct kw; reflexivity).
  unfold after_reset. cbv zeta.
  destruct (partitioning (fold_left setattr kwargs s)) eqn:HP.
  - apply reset_partitioned_step. exact HP.
  - apply reset_unconstrained_step. exact HP.
Qed.

Lemma after_reset_overwrites (X : carray3) (kwargs : list kwarg)
  (W E : carr3) (B A : ndarray) (s : ILRMA) :
  after_reset X kwargs
    (set_demix_filter W (set_estimation E (set_base B (set_activation A s))))
  = after_reset X kwargs s.
Proof.
  unfold after_reset. cbv zeta.
  rewrite (fold_setattr_commute
             (fun s => set_demix_filter W
                         (set_estimation E (set_base B (set_activation A s)))))
    by (intros kw s0; destruct kw; reflexivity).
  set (s0 := fold_left setattr kwargs s).
  change (partitioning
            (set_demix_filter W (set_estimation E (set_base B (set_activation A s0)))))
    with (partitioning s0).
  destruct (partitioning s0); reflexivity.
Qed.

Lemma separate_tiled_eye (n : nat) (X : carr3) (s f t : nat) :
  (s < n)%nat -> separate n X tiled_eye s f t = X s f t.
Proof.
  intros Hs. unfold separate, tiled_eye.
  rewrite (Csum_eye_row n s (fun c => X c f t)).
  apply Nat.ltb_lt in Hs. rewrite Hs. reflexivity.
Qed.

Lemma sum_n_const (n : nat) (c : R) : sum_n n (fun _ => c) = INR n * c.
Proof.
  induction n as [| n IH]; [simpl; ring |].
  cbn [sum_n]. rewrite IH, S_INR. ring.
Qed.

Lemma after_reset_partition_invariant (X : carray3) (kwargs : list kwarg)
  (s : ILRMA) :
  partitioning (fold_left setattr kwargs s) = true ->
  (0 < shape0 X)%nat ->
  (forall i, 0 <= np_random s i) ->
  partition_invariant (after_reset X kwargs s).
Proof.
  intros HP Hn Hrng. unfold after_reset. cbv zeta. rewrite HP.
  assert (Hrng0 : forall i, 0 <= np_random (fold_left setattr kwargs s) i)
    by (intros i; rewrite setattr_keeps_np_random; apply Hrng).
  generalize dependent (fold_left setattr kwargs s). intros s0 _ Hrng0.
  unfold partition_invariant.
  replace (n_sources (reset_partitioned X s0)) with (shape0 X) by reflexivity.
  replace (latent (reset_partitioned X s0))
    with (fun _ _ : nat => 1 / INR (shape0 X)) by reflexivity.
  assert (Hpos : 0 < INR (shape0 X)) by (apply lt_0_INR; exact Hn).
  split; [| split].
  - intros k _. rewrite sum_n_const. field. lra.
  - intros src k _ _. apply Rlt_le. apply Rdiv_lt_0_compat; lra.
  - exists (rand2 (np_random s0) (n_bases s0)).
    exists (rand2 (advance (np_random s0) (shape1 X * n_bases s0)) (shape2 X)).
    split; [reflexivity |]. split; [reflexivity |]. split.
    + intros f k _ _. unfold rand2. apply Hrng0.
    + intros k t _ _. unfold rand2, advance. apply Hrng0.
Qed.



(** ** A call does not start from the model of the call before *)


(** ** The base class *)

Lemma after_reset_loss (X : carray3) (kwargs : list kwarg) (s : ILRMA) :
  loss (after_reset X kwargs s) = loss (fold_left setattr kwargs s).
Proof.
  unfold after_reset. cbv zeta.
  destruct (partitioning (fold_left setattr kwargs s)); reflexivity.
Qed.

Lemma after_reset_input (X : carray3) (kwargs : list kwarg) (s : ILRMA) :
  input (after_reset X kwargs s) = Some X.
Proof.
  unfold after_reset. cbv zeta.
  destruct (partitioning (fold_left setattr kwargs s)); reflexivity.
Qed.

Lemma after_reset_demix_filter (X : carray3) (kwargs : list kwarg) (s : ILRMA) :
  demix_filter (after_reset X kwargs s) = tiled_eye.
Proof.
  unfold after_reset. cbv zeta.
  destruct (partitioning (fold_left setattr kwargs s)); reflexivity.
Qed.


(** ** Keyword arguments of a call *)

Lemma after_reset_kwargs (X : carray3) (kwargs : list kwarg) (s : ILRMA) :
  after_reset X kwargs s = after_reset X [] (fold_left setattr kwargs s).
Proof. reflexivity. Qed.

Lemma GaussILRMA_call_kwargs
  (projection_back : nat -> nat -> nat -> carr3 -> carr2 -> result carr2)
  (callback : option (ILRMA -> result unit))
  (X : carray3) (iteration : Z) (kwargs : list kwarg) (s : ILRMA) :
  GaussILRMA___call__ projection_back callback X iteration kwargs s
  = GaussILRMA___call__ projection_back callback X iteration []
      (fold_left setattr kwargs s).
Proof.
  unfold GaussILRMA___call__. rewrite !bind_modify.
  rewrite (@bind_ok _ _ _ _ _ _ _ (reset_step X kwargs s)).
  rewrite (@bind_ok _ _ _ _ _ _ _ (reset_step X [] (fold_left setattr kwargs s))).
  rewrite after_reset_kwargs. reflexivity.
Qed.

Lemma tILRMA_call_kwargs
  (projection_back : nat -> nat -> nat -> carr3 -> carr2 -> result carr2)
  (callback : option (ILRMA -> result unit))
  (X : carray3) (iteration : Z) (kwargs : list kwarg) (s : ILRMA) :
  tILRMA___call__ projection_back callback X iteration kwargs s
  = tILRMA___call__ projection_back callback X iteration []
      (fold_left setattr kwargs s).
Proof.
  unfold tILRMA___call__. rewrite !bind_modify.
  rewrite (@bind_ok _ _ _ _ _ _ _ (reset_step X kwargs s)).
  rewrite (@bind_ok _ _ _ _ _ _ _ (reset_step X [] (fold_left setattr kwargs s))).
  rewrite after_reset_kwargs. reflexivity.
Qed.


Lemma call_reset_state
  (projection_back : nat -> nat -> nat -> carr3 -> carr2 -> result carr2)
  (X : carray3) (kwargs : list kwarg) (s s0 : ILRMA) :
  bind (modify (set_input (Some X))) (fun _ => _reset kwargs) s = (s0, Ok tt) ->
  s0 = after_reset X kwargs s.
Proof.
  rewrite bind_modify. cbv beta. rewrite reset_step. intros H.
  exact (eq_sym (f_equal fst H)).
Qed.



(** ** A value of [normalize] that is no mode *)

Lemma eq_str_false (v : pyflag) (str : string) :
  v <> PyStr str -> eq_str v str = false.
Proof.
  intros H. destruct v as [| | s']; try reflexivity. simpl.
  apply String.eqb_neq. intros E. apply H. now rewrite E.
Qed.

Lemma GaussILRMA_normalize_invalid pb (s : ILRMA) (X : carray3) :
  input s = Some X ->
  truthy (normalize s) = true ->
  normalize s <> PyStr "power" ->
  normalize s <> PyStr "projection-back" ->
  GaussILRMA_normalize pb s
  = (set_estimation (separate (n_channels s) (at3 X) (demix_filter s)) s,
     Err (ValueError
            ("Not support normalization based on " ++ py_str (normalize s)
             ++ ". Choose 'power' or 'projection-back'"))).
Proof.
  intros HX HT HP HB. unfold GaussILRMA_normalize.
  rewrite bind_get, (@bind_get_input _ _ _ _ HX). cbv zeta.
  rewrite bind_modify, HT, (eq_str_false HP), (eq_str_false HB). reflexivity.
Qed.

Lemma bind_get_input_none {B : Type} (k : carray3 -> M B) (s : ILRMA) :
  input s = None ->
  bind get_input k s
  = (s, Err (TypeError "'NoneType' object is not subscriptable")).
Proof. intros H. unfold bind, get_input, bind, get. rewrite H. reflexivity. Qed.

Lemma GaussILRMA_normalize_no_input pb (s : ILRMA) :
  input s = None -> exists e, GaussILRMA_normalize pb s = (s, Err e).
Proof.
  intros HX. unfold GaussILRMA_normalize.
  rewrite bind_get, (@bind_get_input_none _ _ _ HX). eexists. reflexivity.
Qed.



(** ** A call without iterations, and the reference channel *)

Lemma GaussILRMA_loss_after_reset (X : carray3) (kwargs : list kwarg) (s : ILRMA) :
  exists baseline,
    GaussILRMA_compute_negative_loglikelihood (after_reset X kwargs s)
    = (after_reset X kwargs s, Ok baseline).
Proof.
  unfold after_reset. cbv zeta.
  generalize (fold_left setattr kwargs s). intros s0.
  destruct (partitioning s0) eqn:HP.
  - eexists.
    exact (@GaussILRMA_loss_partitioned (reset_partitioned X s0) X _ _
             eq_refl HP eq_refl eq_refl).
  - eexists.
    exact (@GaussILRMA_loss_unconstrained (reset_unconstrained X s0) X _ _
             eq_refl HP eq_refl eq_refl).
Qed.

Lemma reset_state (X : carray3) (kwargs : list kwarg) (s s0 : ILRMA) :
  _reset kwargs (set_input (Some X) s) = (s0, Ok tt) ->
  s0 = after_reset X kwargs s.
Proof. rewrite reset_step. intros H. exact (eq_sym (f_equal fst H)). Qed.

Lemma after_reset_n_channels (X : carray3) (kwargs : list kwarg) (s : ILRMA) :
  n_channels (after_reset X kwargs s) = shape0 X.
Proof.
  unfold after_reset. cbv zeta.
  destruct (partitioning (fold_left setattr kwargs s)); reflexivity.
Qed.

Lemma to_nat_nonpos (z : Z) : (z <= 0)%Z -> Z.to_nat z = O.
Proof. intros H. destruct z; try reflexivity. lia. Qed.

(** The start of a call up to the loop, for a number of iterations that is
    zero or negative: [range(iteration)] is empty. *)
Lemma call_without_iterations_steps
  (projection_back : nat -> nat -> nat -> carr3 -> carr2 -> result carr2)
  (callback : option (ILRMA -> result unit))
  (X : carray3) (iteration : Z) (kwargs : list kwarg) (s : ILRMA)
  (baseline : R) :
  (iteration <= 0)%Z ->
  GaussILRMA_compute_negative_loglikelihood (after_reset X kwargs s)
  = (after_reset X kwargs s, Ok baseline) ->
  GaussILRMA___call__ projection_back callback X iteration kwargs s
  = finish_call projection_back X (append_loss baseline (after_reset X kwargs s)).
Proof.
  intros Hi Hb. unfold GaussILRMA___call__. rewrite bind_modify.
  rewrite (@bind_ok _ _ _ _ _ _ _ (reset_step X kwargs s)). cbv beta.
  rewrite (@bind_ok _ _ _ _ _ _ _ Hb). cbv beta.
  rewrite bind_modify, (to_nat_nonpos Hi).
  unfold for_range, for_from. rewrite bind_ret. reflexivity.
Qed.



Lemma py_index_out_of_range (n : nat) (i : Z) :
  (i < - Z.of_nat n \/ Z.of_nat n <= i)%Z -> py_index n i = None.
Proof.
  intros H. unfold py_index.
  destruct (Z.leb_spec 0 i), (Z.ltb_spec i (Z.of_nat n)),
    (Z.leb_spec (- Z.of_nat n) i), (Z.ltb_spec i 0); simpl; try reflexivity; lia.
Qed.

Lemma finish_call_index_error pb (X : carray3) (s : ILRMA) :
  py_index (shape0 X) (reference_id s) = None ->
  finish_call pb X s
  = (s, Err (IndexError "index out of bounds for axis 0")).
Proof.
  intros H. unfold finish_call, call_projection_back.
  rewrite bind_get. cbv zeta. rewrite bind_assoc, bind_get, H. reflexivity.
Qed.

Lemma reference_id_model_independent : model_independent reference_id.
Proof. model_independent_tac. Qed.

Lemma keeps_GaussILRMA_iteration {A : Type} (f : ILRMA -> A) pb cb (idx : nat) :
  model_independent f ->
  (forall l s, f (append_loss l s) = f s) ->
  keeps f (GaussILRMA_iteration pb cb idx).
Proof.
  intros Hf Hl. unfold GaussILRMA_iteration.
  apply keeps_bind; [now apply keeps_GaussILRMA_update_once | intros _].
  apply keeps_bind;
    [now apply keeps_GaussILRMA_compute_negative_loglikelihood | intros l].
  apply keeps_bind; [apply keeps_modify; intros; apply Hl | intros _].
  apply keeps_run_callback.
Qed.



(** ** One [update_once] of the Gaussian driver *)

Lemma GaussILRMA_update_once_inv pb (s s' : ILRMA) :
  GaussILRMA_update_once pb s = (s', Ok tt) ->
  exists s1 s2,
    GaussILRMA_update_source_model s = (s1, Ok tt) /\
    GaussILRMA_update_space_model s1 = (s2, Ok tt) /\
    GaussILRMA_normalize pb s2 = (s', Ok tt).
Proof.
  unfold GaussILRMA_update_once. intros H.
  apply bind_inv in H. destruct H as [[s1 [[] [H1 H]]] | [e [_ H]]]; [| discriminate].
  apply bind_inv in H. destruct H as [[s2 [[] [H2 H]]] | [e [_ H]]]; [| discriminate].
  exists s1, s2. repeat split; assumption.
Qed.

Lemma GaussILRMA_normalize_off pb (s : ILRMA) (X : carray3) :
  input s = Some X ->
  truthy (normalize s) = false ->
  GaussILRMA_normalize pb s
  = (set_estimation (separate (n_channels s) (at3 X) (demix_filter s)) s, Ok tt).
Proof.
  intros HX HT. unfold GaussILRMA_normalize.
  rewrite bind_get, (@bind_get_input _ _ _ _ HX). cbv zeta.
  rewrite bind_modify, HT. reflexivity.
Qed.

Lemma n_channels_model_independent : model_independent n_channels.
Proof. model_independent_tac. Qed.

(** The two updates on a driver at the start of a call on [unit_mixture],
    with one basis and the samples of [rng_quarter]: both return. *)
Lemma unit_two_updates (s : ILRMA) :
  input s = Some unit_mixture ->
  partitioning s = false ->
  base s = Rank3 (rand3 rng_quarter 1 1) ->
  activation s = Rank3 (rand3 (advance rng_quarter (1 * 1 * 1)) 1 1) ->
  n_sources s = 1%nat -> n_channels s = 1%nat ->
  n_bins s = 1%nat -> n_frames s = 1%nat ->
  demix_filter s = tiled_eye ->
  0 < eps s ->
  exists s1 s2 T1 V1,
    GaussILRMA_update_source_model s = (s1, Ok tt) /\
    GaussILRMA_update_space_model s1 = (s2, Ok tt) /\
    base s2 = Rank3 T1 /\ activation s2 = Rank3 V1.
Proof.
  intros HX HP HB HA HS HC Hb Hf HW He.
  set (X := unit_mixture) in *.
  pose proof (@GaussILRMA_update_source_model_unconstrained s X _ _
                HX HP HB HA) as E1.
  cbv zeta in E1.
  match type of E1 with
  | _ = (set_activation (Rank3 ?V) (set_base (Rank3 ?T) _), _) =>
    set (T1 := T) in *; set (V1 := V) in *
  end.
  set (s1 := set_activation (Rank3 V1) (set_base (Rank3 T1) s)) in *.
  assert (E2 : exists s2, GaussILRMA_update_space_model s1 = (s2, Ok tt)).
  { eexists.
    refine (@GaussILRMA_update_space_model_single s1 X T1 V1
              HX HP eq_refl eq_refl HS _).
    intros f Hlt.
    replace (n_bins s1) with (n_bins s) in Hlt by reflexivity.
    rewrite Hb in Hlt. assert (f = O) by lia. subst f.
    replace (n_channels s1) with (n_channels s) by reflexivity.
    replace (n_frames s1) with (n_frames s) by reflexivity.
    replace (demix_filter s1) with (demix_filter s) by reflexivity.
    replace (eps s1) with (eps s) by reflexivity.
    rewrite HC, Hf, HW.
    apply nonsingular_1.
    rewrite filter_WU_1. replace (tiled_eye O O O) with C1 by reflexivity.
    rewrite Cmul_1_l.
    unfold weighted_covariance, outer_XX. cbn [Csum].
    replace (at3 X O O O) with (RtoC 1) by reflexivity.
    replace (INR 1) with 1 by reflexivity.
    match goal with
    | |- context [floor3 ?e ?A O O O] => set (r := floor3 e A O O O)
    end.
    assert (Hr : 0 < r).
    { unfold r, floor3.
      apply Rlt_le_trans with (eps s); [exact He | apply floor_at_ge]. }
    rewrite Cadd_0_l, RtoC_conj, RtoC_mul, !RtoC_div by lra.
    apply RtoC_nonzero.
    assert (0 < / r) by (now apply Rinv_0_lt_compat).
    unfold Rdiv. rewrite Rinv_1. lra. }
  destruct E2 as [s2 E2].
  exists s1, s2, T1, V1. split; [exact E1 |]. split; [exact E2 |]. split.
  - exact (@keeps_GaussILRMA_update_space_model_filter _ base
             (fun _ _ => eq_refl) _ _ _ E2).
  - exact (@keeps_GaussILRMA_update_space_model_filter _ activation
             (fun _ _ => eq_refl) _ _ _ E2).
Qed.

(** The default Gaussian driver on [unit_mixture]: one [update_once]
    returns. *)
Lemma unit_start_update_once pb :
  exists s', GaussILRMA_update_once pb unit_start = (s', Ok tt).
Proof.
  destruct (@unit_two_updates unit_start eq_refl eq_refl eq_refl eq_refl
              eq_refl eq_refl eq_refl eq_refl eq_refl EPS_pos)
    as (s1 & s2 & T1 & V1 & E1 & E2 & HB2 & _).
  assert (HI2 : input s2 = Some unit_mixture).
  { rewrite (keeps_GaussILRMA_update_space_model input_model_independent _ E2).
    rewrite (keeps_GaussILRMA_update_source_model input_model_independent _ E1).
    reflexivity. }
  assert (HN2 : normalize s2 = PyStr "power").
  { rewrite (keeps_GaussILRMA_update_space_model normalize_model_independent _ E2).
    rewrite (keeps_GaussILRMA_update_source_model normalize_model_independent _ E1).
    reflexivity. }
  assert (HP2 : partitioning s2 = false).
  { rewrite (keeps_GaussILRMA_update_space_model partitioning_model_independent _ E2).
    rewrite (keeps_GaussILRMA_update_source_model
               partitioning_model_independent _ E1).
    reflexivity. }
  pose proof (@GaussILRMA_normalize_power_unconstrained pb
                s2 unit_mixture T1 HI2 HN2 HP2 HB2) as E3.
  cbv zeta in E3.
  match type of E3 with _ = (?st, _) => exists st end.
  unfold GaussILRMA_update_once.
  rewrite (@bind_ok _ _ _ _ _ _ _ E1). cbv beta.
  rewrite (@bind_ok _ _ _ _ _ _ _ E2). cbv beta.
  exact E3.
Qed.





(** ** The power normalisation and the loss *)

Lemma prod_n_front (n : nat) (a : nat -> R) :
  prod_n (S n) a = a O * prod_n n (fun i => a (S i)).
Proof.
  induction n as [| n IH]; [simpl; ring |].
  change (prod_n (S (S n)) a) with (prod_n (S n) a * a (S n)).
  rewrite IH. simpl. ring.
Qed.

Lemma prod_n_pos (n : nat) (a : nat -> R) :
  (forall i, (i < n)%nat -> 0 < a i) -> 0 < prod_n n a.
Proof.
  induction n as [| n IH]; intros H; simpl; [lra |].
  apply Rmult_lt_0_compat; [apply IH; intros; apply H; lia | apply H; lia].
Qed.

Lemma ln_prod_n (n : nat) (a : nat -> R) :
  (forall i, (i < n)%nat -> 0 < a i) ->
  ln (prod_n n a) = sum_n n (fun i => ln (a i)).
Proof.
  induction n as [| n IH]; intros H; simpl; [apply ln_1 |].
  rewrite ln_mult;
    [| apply prod_n_pos; intros; apply H; lia | apply H; lia].
  rewrite IH by (intros; apply H; lia). reflexivity.
Qed.

Lemma Cdiv_real_mul (z w : C) (a b : R) :
  a <> 0 -> b <> 0 ->
  ((z / RtoC a) * (w / RtoC b))%C = ((z * w) / RtoC (a * b))%C.
Proof.
  intros Ha Hb. rewrite !Cdiv_real by (try assumption; nra).
  apply C_eq; unfold Cmul, Re, Im; simpl; field; split; assumption.
Qed.

Lemma Cmul_div_real (c z : C) (a : R) :
  (c * (z / RtoC a))%C = ((c * z) / RtoC a)%C.
Proof.
  apply C_eq; unfold Cdiv, Cmul, RtoC, Re, Im; simpl; unfold Rdiv; ring.
Qed.

(** Dividing row [i] of a matrix by [a i] divides its determinant by the
    product of the [a i]. *)
Lemma det_scale_rows (n : nat) (M : mat) (a : nat -> R) :
  (forall i, (i < n)%nat -> a i <> 0) ->
  det n (fun i j => (M i j / RtoC (a i))%C)
  = (det n M / RtoC (prod_n n a))%C.
Proof.
  revert M a. induction n as [| n IH]; intros M a Ha.
  - simpl. rewrite Cdiv_real by lra. apply C_eq; simpl; field.
  - rewrite prod_n_front.
    change (det (S n) M)
      with (Csum (S n) (fun j => (alt_sign j * (M O j * det n (minor M j)))%C)).
    change (det (S n) (fun i j => (M i j / RtoC (a i))%C))
      with (Csum (S n)
              (fun j => (alt_sign j
                         * ((M O j / RtoC (a O))
                            * det n (fun r c =>
                                       (minor M j r c / RtoC (a (S r)))%C)))%C)).
    rewrite <- Csum_div_r. apply Csum_ext. intros j _.
    rewrite (IH (minor M j) (fun r => a (S r)))
      by (intros i Hi; apply Ha; lia).
    assert (H0 : a O <> 0) by (apply Ha; lia).
    assert (Hp : prod_n n (fun i => a (S i)) <> 0).
    { clear - Ha. induction n as [| n IHn]; simpl; [lra |].
      apply Rmult_integral_contrapositive_currified;
        [apply IHn; intros; apply Ha; lia | apply Ha; lia]. }
    rewrite Cdiv_real_mul by assumption. apply Cmul_div_real.
Qed.

Lemma Cabs_div_real (z : C) (a : R) :
  0 < a -> Cabs (z / RtoC a) = Cabs z / a.
Proof.
  intros Ha. apply Rsqr_inj.
  - apply Cabs_nonneg.
  - apply Rmult_le_pos; [apply Cabs_nonneg | apply Rlt_le, Rinv_0_lt_compat, Ha].
  - unfold Rsqr.
    replace (Cabs (z / RtoC a) * Cabs (z / RtoC a))
      with (Cabs (z / RtoC a) ^ 2) by ring.
    rewrite power_div_real by lra. field. lra.
Qed.

Lemma sum_n_minus (n : nat) (f g : nat -> R) :
  sum_n n (fun i => f i - g i) = sum_n n f - sum_n n g.
Proof. induction n as [| n IH]; simpl; [ring | rewrite IH; ring]. Qed.

Lemma log_abs_det_scale (n_bins n_sources : nat) (aux : arr1) (W : carr3) :
  (forall s, (s < n_sources)%nat -> 0 < aux s) ->
  (forall f, (f < n_bins)%nat -> det n_sources (W f) <> C0) ->
  log_abs_det n_bins n_sources (scale_filter aux W)
  = log_abs_det n_bins n_sources W
    - INR n_bins * sum_n n_sources (fun s => ln (aux s)).
Proof.
  intros Ha Hd. unfold log_abs_det.
  rewrite <- sum_n_const, <- sum_n_minus.
  apply sum_n_ext. intros f Hf.
  change (scale_filter aux W f)
    with (fun s c => (W f s c / RtoC (aux s))%C).
  rewrite det_scale_rows
    by (intros i Hi; apply Rgt_not_eq; apply Ha; exact Hi).
  pose proof (@prod_n_pos n_sources aux Ha) as Hp.
  rewrite Cabs_div_real by exact Hp.
  unfold Rdiv. rewrite ln_mult;
    [| apply Cabs_pos; apply Hd; exact Hf | apply Rinv_0_lt_compat; exact Hp].
  rewrite ln_Rinv by exact Hp. rewrite ln_prod_n by exact Ha. ring.
Qed.

Lemma unc_psd_norm_base (n_bases : nat) (aux : arr1) (T V : arr3) (s f t : nat) :
  unc_psd n_bases (norm_unc_base aux T) V s f t
  = unc_psd n_bases T V s f t / aux s ^ 2.
Proof.
  unfold unc_psd, norm_unc_base. rewrite <- sum_n_div.
  apply sum_n_ext. intros k _. unfold Rdiv. ring.
Qed.

Lemma power_scale_filter (n_channels : nat) (X W : carr3) (aux : arr1)
  (s f t : nat) :
  aux s <> 0 ->
  power (separate n_channels X (scale_filter aux W)) s f t
  = power (separate n_channels X W) s f t / aux s ^ 2.
Proof.
  intros Ha. unfold power. rewrite separate_scale_filter.
  unfold scale_estimate. now apply power_div_real.
Qed.

Lemma sum3_ext (n0 n1 n2 : nat) (A B : arr3) :
  (forall i j k, (i < n0)%nat -> (j < n1)%nat -> (k < n2)%nat ->
     A i j k = B i j k) ->
  sum3 n0 n1 n2 A = sum3 n0 n1 n2 B.
Proof.
  intros H. unfold sum3.
  apply sum_n_ext. intros i Hi. apply sum_n_ext. intros j Hj.
  apply sum_n_ext. intros k Hk. now apply H.
Qed.

Lemma sum3_minus_source (n0 n1 n2 : nat) (A : arr3) (c : arr1) :
  sum3 n0 n1 n2 (fun i j k => A i j k - c i)
  = sum3 n0 n1 n2 A - INR n1 * INR n2 * sum_n n0 c.
Proof.
  unfold sum3.
  replace (INR n1 * INR n2 * sum_n n0 c)
    with (sum_n n0 (fun i => INR n1 * INR n2 * c i)).
  2:{ clear. induction n0 as [| n0 IH]; simpl; [ring | rewrite IH; ring]. }
  rewrite <- sum_n_minus. apply sum_n_ext. intros i _.
  replace (INR n1 * INR n2 * c i)
    with (sum_n n1 (fun _ => INR n2 * c i))
    by (rewrite sum_n_const; ring).
  rewrite <- sum_n_minus. apply sum_n_ext. intros j _.
  rewrite sum_n_minus, sum_n_const. reflexivity.
Qed.

(** The loss after the rescaling of the power normalisation, when no
    density is under the floor. *)
Lemma gauss_loss_power_scaling (eps : R)
  (n_sources n_channels n_bins n_frames n_bases : nat)
  (X W : carr3) (T V : arr3) (aux : arr1) :
  0 < eps ->
  (forall s, (s < n_sources)%nat -> 0 < aux s) ->
  (forall s f t, (s < n_sources)%nat -> (f < n_bins)%nat -> (t < n_frames)%nat ->
     eps <= unc_psd n_bases T V s f t /\
     eps <= unc_psd n_bases T V s f t / aux s ^ 2) ->
  (forall f, (f < n_bins)%nat -> det n_sources (W f) <> C0) ->
  gauss_loss n_sources n_bins n_frames
    (power (separate n_channels X (scale_filter aux W)))
    (floor3 eps (unc_psd n_bases (norm_unc_base aux T) V))
    (scale_filter aux W)
  = gauss_loss n_sources n_bins n_frames
      (power (separate n_channels X W))
      (floor3 eps (unc_psd n_bases T V))
      W.
Proof.
  intros Heps Ha Hfl Hd. unfold gauss_loss.
  rewrite log_abs_det_scale by assumption.
  rewrite (@sum3_ext n_sources n_bins n_frames _
             (fun s f t =>
                (power (separate n_channels X W) s f t
                 / floor3 eps (unc_psd n_bases T V) s f t
                 + ln (floor3 eps (unc_psd n_bases T V) s f t))
                - 2 * ln (aux s))).
  - rewrite sum3_minus_source.
    replace (sum_n n_sources (fun i => 2 * ln (aux i)))
      with (2 * sum_n n_sources (fun i => ln (aux i))).
    2:{ clear. induction n_sources as [| n IH]; simpl; [ring | rewrite <- IH; ring]. }
    ring.
  - intros s f t Hs Hf Ht.
    destruct (Hfl s f t Hs Hf Ht) as [H1 H2].
    pose proof (Ha s Hs) as Has.
    unfold floor3. rewrite unc_psd_norm_base.
    rewrite !floor_at_id by assumption.
    rewrite power_scale_filter by lra.
    set (p := power (separate n_channels X W) s f t).
    set (r := unc_psd n_bases T V s f t) in *.
    assert (Hr : 0 < r) by lra.
    assert (Ha2 : 0 < aux s ^ 2) by (apply pow_lt; exact Has).
    assert (E1 : p / aux s ^ 2 / (r / aux s ^ 2) = p / r)
      by (field; split; lra).
    assert (E2 : ln (r / aux s ^ 2) = ln r - 2 * ln (aux s)).
    { unfold Rdiv. rewrite ln_mult;
        [| exact Hr | apply Rinv_0_lt_compat; exact Ha2].
      rewrite ln_Rinv by exact Ha2.
      replace (aux s ^ 2) with (aux s * aux s) by ring.
      rewrite ln_mult by assumption. ring. }
    rewrite E1, E2. ring.
Qed.



(** ** The heavy-tailed driver *)

Section KeepsHeavyTailed.

Context {X : Type} (f : ILRMA -> X) (Hf : model_independent f).

Let Hlatent := proj1 Hf.
Let Hbase := proj1 (proj2 Hf).
Let Hactivation := proj1 (proj2 (proj2 Hf)).
Let Hfilter := proj1 (proj2 (proj2 (proj2 Hf))).
Let Hestimation := proj2 (proj2 (proj2 (proj2 Hf))).

Lemma keeps_tILRMA_update_space_model : keeps f tILRMA_update_space_model.
Proof.
  unfold tILRMA_update_space_model, for_range, tILRMA_update_source_row.
  repeat keeps_step.
Qed.

Lemma keeps_tILRMA_update_once : keeps f tILRMA_update_once.
Proof.
  unfold tILRMA_update_once.
  apply keeps_bind; [apply keeps_tILRMA_update_space_model | intros _].
  repeat keeps_step.
Qed.

Lemma keeps_tILRMA_compute_negative_loglikelihood :
  keeps f tILRMA_compute_negative_loglikelihood.
Proof. unfold tILRMA_compute_negative_loglikelihood. repeat keeps_step. Qed.

End KeepsHeavyTailed.

Lemma model_psd_state (s s' : ILRMA) (R_ : arr3) :
  model_psd s = (s', Ok R_) -> s' = s.
Proof.
  unfold model_psd. rewrite bind_get.
  destruct (partitioning s).
  - destruct (base s); simpl; try discriminate.
    destruct (activation s); simpl; try discriminate.
    intros H. exact (eq_sym (f_equal fst H)).
  - destruct (base s); simpl; try discriminate.
    destruct (activation s); simpl; try discriminate.
    intros H. exact (eq_sym (f_equal fst H)).
Qed.

Lemma tILRMA_loss_state (s s' : ILRMA) (l : R) :
  tILRMA_compute_negative_loglikelihood s = (s', Ok l) -> s' = s.
Proof.
  unfold tILRMA_compute_negative_loglikelihood. rewrite bind_get. cbv zeta.
  intros H.
  apply bind_inv in H. destruct H as [[s1 [R_ [H1 H]]] | [e [_ H]]]; [| discriminate].
  apply model_psd_state in H1. subst s1.
  exact (eq_sym (f_equal fst H)).
Qed.

Section HeavyTailedTrajectory.

Variable projection_back :
  forall (n_sources n_bins n_frames : nat), carr3 -> carr2 -> result carr2.
Variable callback : option (ILRMA -> result unit).

Lemma tILRMA_iteration_loss (idx : nat) (s s' : ILRMA) (r : result unit) :
  tILRMA_iteration callback idx s = (s', r) ->
  (exists l, loss s' = loss s ++ [l]) \/
  (loss s' = loss s /\ exists e, r = Err e).
Proof.
  unfold tILRMA_iteration. intros H.
  apply bind_inv in H. destruct H as [[s1 [[] [H1 H]]] | [e [H1 ->]]].
  2:{ right. split; [| eexists; reflexivity].
      apply (keeps_tILRMA_update_once loss_model_independent _ H1). }
  pose proof (keeps_tILRMA_update_once loss_model_independent _ H1) as K1.
  apply bind_inv in H. destruct H as [[s2 [l [H2 H]]] | [e [H2 ->]]].
  2:{ right. split; [| eexists; reflexivity].
      rewrite (keeps_tILRMA_compute_negative_loglikelihood loss _ H2).
      assumption. }
  pose proof (keeps_tILRMA_compute_negative_loglikelihood loss _ H2) as K2.
  apply bind_inv in H. destruct H as [[s3 [[] [H3 H]]] | [e [H3 _]]];
    [| discriminate].
  assert (E3 : s3 = append_loss l s2) by exact (eq_sym (f_equal fst H3)).
  left. exists l.
  rewrite (keeps_run_callback loss _ _ H), E3. unfold append_loss. simpl.
  congruence.
Qed.

Lemma tILRMA_loop_loss (n i : nat) (s s' : ILRMA) (r : result unit) :
  for_from i n (tILRMA_iteration callback) s = (s', r) ->
  exists new,
    loss s' = loss s ++ new /\
    (List.length new <= n)%nat /\
    (r = Ok tt -> List.length new = n).
Proof.
  revert i s. induction n as [| n IH]; intros i s H; simpl in H.
  - inversion H; subst. exists []. rewrite app_nil_r. repeat split; auto.
  - apply bind_inv in H. destruct H as [[s1 [[] [H1 H]]] | [e [H1 ->]]].
    + destruct (tILRMA_iteration_loss _ _ H1) as [[l Hl] | [_ [e He]]];
        [| discriminate].
      destruct (IH _ _ H) as [new [Hn [Hle Hok]]].
      exists (l :: new). rewrite Hn, Hl, <- app_assoc. simpl.
      repeat split; [lia | intros Hr; rewrite Hok by assumption; reflexivity].
    + destruct (tILRMA_iteration_loss _ _ H1) as [[l Hl] | [Hl _]].
      * exists [l]. repeat split; [assumption | simpl; lia | discriminate].
      * exists []. rewrite app_nil_r.
        repeat split; [assumption | simpl; lia | discriminate].
Qed.

Lemma tILRMA_call_loss (X : carray3) (iteration : Z) (kwargs : list kwarg)
  (s s' : ILRMA) (out : carr3) :
  tILRMA___call__ projection_back callback X iteration kwargs s = (s', Ok out) ->
  exists s0 baseline rest,
    _reset kwargs (set_input (Some X) s) = (s0, Ok tt) /\
    tILRMA_compute_negative_loglikelihood s0 = (s0, Ok baseline) /\
    loss s' = loss s0 ++ baseline :: rest /\
    List.length rest = Z.to_nat iteration /\
    (no_loss_kwarg kwargs = true -> loss s0 = loss s).
Proof.
  intros H. unfold tILRMA___call__ in H. rewrite bind_modify in H.
  apply bind_inv in H. destruct H as [[s2 [[] [H2 H]]] | [e [_ H]]]; [| discriminate].
  apply bind_inv in H. destruct H as [[s3 [l [H3 H]]] | [e [_ H]]]; [| discriminate].
  pose proof (tILRMA_loss_state _ H3) as E3. subst s3.
  apply bind_inv in H. destruct H as [[s4 [[] [H4 H]]] | [e [_ H]]]; [| discriminate].
  assert (E4 : s4 = append_loss l s2) by exact (eq_sym (f_equal fst H4)).
  apply bind_inv in H. destruct H as [[s5 [[] [H5 H]]] | [e [_ H]]]; [| discriminate].
  destruct (tILRMA_loop_loss _ _ _ H5) as [new [Hn [_ Hok]]].
  pose proof (keeps_finish_call loss_model_independent _ _ _ H) as K6.
  exists s2, l, new. split; [| split; [| split; [| split]]].
  - exact H2.
  - exact H3.
  - rewrite K6, Hn, E4. unfold append_loss. simpl. rewrite <- app_assoc. reflexivity.
  - apply Hok. reflexivity.
  - intros Hkw.
    exact (keeps_loss_reset _ Hkw _ H2).
Qed.

End HeavyTailedTrajectory.


(** [tILRMA.update_once] when the spatial update returned, in the
    unconstrained model, for every value of [normalize] that is true. *)
Lemma tILRMA_update_once_truthy (s s1 : ILRMA) (X : carray3) (T : arr3) :
  tILRMA_update_space_model s = (s1, Ok tt) ->
  input s1 = Some X ->
  truthy (normalize s1) = true ->
  partitioning s1 = false -> base s1 = Rank3 T ->
  let Y := separate (n_channels s1) (at3 X) (demix_filter s1) in
  let aux := norm_aux (eps s1) (n_bins s1) (n_frames s1) Y in
  tILRMA_update_once s
  = (set_estimation (scale_estimate aux Y)
       (set_demix_filter (scale_filter aux (demix_filter s1))
          (set_base (Rank3 (norm_unc_base aux T)) (set_estimation Y s1))),
     Ok tt).
Proof.
  intros E HX HN HP HB. unfold tILRMA_update_once.
  rewrite (@bind_ok _ _ _ _ _ _ _ E). cbv beta.
  rewrite bind_get, (@bind_get_input _ _ _ _ HX). cbv zeta.
  rewrite bind_modify, HN, HP. cbv iota.
  replace (base (set_estimation
                   (separate (n_channels s1) (at3 X) (demix_filter s1)) s1))
    with (base s1) by reflexivity.
  rewrite HB. reflexivity.
Qed.

(** The spatial update of the heavy-tailed driver at the start of a call
    on [unit_mixture] returns. *)
Lemma heavy_tailed_start_update_space_model (s : ILRMA) :
  input s = Some unit_mixture ->
  partitioning s = false ->
  base s = Rank3 (rand3 rng_quarter 1 10) ->
  activation s = Rank3 (rand3 (advance rng_quarter (1 * 1 * 10)) 10 1) ->
  n_sources s = 1%nat -> n_channels s = 1%nat ->
  n_bins s = 1%nat -> n_frames s = 1%nat ->
  demix_filter s = tiled_eye ->
  eps s = EPS -> nu s = 1 ->
  exists s1,
    tILRMA_update_space_model s = (s1, Ok tt) /\
    s1 = set_demix_filter (demix_filter s1) s.
Proof.
  intros HX HP HB HA HS HC Hb Hf HW He Hnu.
  eexists. split.
  - refine (@tILRMA_update_space_model_single s unit_mixture _ _
              HX HP HB HA HS _).
    intros f Hlt. rewrite Hb in Hlt. assert (f = O) by lia. subst f.
    rewrite HC, Hf, HW, He, Hnu.
    apply nonsingular_1.
    rewrite filter_WU_1. replace (tiled_eye O O O) with C1 by reflexivity.
    rewrite Cmul_1_l.
    unfold weighted_covariance, outer_XX. cbn [Csum].
    replace (at3 unit_mixture O O O) with (RtoC 1) by reflexivity.
    replace (INR 1) with 1 by reflexivity.
    match goal with
    | |- context [t_Xi ?n ?R_ ?P O O O] => set (xi := t_Xi n R_ P O O O)
    end.
    assert (Hxi : 0 < xi).
    { unfold xi, t_Xi. rewrite unit_power by reflexivity.
      match goal with
      | |- context [floor3 ?e ?A O O O] =>
        pose proof (floor_at_ge e (A O O O)) as Hfl;
        fold (floor3 e A O O O) in Hfl
      end.
      pose proof EPS_pos.
      apply Rmult_lt_0_compat; [lra | apply Rinv_0_lt_compat; lra]. }
    rewrite Cadd_0_l, RtoC_conj, RtoC_mul, !RtoC_div by lra.
    apply RtoC_nonzero.
    assert (0 < / xi) by (now apply Rinv_0_lt_compat).
    unfold Rdiv. rewrite Rinv_1. lra.
  - reflexivity.
Qed.

(** A call of the heavy-tailed driver with one iteration on
    [unit_mixture] returns, for every value of [normalize] that is true. *)
Lemma heavy_tailed_unit_call (v : pyflag) :
  truthy v = true ->
  exists s' out,
    tILRMA___call__ unit_projection_back None unit_mixture 1 []
      (set_normalize v heavy_tailed_driver) = (s', Ok out).
Proof.
  intros Hv.
  set (X := unit_mixture).
  set (d := set_normalize v heavy_tailed_driver).
  set (s0 := reset_unconstrained X d).
  assert (E1 : _reset [] (set_input (Some X) d) = (s0, Ok tt))
    by (apply reset_unconstrained_step; reflexivity).
  set (T0 := rand3 rng_quarter 1 10).
  set (V0 := rand3 (advance rng_quarter (1 * 1 * 10)) 10 1).
  pose proof (@tILRMA_loss_unconstrained s0 T0 V0 eq_refl eq_refl eq_refl) as E2.
  match type of E2 with _ = (_, Ok ?l) => set (L0 := l) in * end.
  set (s0' := append_loss L0 s0).
  destruct (@heavy_tailed_start_update_space_model s0'
              eq_refl eq_refl eq_refl eq_refl eq_refl eq_refl
              eq_refl eq_refl eq_refl eq_refl eq_refl) as [s1 [E3 K1]].
  assert (HX1 : input s1 = Some X) by (rewrite K1; reflexivity).
  assert (HN1 : truthy (normalize s1) = true) by (rewrite K1; exact Hv).
  assert (HP1 : partitioning s1 = false) by (rewrite K1; reflexivity).
  assert (HB1 : base s1 = Rank3 T0) by (rewrite K1; reflexivity).
  assert (HA1 : activation s1 = Rank3 V0) by (rewrite K1; reflexivity).
  assert (HR1 : reference_id s1 = 0%Z) by (rewrite K1; reflexivity).
  pose proof (@tILRMA_update_once_truthy s0' s1 X T0 E3 HX1 HN1 HP1 HB1) as E4.
  cbv zeta in E4.
  match type of E4 with _ = (?st, _) => set (s2 := st) in * end.
  pose proof (@tILRMA_loss_unconstrained s2 _ V0 HP1 eq_refl HA1) as E5.
  match type of E5 with _ = (_, Ok ?l) => set (L1 := l) in * end.
  set (s2' := append_loss L1 s2).
  assert (HR2 : py_index (shape0 X) (reference_id s2') = Some O).
  { replace (reference_id s2') with (reference_id s1) by reflexivity.
    rewrite HR1. reflexivity. }
  pose proof (@finish_call_ok unit_projection_back X s2' O (fun _ _ => C1)
                HR2 eq_refl) as E6.
  match type of E6 with _ = (?st, Ok ?o) => exists st, o end.
  unfold tILRMA___call__. rewrite bind_modify.
  rewrite (@bind_ok _ _ _ _ _ _ _ E1). cbv beta.
  rewrite (@bind_ok _ _ _ _ _ _ _ E2). cbv beta.
  rewrite bind_modify. fold s0'.
  replace (Z.to_nat 1) with 1%nat by reflexivity. unfold for_range, for_from.
  rewrite ?bind_assoc. unfold tILRMA_iteration. rewrite ?bind_assoc.
  rewrite (@bind_ok _ _ _ _ _ _ _ E4). cbv beta. rewrite ?bind_assoc.
  rewrite (@bind_ok _ _ _ _ _ _ _ E5). cbv beta.
  rewrite ?bind_assoc, bind_modify. fold s2'.
  unfold run_callback. rewrite !bind_ret. exact E6.
Qed.




(** ** The consistent driver *)


Section ConsistentProperties.

Variable signal : Type.
Variable istft :
  forall (n_sources n_bins n_frames : nat) (fft_size hop_size : Z),
    carr3 -> result signal.
Variable stft : forall (fft_size hop_size : Z), signal -> result carr3.
Variable projection_back :
  forall (n_sources n_bins n_frames : nat), carr3 -> carr2 -> result carr2.

Lemma keeps_consistency_projection {A : Type} (f : ILRMA -> A)
  (fft_size hop_size : Z) :
  (forall v s, f (set_estimation v s) = f s) ->
  keeps f (consistency_projection istft stft fft_size hop_size).
Proof.
  intros Hf. unfold consistency_projection. repeat keeps_step.
Qed.

Lemma consistency_projection_ok (fft_size hop_size : Z) (s : ILRMA)
  (y : signal) (Y : carr3) :
  istft (n_sources s) (n_bins s) (n_frames s) fft_size hop_size (estimation s)
  = Ok y ->
  stft fft_size hop_size y = Ok Y ->
  consistency_projection istft stft fft_size hop_size s
  = (set_estimation Y s, Ok tt).
Proof.
  intros H1 H2. unfold consistency_projection.
  rewrite bind_get. unfold lift, bind at 1. rewrite H1.
  unfold bind at 1. rewrite H2. reflexivity.
Qed.

Lemma ConsistentGaussILRMA_rescale_rejects (s : ILRMA) (X : carray3) :
  input s = Some X ->
  partitioning s = true ->
  ConsistentGaussILRMA_rescale projection_back s
  = (s, Err (NotImplementedError msg_projection_back_partitioning)).
Proof.
  intros HX HP. unfold ConsistentGaussILRMA_rescale.
  rewrite bind_get, (@bind_get_input _ _ _ _ HX). cbv zeta.
  rewrite HP. reflexivity.
Qed.

Lemma ConsistentGaussILRMA_rescale_no_input (s : ILRMA) :
  input s = None ->
  exists e, ConsistentGaussILRMA_rescale projection_back s = (s, Err e).
Proof.
  intros HX. unfold ConsistentGaussILRMA_rescale.
  rewrite bind_get, (@bind_get_input_none _ _ _ HX). eexists. reflexivity.
Qed.

Lemma consistent_update_once_partitioned_raises (fft hop : Z) (s : ILRMA) :
  partitioning s = true ->
  exists s' e,
    ConsistentGaussILRMA_update_once istft stft projection_back fft hop s
    = (s', Err e).
Proof.
  intros HP. unfold ConsistentGaussILRMA_update_once.
  destruct (consistency_projection istft stft fft hop s)
    as [s0 [[] | e0]] eqn:H0.
  2:{ rewrite (@bind_err _ _ _ _ _ _ _ H0). eexists; eexists; reflexivity. }
  pose proof (keeps_consistency_projection partitioning fft hop
                (fun _ _ => eq_refl) _ H0) as HP0.
  rewrite (@bind_ok _ _ _ _ _ _ _ H0).
  destruct (GaussILRMA_update_source_model s0) as [s1 [[] | e1]] eqn:H1.
  2:{ rewrite (@bind_err _ _ _ _ _ _ _ H1). eexists; eexists; reflexivity. }
  pose proof (keeps_GaussILRMA_update_source_model
                partitioning_model_independent _ H1) as HP1.
  rewrite (@bind_ok _ _ _ _ _ _ _ H1).
  destruct (GaussILRMA_update_space_model s1) as [s2 [[] | e2]] eqn:H2.
  2:{ rewrite (@bind_err _ _ _ _ _ _ _ H2). eexists; eexists; reflexivity. }
  pose proof (keeps_GaussILRMA_update_space_model
                partitioning_model_independent _ H2) as HP2.
  rewrite (@bind_ok _ _ _ _ _ _ _ H2).
  destruct (GaussILRMA_update_space_model_input _ H2) as [X HX].
  eexists; eexists.
  apply ConsistentGaussILRMA_rescale_rejects with (X := X); congruence.
Qed.

Lemma consistent_update_once_partitioned_not_implemented (fft hop : Z)
  (s s0 s1 s2 : ILRMA) :
  partitioning s = true ->
  consistency_projection istft stft fft hop s = (s0, Ok tt) ->
  GaussILRMA_update_source_model s0 = (s1, Ok tt) ->
  GaussILRMA_update_space_model s1 = (s2, Ok tt) ->
  ConsistentGaussILRMA_update_once istft stft projection_back fft hop s
  = (s2, Err (NotImplementedError msg_projection_back_partitioning)).
Proof.
  intros HP H0 H1 H2. unfold ConsistentGaussILRMA_update_once.
  pose proof (keeps_consistency_projection partitioning fft hop
                (fun _ _ => eq_refl) _ H0) as HP0.
  pose proof (keeps_GaussILRMA_update_source_model
                partitioning_model_independent _ H1) as HP1.
  pose proof (keeps_GaussILRMA_update_space_model
                partitioning_model_independent _ H2) as HP2.
  destruct (GaussILRMA_update_space_model_input _ H2) as [X HX].
  rewrite (@bind_ok _ _ _ _ _ _ _ H0), (@bind_ok _ _ _ _ _ _ _ H1),
    (@bind_ok _ _ _ _ _ _ _ H2).
  apply ConsistentGaussILRMA_rescale_rejects with (X := X); congruence.
Qed.

End ConsistentProperties.



(** *** The round trip through the time domain is not read *)

Lemma estimation_blind_bind {A B : Type} (m : M A) (k : A -> M B) :
  estimation_blind m -> (forall a, estimation_blind (k a)) ->
  estimation_blind (bind m k).
Proof.
  intros Hm Hk E s. unfold bind. rewrite Hm.
  destruct (m s) as [s1 [a | e]]; simpl; [apply Hk | reflexivity].
Qed.

Lemma estimation_blind_for_from (body : nat -> M unit) (n i : nat) :
  (forall j, estimation_blind (body j)) -> estimation_blind (for_from i n body).
Proof.
  intros Hb. revert i. induction n as [| n IH]; intros i; simpl.
  - intros E s. reflexivity.
  - apply estimation_blind_bind; [apply Hb | intros _; apply IH].
Qed.

Lemma estimation_blind_update_source_model :
  estimation_blind GaussILRMA_update_source_model.
Proof.
  intros E s.
  unfold GaussILRMA_update_source_model, bind, get, get_input, bind, get,
    modify, ret, raise.
  replace (input (set_estimation E s)) with (input s) by reflexivity.
  destruct (input s) as [X |]; [| reflexivity].
  replace (partitioning (set_estimation E s)) with (partitioning s) by reflexivity.
  replace (base (set_estimation E s)) with (base s) by reflexivity.
  replace (activation (set_estimation E s)) with (activation s) by reflexivity.
  destruct (partitioning s); destruct (base s); try reflexivity;
    destruct (activation s); reflexivity.
Qed.

Lemma estimation_blind_update_source_row
  (U : nat -> nat -> nat -> nat -> C) (source_idx : nat) :
  estimation_blind (GaussILRMA_update_source_row U source_idx).
Proof.
  intros E s. unfold GaussILRMA_update_source_row.
  rewrite !bind_get. cbv zeta. unfold bind, lift, modify.
  replace (n_bins (set_estimation E s)) with (n_bins s) by reflexivity.
  replace (n_channels (set_estimation E s)) with (n_channels s) by reflexivity.
  replace (demix_filter (set_estimation E s)) with (demix_filter s) by reflexivity.
  destruct (np_linalg_solve _ _ _ _); reflexivity.
Qed.

Lemma estimation_blind_update_space_model :
  estimation_blind GaussILRMA_update_space_model.
Proof.
  intros E s. unfold GaussILRMA_update_space_model. rewrite !bind_get.
  destruct (input s) as [X |] eqn:HX.
  - rewrite (@bind_get_input _ _ s X HX).
    rewrite (@bind_get_input _ _ (set_estimation E s) X HX).
    unfold model_psd. rewrite ?bind_assoc, !bind_get.
    replace (partitioning (set_estimation E s)) with (partitioning s) by reflexivity.
    replace (base (set_estimation E s)) with (base s) by reflexivity.
    replace (activation (set_estimation E s)) with (activation s) by reflexivity.
    replace (n_frames (set_estimation E s)) with (n_frames s) by reflexivity.
    replace (n_sources (set_estimation E s)) with (n_sources s) by reflexivity.
    replace (n_bases (set_estimation E s)) with (n_bases s) by reflexivity.
    replace (latent (set_estimation E s)) with (latent s) by reflexivity.
    replace (eps (set_estimation E s)) with (eps s) by reflexivity.
    destruct (partitioning s); destruct (base s); try reflexivity;
      destruct (activation s); try reflexivity;
      (cbn [get_rank2 get_rank3]; rewrite ?bind_assoc, !bind_ret;
       apply estimation_blind_for_from; intros j;
       apply estimation_blind_update_source_row).
  - rewrite (@bind_get_input_none _ _ s HX).
    rewrite (@bind_get_input_none _ _ (set_estimation E s) HX).
    reflexivity.
Qed.

Lemma ConsistentGaussILRMA_rescale_overwrites pb (E : carr3) (s : ILRMA) :
  ConsistentGaussILRMA_rescale pb (set_estimation E s)
  = match ConsistentGaussILRMA_rescale pb s with
    | (s', Ok u) => (s', Ok u)
    | (s', Err e) => (set_estimation E s', Err e)
    end.
Proof.
  unfold ConsistentGaussILRMA_rescale. rewrite !bind_get.
  destruct (input s) as [X |] eqn:HX.
  - rewrite (@bind_get_input _ _ s X HX).
    rewrite (@bind_get_input _ _ (set_estimation E s) X HX).
    cbv zeta.
    replace (partitioning (set_estimation E s)) with (partitioning s) by reflexivity.
    destruct (partitioning s); [reflexivity |].
    unfold call_projection_back. rewrite ?bind_assoc, !bind_get.
    replace (reference_id (set_estimation E s)) with (reference_id s) by reflexivity.
    destruct (py_index (shape0 X) (reference_id s)) as [r |]; [| reflexivity].
    replace (n_sources (set_estimation E s)) with (n_sources s) by reflexivity.
    replace (n_bins (set_estimation E s)) with (n_bins s) by reflexivity.
    replace (n_frames (set_estimation E s)) with (n_frames s) by reflexivity.
    replace (n_channels (set_estimation E s)) with (n_channels s) by reflexivity.
    replace (demix_filter (set_estimation E s)) with (demix_filter s) by reflexivity.
    replace (base (set_estimation E s)) with (base s) by reflexivity.
    unfold bind, lift, modify.
    destruct (pb _ _ _ _ _); reflexivity.
  - rewrite (@bind_get_input_none _ _ s HX).
    rewrite (@bind_get_input_none _ _ (set_estimation E s) HX).
    reflexivity.
Qed.



(** ** A frequency bin in which the mixture is zero *)

Lemma Csum_zero (n : nat) (f : nat -> C) :
  (forall i, (i < n)%nat -> f i = C0) -> Csum n f = C0.
Proof.
  induction n as [| n IH]; intros H; simpl; [reflexivity |].
  rewrite IH by (intros; apply H; lia). rewrite H by lia. apply Cadd_0_l.
Qed.

Lemma zero_matrix_singular (n : nat) (M : mat) :
  (0 < n)%nat ->
  (forall i j, (i < n)%nat -> (j < n)%nat -> M i j = C0) ->
  ~ nonsingular n M.
Proof.
  intros Hn HM Hns.
  destruct (Hns (fun _ => C1)) as [w [Hw _]].
  specialize (Hw O Hn). unfold matvec in Hw.
  rewrite Csum_zero in Hw.
  - apply RtoC_inj in Hw. lra.
  - intros j Hj. rewrite HM by assumption. apply Cmul_0_l.
Qed.

Lemma weighted_covariance_silent (n_frames : nat) (X : carr3) (R_ : arr3)
  (s f c c' : nat) :
  (forall t, (t < n_frames)%nat -> X c f t = C0) ->
  weighted_covariance n_frames X R_ s f c c' = C0.
Proof.
  intros H. unfold weighted_covariance, outer_XX.
  rewrite Csum_zero; [apply Cdiv_0_l |].
  intros t Ht. rewrite H by exact Ht. rewrite Cmul_0_l. apply Cdiv_0_l.
Qed.

Lemma filter_WU_silent (n_channels n_frames : nat) (W X : carr3) (R_ : arr3)
  (s f : nat) :
  (0 < n_channels)%nat ->
  (forall c t, (c < n_channels)%nat -> (t < n_frames)%nat -> X c f t = C0) ->
  ~ nonsingular n_channels
      (filter_WU n_channels W (weighted_covariance n_frames X R_ s) f).
Proof.
  intros Hn H. apply zero_matrix_singular; [exact Hn |].
  intros i j Hi Hj. unfold filter_WU. apply Csum_zero. intros c Hc.
  rewrite weighted_covariance_silent by (intros t Ht; now apply H).
  apply Cmul_0_r.
Qed.

Lemma GaussILRMA_update_source_row_singular
  (U : nat -> nat -> nat -> nat -> C) (source_idx : nat) (s : ILRMA) (f : nat) :
  (f < n_bins s)%nat ->
  ~ nonsingular (n_channels s)
      (filter_WU (n_channels s) (demix_filter s) (U source_idx) f) ->
  GaussILRMA_update_source_row U source_idx s
  = (s, Err (LinAlgError "Singular matrix")).
Proof.
  intros Hf Hs. unfold GaussILRMA_update_source_row.
  rewrite bind_get. cbv zeta. unfold bind, lift.
  rewrite (@np_linalg_solve_singular _ _ _ _ f Hf Hs). reflexivity.
Qed.

Lemma GaussILRMA_update_space_model_silent_bin (s : ILRMA) (X : carray3)
  (R_ : arr3) (f : nat) :
  input s = Some X ->
  model_psd s = (s, Ok R_) ->
  (0 < n_sources s)%nat ->
  (0 < n_channels s)%nat ->
  (f < n_bins s)%nat ->
  (forall c t, (c < n_channels s)%nat -> (t < n_frames s)%nat ->
     at3 X c f t = C0) ->
  GaussILRMA_update_space_model s = (s, Err (LinAlgError "Singular matrix")).
Proof.
  intros HX HR Hs Hc Hf H0. unfold GaussILRMA_update_space_model.
  rewrite bind_get, (@bind_get_input _ _ _ _ HX).
  rewrite (@bind_ok _ _ _ _ _ _ _ HR). cbv zeta.
  destruct (n_sources s) as [| k]; [lia |].
  unfold for_range. cbn [for_from].
  apply bind_err.
  apply GaussILRMA_update_source_row_singular with (f := f); [exact Hf |].
  now apply filter_WU_silent.
Qed.

Lemma model_psd_ready (s : ILRMA) :
  model_ready s -> exists R_, model_psd s = (s, Ok R_).
Proof.
  unfold model_ready, model_psd. rewrite bind_get.
  destruct (partitioning s); intros (T & V & HB & HA); rewrite HB, HA;
    eexists; reflexivity.
Qed.

Lemma after_reset_ready (X : carray3) (kwargs : list kwarg) (s : ILRMA) :
  model_ready (after_reset X kwargs s).
Proof.
  unfold after_reset. cbv zeta.
  generalize (fold_left setattr kwargs s). intros s0.
  destruct (partitioning s0) eqn:HP; unfold model_ready.
  - replace (partitioning (reset_partitioned X s0)) with (partitioning s0)
      by reflexivity.
    rewrite HP. eexists; eexists; split; reflexivity.
  - replace (partitioning (reset_unconstrained X s0)) with (partitioning s0)
      by reflexivity.
    rewrite HP. eexists; eexists; split; reflexivity.
Qed.

(** With the input set and the model of the right rank, the source update
    returns and leaves a model of the right rank. *)
Lemma GaussILRMA_update_source_model_ready (s : ILRMA) (X : carray3) :
  input s = Some X ->
  model_ready s ->
  exists s1,
    GaussILRMA_update_source_model s = (s1, Ok tt) /\ model_ready s1.
Proof.
  intros HX HR. unfold model_ready in HR.
  destruct (partitioning s) eqn:HP; destruct HR as (T & V & HB & HA).
  - eexists. split.
    + exact (@GaussILRMA_update_source_model_partitioned s X T V HX HP HB HA).
    + unfold model_ready. cbv zeta.
      match goal with
      | |- if partitioning ?st then _ else _ =>
        replace (partitioning st) with (partitioning s) by reflexivity
      end.
      rewrite HP. eexists; eexists; split; reflexivity.
  - eexists. split.
    + exact (@GaussILRMA_update_source_model_unconstrained s X T V HX HP HB HA).
    + unfold model_ready. cbv zeta.
      match goal with
      | |- if partitioning ?st then _ else _ =>
        replace (partitioning st) with (partitioning s) by reflexivity
      end.
      rewrite HP. eexists; eexists; split; reflexivity.
Qed.

Lemma after_reset_shape (X : carray3) (kwargs : list kwarg) (s : ILRMA) :
  (n_sources (after_reset X kwargs s), n_channels (after_reset X kwargs s),
   n_bins (after_reset X kwargs s), n_frames (after_reset X kwargs s))
  = (shape0 X, shape0 X, shape1 X, shape2 X).
Proof.
  unfold after_reset. cbv zeta.
  destruct (partitioning (fold_left setattr kwargs s)); reflexivity.
Qed.

Lemma sizes_model_independent :
  model_independent
    (fun s => (n_sources s, n_channels s, n_bins s, n_frames s)).
Proof. model_independent_tac. Qed.



(** ** The baseline *)

Lemma det_eye (n : nat) : det n eye = C1.
Proof.
  induction n as [| n IH]; [reflexivity |].
  change (det (S n) eye)
    with (Csum (S n) (fun j => (alt_sign j * (eye O j * det n (minor eye j)))%C)).
  rewrite (@Csum_ext (S n) _
             (fun j => (eye O j * (alt_sign j * det n (minor eye j)))%C))
    by (intros j _; c_ring).
  rewrite (Csum_eye_row (S n) O (fun j => (alt_sign j * det n (minor eye j))%C)).
  replace (0 <? S n)%nat with true by reflexivity.
  change (minor eye O) with eye. rewrite IH.
  change (alt_sign O) with C1. apply Cmul_1_l.
Qed.

Lemma log_abs_det_tiled_eye (n_bins n_sources : nat) :
  log_abs_det n_bins n_sources tiled_eye = 0.
Proof.
  unfold log_abs_det. apply sum_n_zero. intros f _.
  change (tiled_eye f) with eye. rewrite det_eye, Cabs_C1. apply ln_1.
Qed.



(** *** The rescaling of the consistent driver *)

Lemma ConsistentGaussILRMA_rescale_ok pb (s : ILRMA) (X : carray3) (r : nat)
  (scale : carr2) :
  input s = Some X ->
  partitioning s = false ->
  py_index (shape0 X) (reference_id s) = Some r ->
  pb (n_sources s) (n_bins s) (n_frames s)
     (separate (n_channels s) (at3 X) (demix_filter s))
     (fun f t => at3 X r f t) = Ok scale ->
  ConsistentGaussILRMA_rescale pb s
  = (set_base (Rank3 (scale_base scale (base s)))
       (set_estimation
          (separate (n_channels s) (at3 X) (scale_rows scale (demix_filter s)))
          (set_demix_filter (scale_rows scale (demix_filter s)) s)),
     Ok tt).
Proof.
  intros HX HP Hr Hpb. unfold ConsistentGaussILRMA_rescale.
  rewrite bind_get, (@bind_get_input _ _ _ _ HX). cbv zeta. rewrite HP.
  unfold call_projection_back. rewrite ?bind_assoc, bind_get, Hr.
  unfold bind at 1. unfold lift. rewrite Hpb. reflexivity.
Qed.

Lemma ConsistentGaussILRMA_rescale_inv pb (s s' : ILRMA) (X : carray3) :
  input s = Some X ->
  ConsistentGaussILRMA_rescale pb s = (s', Ok tt) ->
  partitioning s = false /\
  exists r scale,
    py_index (shape0 X) (reference_id s) = Some r /\
    pb (n_sources s) (n_bins s) (n_frames s)
       (separate (n_channels s) (at3 X) (demix_filter s))
       (fun f t => at3 X r f t) = Ok scale.
Proof.
  intros HX H. unfold ConsistentGaussILRMA_rescale in H.
  rewrite bind_get, (@bind_get_input _ _ _ _ HX) in H. cbv zeta in H.
  destruct (partitioning s); [discriminate H |]. split; [reflexivity |].
  unfold call_projection_back in H. rewrite ?bind_assoc, bind_get in H.
  destruct (py_index (shape0 X) (reference_id s)) as [r |]; [| discriminate H].
  unfold bind at 1 in H. unfold lift in H.
  destruct (pb (n_sources s) (n_bins s) (n_frames s)
              (separate (n_channels s) (at3 X) (demix_filter s))
              (fun f t => at3 X r f t)) as [scale | e] eqn:Hpb;
    [| discriminate H].
  exists r, scale. split; [reflexivity | exact Hpb].
Qed.



Lemma Cprod_front (n : nat) (c : nat -> C) :
  Cprod (S n) c = (c O * Cprod n (fun i => c (S i)))%C.
Proof.
  induction n as [| n IH]; [simpl; c_ring |].
  change (Cprod (S (S n)) c) with (Cprod (S n) c * c (S n))%C.
  rewrite IH. simpl. c_ring.
Qed.

(** Multiplying row [i] of a matrix by [c i] multiplies its determinant by
    the product of the [c i]. *)
Lemma det_mul_rows (n : nat) (M : mat) (c : nat -> C) :
  det n (fun i j => (M i j * c i)%C) = (det n M * Cprod n c)%C.
Proof.
  revert M c. induction n as [| n IH]; intros M c.
  - simpl. c_ring.
  - rewrite Cprod_front.
    change (det (S n) M)
      with (Csum (S n) (fun j => (alt_sign j * (M O j * det n (minor M j)))%C)).
    change (det (S n) (fun i j => (M i j * c i)%C))
      with (Csum (S n)
              (fun j => (alt_sign j
                         * ((M O j * c O)
                            * det n (fun r k => (minor M j r k * c (S r))%C)))%C)).
    rewrite <- Csum_scal_r. apply Csum_ext. intros j _.
    rewrite (IH (minor M j) (fun r => c (S r))).
    generalize (det n (minor M j)) (Cprod n (fun i => c (S i))) (alt_sign j)
      (M O j) (c O).
    intros d p a m c0. c_ring.
Qed.

Lemma Cabs_Cprod (n : nat) (c : nat -> C) :
  Cabs (Cprod n c) = prod_n n (fun i => Cabs (c i)).
Proof.
  induction n as [| n IH]; simpl; [apply Cabs_C1 |].
  rewrite Cabs_mul, IH. reflexivity.
Qed.

Lemma sum_n_plus (n : nat) (f g : nat -> R) :
  sum_n n (fun i => f i + g i) = sum_n n f + sum_n n g.
Proof. induction n as [| n IH]; simpl; [ring | rewrite IH; ring]. Qed.

Lemma sum_n_scal_l (n : nat) (f : nat -> R) (c : R) :
  sum_n n (fun i => c * f i) = c * sum_n n f.
Proof. induction n as [| n IH]; simpl; [ring | rewrite IH; ring]. Qed.

Lemma sum_n_swap (n m : nat) (g : nat -> nat -> R) :
  sum_n n (fun i => sum_n m (fun j => g i j))
  = sum_n m (fun j => sum_n n (fun i => g i j)).
Proof.
  induction n as [| n IH]; simpl.
  - symmetry. apply sum_n_zero. reflexivity.
  - rewrite IH, <- sum_n_plus. reflexivity.
Qed.

Lemma log_abs_det_scale_rows (n_bins n_sources : nat) (scale : carr2)
  (W : carr3) :
  (forall s f, (s < n_sources)%nat -> (f < n_bins)%nat -> scale s f <> C0) ->
  (forall f, (f < n_bins)%nat -> det n_sources (W f) <> C0) ->
  log_abs_det n_bins n_sources (scale_rows scale W)
  = log_abs_det n_bins n_sources W
    + sum_n n_bins
        (fun f => sum_n n_sources (fun s => ln (Cabs (scale s f)))).
Proof.
  intros Hs Hd. unfold log_abs_det. rewrite <- sum_n_plus.
  apply sum_n_ext. intros f Hf.
  change (scale_rows scale W f)
    with (fun s c => (W f s c * (fun s0 => scale s0 f) s)%C).
  rewrite det_mul_rows, Cabs_mul, Cabs_Cprod.
  assert (Hp : forall i, (i < n_sources)%nat -> 0 < Cabs (scale i f))
    by (intros i Hi; apply Cabs_pos; now apply Hs).
  rewrite ln_mult;
    [| apply Cabs_pos; now apply Hd | now apply prod_n_pos].
  rewrite ln_prod_n by exact Hp. reflexivity.
Qed.

Lemma power_scale_rows (n_channels : nat) (X W : carr3) (scale : carr2)
  (s f t : nat) :
  power (separate n_channels X (scale_rows scale W)) s f t
  = power (separate n_channels X W) s f t * Cabs (scale s f) ^ 2.
Proof.
  unfold power. rewrite separate_scale_rows. unfold apply_scale.
  rewrite Cabs_mul. ring.
Qed.

Lemma unc_psd_scale_base (n_bases : nat) (scale : carr2) (T V : arr3)
  (s f t : nat) :
  unc_psd n_bases (scale_base scale (Rank3 T)) V s f t
  = unc_psd n_bases T V s f t * Cabs (scale s f) ^ 2.
Proof.
  unfold unc_psd, scale_base. rewrite <- sum_n_scal_r.
  apply sum_n_ext. intros k _. ring.
Qed.

Lemma sum3_plus_source_bin (n0 n1 n2 : nat) (A : arr3) (c : arr2) :
  sum3 n0 n1 n2 (fun i j k => A i j k + c i j)
  = sum3 n0 n1 n2 A
    + INR n2 * sum_n n0 (fun i => sum_n n1 (fun j => c i j)).
Proof.
  unfold sum3. rewrite <- sum_n_scal_l, <- sum_n_plus.
  apply sum_n_ext. intros i _.
  rewrite <- sum_n_scal_l, <- sum_n_plus.
  apply sum_n_ext. intros j _.
  rewrite sum_n_plus, sum_n_const. reflexivity.
Qed.

(** The loss after the rescaling of the consistent driver, when no density
    is under the floor. *)
Lemma gauss_loss_row_scaling (eps : R)
  (n_sources n_channels n_bins n_frames n_bases : nat)
  (X W : carr3) (T V : arr3) (scale : carr2) :
  0 < eps ->
  (forall s f, (s < n_sources)%nat -> (f < n_bins)%nat -> scale s f <> C0) ->
  (forall s f t, (s < n_sources)%nat -> (f < n_bins)%nat -> (t < n_frames)%nat ->
     eps <= unc_psd n_bases T V s f t /\
     eps <= unc_psd n_bases T V s f t * Cabs (scale s f) ^ 2) ->
  (forall f, (f < n_bins)%nat -> det n_sources (W f) <> C0) ->
  gauss_loss n_sources n_bins n_frames
    (power (separate n_channels X (scale_rows scale W)))
    (floor3 eps (unc_psd n_bases (scale_base scale (Rank3 T)) V))
    (scale_rows scale W)
  = gauss_loss n_sources n_bins n_frames
      (power (separate n_channels X W))
      (floor3 eps (unc_psd n_bases T V))
      W.
Proof.
  intros Heps Hs Hfl Hd. unfold gauss_loss.
  rewrite log_abs_det_scale_rows by assumption.
  rewrite (@sum3_ext n_sources n_bins n_frames _
             (fun s f t =>
                (power (separate n_channels X W) s f t
                 / floor3 eps (unc_psd n_bases T V) s f t
                 + ln (floor3 eps (unc_psd n_bases T V) s f t))
                + (fun s f => 2 * ln (Cabs (scale s f))) s f)).
  - rewrite sum3_plus_source_bin.
    rewrite (sum_n_swap n_sources n_bins (fun s f => 2 * ln (Cabs (scale s f)))).
    rewrite (@sum_n_ext n_bins
               (fun j => sum_n n_sources (fun i => 2 * ln (Cabs (scale i j))))
               (fun j => 2 * sum_n n_sources (fun i => ln (Cabs (scale i j)))))
      by (intros j _; apply sum_n_scal_l).
    rewrite sum_n_scal_l. ring.
  - intros s f t Hlt Hf Ht.
    destruct (Hfl s f t Hlt Hf Ht) as [H1 H2].
    assert (Ha : 0 < Cabs (scale s f)) by (apply Cabs_pos; now apply Hs).
    unfold floor3. rewrite unc_psd_scale_base.
    rewrite !floor_at_id by assumption.
    rewrite power_scale_rows.
    set (p := power (separate n_channels X W) s f t).
    set (r := unc_psd n_bases T V s f t) in *.
    set (a := Cabs (scale s f)) in *.
    assert (Hr : 0 < r) by lra.
    assert (Ha2 : 0 < a ^ 2) by (apply pow_lt; exact Ha).
    assert (E1 : p * a ^ 2 / (r * a ^ 2) = p / r) by (field; split; lra).
    assert (E2 : ln (r * a ^ 2) = ln r + 2 * ln a).
    { rewrite ln_mult by assumption.
      replace (a ^ 2) with (a * a) by ring.
      rewrite ln_mult by assumption. ring. }
    rewrite E1, E2. ring.
Qed.



(** *** The trajectory of the consistent driver *)

Lemma GaussILRMA_loss_state (s s' : ILRMA) (l : R) :
  GaussILRMA_compute_negative_loglikelihood s = (s', Ok l) -> s' = s.
Proof.
  unfold GaussILRMA_compute_negative_loglikelihood. rewrite bind_get.
  intros H.
  apply bind_inv in H. destruct H as [[s1 [X [H1 H]]] | [e [_ H]]]; [| discriminate].
  apply get_input_inv in H1. destruct H1 as [-> _]. cbv zeta in H.
  apply bind_inv in H. destruct H as [[s2 [R_ [H2 H]]] | [e [_ H]]]; [| discriminate].
  apply model_psd_state in H2. subst s2.
  exact (eq_sym (f_equal fst H)).
Qed.

Lemma keeps_ConsistentGaussILRMA_rescale {A : Type} (f : ILRMA -> A) pb :
  model_independent f -> keeps f (ConsistentGaussILRMA_rescale pb).
Proof.
  intros Hf.
  pose proof (proj1 (proj2 Hf)) as Hbase.
  pose proof (proj1 (proj2 (proj2 (proj2 Hf)))) as Hfilter.
  pose proof (proj2 (proj2 (proj2 (proj2 Hf)))) as Hestimation.
  unfold ConsistentGaussILRMA_rescale.
  repeat first [apply keeps_call_projection_back; exact Hf | keeps_step].
Qed.

Section ConsistentTrajectory.

Variable signal : Type.
Variable istft :
  forall (n_sources n_bins n_frames : nat) (fft_size hop_size : Z),
    carr3 -> result signal.
Variable stft : forall (fft_size hop_size : Z), signal -> result carr3.
Variable projection_back :
  forall (n_sources n_bins n_frames : nat), carr3 -> carr2 -> result carr2.
Variable callback : option (ILRMA -> result unit).
Variables fft hop : Z.

Lemma keeps_ConsistentGaussILRMA_update_once {A : Type} (f : ILRMA -> A) :
  model_independent f ->
  keeps f (ConsistentGaussILRMA_update_once istft stft projection_back fft hop).
Proof.
  intros Hf. unfold ConsistentGaussILRMA_update_once.
  apply keeps_bind;
    [apply keeps_consistency_projection;
     exact (proj2 (proj2 (proj2 (proj2 Hf)))) | intros _].
  apply keeps_bind; [now apply keeps_GaussILRMA_update_source_model | intros _].
  apply keeps_bind; [now apply keeps_GaussILRMA_update_space_model | intros _].
  now apply keeps_ConsistentGaussILRMA_rescale.
Qed.

Lemma consistent_iteration_loss (idx : nat) (s s' : ILRMA) (r : result unit) :
  ConsistentGaussILRMA_iteration istft stft projection_back callback fft hop idx s
  = (s', r) ->
  (exists l, loss s' = loss s ++ [l]) \/
  (loss s' = loss s /\ exists e, r = Err e).
Proof.
  unfold ConsistentGaussILRMA_iteration. intros H.
  apply bind_inv in H. destruct H as [[s1 [[] [H1 H]]] | [e [H1 ->]]].
  2:{ right. split; [| eexists; reflexivity].
      apply (keeps_ConsistentGaussILRMA_update_once loss_model_independent _ H1). }
  pose proof (keeps_ConsistentGaussILRMA_update_once loss_model_independent _ H1)
    as K1.
  apply bind_inv in H. destruct H as [[s2 [l [H2 H]]] | [e [H2 ->]]].
  2:{ right. split; [| eexists; reflexivity].
      rewrite (keeps_GaussILRMA_compute_negative_loglikelihood loss _ H2).
      assumption. }
  pose proof (keeps_GaussILRMA_compute_negative_loglikelihood loss _ H2) as K2.
  apply bind_inv in H. destruct H as [[s3 [[] [H3 H]]] | [e [H3 _]]];
    [| discriminate].
  assert (E3 : s3 = append_loss l s2) by exact (eq_sym (f_equal fst H3)).
  left. exists l.
  rewrite (keeps_run_callback loss _ _ H), E3. unfold append_loss. simpl.
  congruence.
Qed.

Lemma consistent_loop_loss (n i : nat) (s s' : ILRMA) (r : result unit) :
  for_from i n
    (ConsistentGaussILRMA_iteration istft stft projection_back callback fft hop) s
  = (s', r) ->
  exists new,
    loss s' = loss s ++ new /\
    (List.length new <= n)%nat /\
    (r = Ok tt -> List.length new = n).
Proof.
  revert i s. induction n as [| n IH]; intros i s H; simpl in H.
  - inversion H; subst. exists []. rewrite app_nil_r. repeat split; auto.
  - apply bind_inv in H. destruct H as [[s1 [[] [H1 H]]] | [e [H1 ->]]].
    + destruct (consistent_iteration_loss _ _ H1) as [[l Hl] | [_ [e He]]];
        [| discriminate].
      destruct (IH _ _ H) as [new [Hn [Hle Hok]]].
      exists (l :: new). rewrite Hn, Hl, <- app_assoc. simpl.
      repeat split; [lia | intros Hr; rewrite Hok by assumption; reflexivity].
    + destruct (consistent_iteration_loss _ _ H1) as [[l Hl] | [Hl _]].
      * exists [l]. repeat split; [assumption | simpl; lia | discriminate].
      * exists []. rewrite app_nil_r.
        repeat split; [assumption | simpl; lia | discriminate].
Qed.

Lemma consistent_call_loss (X : carray3) (iteration : Z) (kwargs : list kwarg)
  (s s' : ILRMA) (out : carr3) :
  ConsistentGaussILRMA___call__ istft stft projection_back callback fft hop
    X iteration kwargs s = (s', Ok out) ->
  exists s0 baseline rest,
    _reset kwargs (set_input (Some X) s) = (s0, Ok tt) /\
    GaussILRMA_compute_negative_loglikelihood s0 = (s0, Ok baseline) /\
    loss s' = loss s0 ++ baseline :: rest /\
    List.length rest = Z.to_nat iteration /\
    (no_loss_kwarg kwargs = true -> loss s0 = loss s).
Proof.
  intros H. unfold ConsistentGaussILRMA___call__ in H. rewrite bind_modify in H.
  apply bind_inv in H. destruct H as [[s2 [[] [H2 H]]] | [e [_ H]]]; [| discriminate].
  apply bind_inv in H. destruct H as [[s3 [l [H3 H]]] | [e [_ H]]]; [| discriminate].
  pose proof (GaussILRMA_loss_state _ H3) as E3. subst s3.
  apply bind_inv in H. destruct H as [[s4 [[] [H4 H]]] | [e [_ H]]]; [| discriminate].
  assert (E4 : s4 = append_loss l s2) by exact (eq_sym (f_equal fst H4)).
  apply bind_inv in H. destruct H as [[s5 [[] [H5 H]]] | [e [_ H]]]; [| discriminate].
  destruct (consistent_loop_loss _ _ _ H5) as [new [Hn [_ Hok]]].
  pose proof (keeps_finish_call loss_model_independent _ _ _ H) as K6.
  exists s2, l, new. split; [| split; [| split; [| split]]].
  - exact H2.
  - exact H3.
  - rewrite K6, Hn, E4. unfold append_loss. simpl. rewrite <- app_assoc. reflexivity.
  - apply Hok. reflexivity.
  - intros Hkw. exact (keeps_loss_reset _ Hkw _ H2).
Qed.

End ConsistentTrajectory.


Lemma consistent_driver_constructed :
  ConsistentGaussILRMA___init__ rng_quarter 1 false 0 (Some 2048%Z) None
    EPS THRESHOLD
  = Ok consistent_driver.
Proof. reflexivity. Qed.

(** A call of the consistent driver with one iteration on [unit_mixture]
    returns, for a round trip that returns the estimate it is given. *)
Lemma consistent_unit_call :
  exists s' out,
    ConsistentGaussILRMA___call__
      (fun _ _ _ _ _ Y => Ok Y) (fun _ _ y => Ok y)
      unit_projection_back None
      (fft_size consistent_driver) (hop_size consistent_driver)
      unit_mixture 1 [] (gauss consistent_driver)
    = (s', Ok out).
Proof.
  set (X := unit_mixture).
  set (d := gauss consistent_driver).
  set (s0 := reset_unconstrained X d).
  assert (E1 : _reset [] (set_input (Some X) d) = (s0, Ok tt))
    by (apply reset_unconstrained_step; reflexivity).
  pose proof (@GaussILRMA_loss_unconstrained s0 X _ _
                eq_refl eq_refl eq_refl eq_refl) as E2.
  match type of E2 with _ = (_, Ok ?l) => set (L0 := l) in * end.
  set (s0' := append_loss L0 s0).
  set (sp := set_estimation (estimation s0') s0').
  assert (Ep : consistency_projection
                 (fun _ _ _ _ _ Y => Ok Y) (fun _ _ y => Ok y)
                 (fft_size consistent_driver) (hop_size consistent_driver) s0'
               = (sp, Ok tt)) by reflexivity.
  destruct (@unit_two_updates sp eq_refl eq_refl eq_refl eq_refl
              eq_refl eq_refl eq_refl eq_refl eq_refl EPS_pos)
    as (s1 & s2 & T1 & V1 & E3 & E4 & HB2 & HA2).
  assert (HI2 : input s2 = Some X).
  { rewrite (keeps_GaussILRMA_update_space_model input_model_independent _ E4).
    rewrite (keeps_GaussILRMA_update_source_model input_model_independent _ E3).
    reflexivity. }
  assert (HP2 : partitioning s2 = false).
  { rewrite (keeps_GaussILRMA_update_space_model partitioning_model_independent _ E4).
    rewrite (keeps_GaussILRMA_update_source_model
               partitioning_model_independent _ E3).
    reflexivity. }
  assert (HR2 : reference_id s2 = 0%Z).
  { rewrite (keeps_GaussILRMA_update_space_model reference_id_model_independent _ E4).
    rewrite (keeps_GaussILRMA_update_source_model
               reference_id_model_independent _ E3).
    reflexivity. }
  assert (Hr : py_index (shape0 X) (reference_id s2) = Some O)
    by (rewrite HR2; reflexivity).
  pose proof (@ConsistentGaussILRMA_rescale_ok unit_projection_back s2 X O
                (fun _ _ => C1) HI2 HP2 Hr eq_refl) as E5.
  match type of E5 with _ = (?st, _) => set (s3 := st) in * end.
  pose proof (@GaussILRMA_loss_unconstrained s3 X
                (scale_base (fun _ _ => C1) (base s2)) V1 HI2 HP2 eq_refl HA2)
    as E6.
  match type of E6 with _ = (_, Ok ?l) => set (L1 := l) in * end.
  set (s3' := append_loss L1 s3).
  assert (Hr3 : py_index (shape0 X) (reference_id s3') = Some O).
  { replace (reference_id s3') with (reference_id s2) by reflexivity.
    exact Hr. }
  pose proof (@finish_call_ok unit_projection_back X s3' O (fun _ _ => C1)
                Hr3 eq_refl) as E7.
  match type of E7 with _ = (?st, Ok ?o) => exists st, o end.
  unfold ConsistentGaussILRMA___call__. rewrite bind_modify.
  rewrite (@bind_ok _ _ _ _ _ _ _ E1). cbv beta.
  rewrite (@bind_ok _ _ _ _ _ _ _ E2). cbv beta.
  rewrite bind_modify. fold s0'.
  replace (Z.to_nat 1) with 1%nat by reflexivity. unfold for_range, for_from.
  rewrite ?bind_assoc. unfold ConsistentGaussILRMA_iteration.
  rewrite ?bind_assoc. unfold ConsistentGaussILRMA_update_once.
  rewrite ?bind_assoc.
  rewrite (@bind_ok _ _ _ _ _ _ _ Ep). cbv beta. rewrite ?bind_assoc.
  rewrite (@bind_ok _ _ _ _ _ _ _ E3). cbv beta. rewrite ?bind_assoc.
  rewrite (@bind_ok _ _ _ _ _ _ _ E4). cbv beta. rewrite ?bind_assoc.
  rewrite (@bind_ok _ _ _ _ _ _ _ E5). cbv beta. rewrite ?bind_assoc.
  rewrite (@bind_ok _ _ _ _ _ _ _ E6). cbv beta.
  rewrite ?bind_assoc, bind_modify. fold s3'.
  unfold run_callback. rewrite !bind_ret. exact E7.
Qed.

